(** * Quota-aware request scheduler of the YouTube channel scraper

    A shallow embedding of the scheduling core of [youtube_scraper.py]
    and [api_validator.py]:

    - the bounded cache [LRUCache] (an [OrderedDict] under a capacity),
    - the credential pool: [reset_daily_quota_usage], [track_api_usage],
      [get_next_api_key],
    - the resilient client [create_youtube_service] and the validator's
      [validate_api_key] / [get_used_quota],
    - the fuzzy deduplicator: [normalize_email],
      [calculate_email_similarity], [_levenshtein_ratio] and the grouping
      pass of [remove_email_duplicates] / [_filter_similar_emails].

    Conventions of the embedding.
    - Python [str] is [string]; the inputs are taken to be ASCII, so
      [lower] folds A-Z only.
    - Python [float] quantities (timestamps, delays, ratios, similarity
      scores) are exact rationals [Q]; rounding is not modelled.
    - A [dict] is a [gmap]; [d.get(k, 0)] is [default 0 (d !! k)].  An
      [OrderedDict] is an association list, oldest entry first.
    - A raised exception is the [Raise] branch of [result].
    - The wall clock, the sleep overshoot, the random generator and the
      remote service are oracles carried by the [World]; dates are day
      ordinals (seconds since the epoch divided by 86400).
    - Recursion that the source does not bound is driven by a fuel
      argument; [None] means the fuel ran out, never a result. *)

From Stdlib Require Import Ascii String QArith Qround Lqa Qminmax Sorted.
From stdpp Require Import gmap strings list.

Local Open Scope Z_scope.

(** ** Python values shared by the modules *)

Inductive exn : Type :=
| KeyError
| ValueError (msg : string)
| AttributeError (msg : string)
| HttpError (status_code : Z) (reason : string)
| Exception (msg : string).

Inductive result (A : Type) : Type :=
| Return (a : A)
| Raise (e : exn).
Arguments Return {A} a.
Arguments Raise {A} e.

(** [x < y] on rationals *)
Definition Qltb (x y : Q) : bool := negb (Qle_bool y x).

(** ** Bounded cache: class [LRUCache] *)

Module LRUCache.
Section cache.
Context {K V : Type} `{EqDecision K}.

(** [self.cache] (an [OrderedDict], least recently used first) and
  [self.max_size]. *)
Record t : Type := mk { cache : list (K * V); max_size : Z }.

(** [__init__] *)
Definition init (max_size : Z) : t := mk [] max_size.

(** [key in d] *)
Definition od_contains (key : K) (d : list (K * V)) : bool :=
bool_decide (key ∈ d.*1).

(** [d[key]] *)
Fixpoint od_getitem (key : K) (d : list (K * V)) : result V :=
match d with
| [] => Raise KeyError
| (k, v) :: d' => if decide (k = key) then Return v else od_getitem key d'
end.

(** [d.move_to_end(key)] *)
Definition od_move_to_end (key : K) (d : list (K * V)) : result (list (K * V)) :=
match od_getitem key d with
| Return v => Return (filter (λ kv, kv.1 ≠ key) d ++ [(key, v)])
| Raise e => Raise e
end.

(** [d.popitem(last=False)] *)
Definition od_popitem_first (d : list (K * V)) : result (list (K * V)) :=
match d with
| [] => Raise KeyError
| _ :: d' => Return d'
end.

(** [d[key] = value]: an existing key keeps its place, a new key goes
  to the end. *)
Fixpoint od_setitem (key : K) (value : V) (d : list (K * V)) : list (K * V) :=
match d with
| [] => [(key, value)]
| (k, v) :: d' =>
    if decide (k = key) then (k, value) :: d'
    else (k, v) :: od_setitem key value d'
end.

(** [__len__] *)
Definition len (c : t) : Z := Z.of_nat (length (cache c)).

(** [__contains__] *)
Definition contains (key : K) (c : t) : bool := od_contains key (cache c).

(** [keys] *)
Definition keys (c : t) : list K := (cache c).*1.

(** [get(key, default)]: the value found (or [default]) and the cache
  after the promotion. *)
Definition get (key : K) (dflt : option V) (c : t) : result (option V * t) :=
if od_contains key (cache c) then
  match od_move_to_end key (cache c) with
  | Raise e => Raise e
  | Return d =>
      match od_getitem key d with
      | Raise e => Raise e
      | Return v => Return (Some v, mk d (max_size c))
      end
  end
else Return (dflt, c).

(** [put(key, value)] *)
Definition put (key : K) (value : V) (c : t) : result t :=
let step1 :=
  if od_contains key (cache c) then od_move_to_end key (cache c)
  else if bool_decide (max_size c ≤ len c) then od_popitem_first (cache c)
  else Return (cache c) in
match step1 with
| Raise e => Raise e
| Return d => Return (mk (od_setitem key value d) (max_size c))
end.

(** A client's sequence of calls. *)
Inductive op : Type :=
| Put (key : K) (value : V)
| Get (key : K).

Definition run_op (o : op) (c : t) : result t :=
match o with
| Put key value => put key value c
| Get key =>
    match get key None c with
    | Raise e => Raise e
    | Return (_, c') => Return c'
    end
end.

Fixpoint run (ops : list op) (c : t) : result t :=
match ops with
| [] => Return c
| o :: ops' =>
    match run_op o c with
    | Raise e => Raise e
    | Return c' => run ops' c'
    end
end.
End cache.
Arguments t : clear implicits.
Arguments op : clear implicits.
End LRUCache.

(** ** Python [str] operations used by the code *)

Module Str.
Local Open Scope string_scope.

(** [c.lower()] on an ASCII character *)
Definition lower_ascii (c : ascii) : ascii :=
  let n := nat_of_ascii c in
  if bool_decide (65 ≤ n ≤ 90)%nat then ascii_of_nat (n + 32) else c.

(** [s.lower()] *)
Fixpoint lower (s : string) : string :=
  match s with
  | "" => ""
  | String c s' => String (lower_ascii c) (lower s')
  end.

(** [c in s] for a character [c] *)
Fixpoint contains_char (c : ascii) (s : string) : bool :=
  match s with
  | "" => false
  | String c' s' => if decide (c' = c) then true else contains_char c s'
  end.

(** [s.startswith(p)] *)
Definition startswith (s p : string) : bool := String.prefix p s.

(** [p in s] for a substring [p] *)
Fixpoint contains (p s : string) : bool :=
  match s with
  | "" => String.prefix p ""
  | String _ s' => String.prefix p s || contains p s'
  end.

(** [s.split(c, 1)] when [c in s]: the text before the first [c] and
    the text after it; [(s, "")] stands for the one-element list when
    [c] does not occur. *)
Fixpoint split_once (c : ascii) (s : string) : string * string :=
  match s with
  | "" => ("", "")
  | String c' s' =>
      if decide (c' = c) then ("", s')
      else let '(a, b) := split_once c s' in (String c' a, b)
  end.

(** [s.split(c)[-1]]: the text after the last [c] (all of [s] when [c]
    does not occur). *)
Fixpoint after_last (c : ascii) (s : string) : string :=
  match s with
  | "" => ""
  | String c' s' =>
      if contains_char c s' then after_last c s'
      else if decide (c' = c) then s' else s
  end.

(** [s.replace(c, '')] for a character [c] *)
Fixpoint remove_char (c : ascii) (s : string) : string :=
  match s with
  | "" => ""
  | String c' s' =>
      if decide (c' = c) then remove_char c s' else String c' (remove_char c s')
  end.

(** Python's [str.isspace] on ASCII: TAB..CR, FS..US and the blank. *)
Definition is_space (c : ascii) : bool :=
  let n := nat_of_ascii c in
  bool_decide (9 ≤ n ≤ 13)%nat || bool_decide (28 ≤ n ≤ 32)%nat.

Fixpoint lstrip (s : string) : string :=
  match s with
  | "" => ""
  | String c s' => if is_space c then lstrip s' else s
  end.

(** [rstrip], with [drop] telling what is stripped. *)
Fixpoint rstrip_with (drop : ascii → bool) (s : string) : string :=
  match s with
  | "" => ""
  | String c s' =>
      match rstrip_with drop s' with
      | "" => if drop c then "" else String c ""
      | r => String c r
      end
  end.

(** [s.strip()] *)
Definition strip (s : string) : string := rstrip_with is_space (lstrip s).

Definition is_digit (c : ascii) : bool :=
  let n := nat_of_ascii c in bool_decide (48 ≤ n ≤ 57)%nat.

(** [s[n:]] *)
Fixpoint drop (n : nat) (s : string) : string :=
  match n, s with
  | O, _ => s
  | S n', "" => ""
  | S n', String _ s' => drop n' s'
  end.

(** [s[n]] *)
Definition get (n : nat) (s : string) : option ascii := String.get n s.

(** [len(s)] *)
Definition len (s : string) : nat := String.length s.
End Str.

(** ** The outside world: clock, sleep, random generator, remote service *)

Module World.
(** What the remote discovery call ([build]) answers. *)
Inductive reply : Type :=
| Built
| Failed (e : exn).

(** The oracles.  [sleep_lag n] is how much longer than asked the
    [n]-th [time.sleep] lasts, [random_random n] the [n]-th draw of
    [random.random()], [random_index n] the [n]-th draw behind
    [random.choice], [build n key] the answer to the [n]-th call of
    [build(..., developerKey=key)]. *)
Record oracle : Type := {
  sleep_lag : nat → Q;
  random_random : nat → Q;
  random_index : nat → nat;
  build : nat → string → reply
}.

(** What a run does to the outside, in order: a [time.sleep], a call
    of the remote service, a key leaving the pool, and a key handed
    out by [get_next_api_key] with the clock reading it was stamped
    with.  The source keeps no such record; the log is there for the
    statements about runs. *)
Inductive event : Type :=
| EvSleep (seconds : Q)
| EvBuild (key : string)
| EvRemove (key : string)
| EvSelect (key : string) (at_time : Q).

Record t : Type := {
  now : Q;
  n_sleep : nat;
  n_random : nat;
  n_build : nat;
  log : list event
}.

Definition start (t0 : Q) : t :=
  {| now := t0; n_sleep := 0; n_random := 0; n_build := 0; log := [] |}.

Definition emit (ev : event) (w : t) : t :=
  {| now := now w; n_sleep := n_sleep w; n_random := n_random w;
     n_build := n_build w; log := log w ++ [ev] |}.

(** [time.time()] *)
Definition time (w : t) : Q := now w.

(** [datetime.datetime.now().date()], as a day ordinal. *)
Definition date_of (t : Q) : Z := Qfloor (t / 86400).
Definition today (w : t) : Z := date_of (now w).

(** [time.sleep(seconds)] *)
Definition sleep (o : oracle) (seconds : Q) (w : t) : t :=
  {| now := (now w + seconds + sleep_lag o (n_sleep w))%Q;
     n_sleep := S (n_sleep w); n_random := n_random w;
     n_build := n_build w; log := log w ++ [EvSleep seconds] |}.

(** [random.uniform(a, b)], that is [a + (b - a) * random()]. *)
Definition uniform (o : oracle) (a b : Q) (w : t) : Q * t :=
  ((a + (b - a) * random_random o (n_random w))%Q,
   {| now := now w; n_sleep := n_sleep w; n_random := S (n_random w);
      n_build := n_build w; log := log w |}).

(** [random.choice(seq)] on the non-empty list [x :: xs]. *)
Definition choice {A} (o : oracle) (x : A) (xs : list A) (w : t) : A * t :=
  (default x ((x :: xs) !! (random_index o (n_random w) `mod` length (x :: xs))%nat),
   {| now := now w; n_sleep := n_sleep w; n_random := S (n_random w);
      n_build := n_build w; log := log w |}).

(** [build('youtube', 'v3', developerKey=key, ...)] *)
Definition call_build (o : oracle) (key : string) (w : t) : reply * t :=
  (build o (n_build w) key,
   {| now := now w; n_sleep := n_sleep w; n_random := n_random w;
      n_build := S (n_build w); log := log w ++ [EvBuild key] |}).

(** The oracles a real run can have: a sleep never ends early and
    [random()] is in [[0, 1)]. *)
Definition sane (o : oracle) : Prop :=
  (∀ n, 0 <= sleep_lag o n)%Q ∧ (∀ n, 0 <= random_random o n < 1)%Q.
End World.

(** ** Credential pool and quota tracker: class [YouTubeChannelScraper] *)

Module Scraper.
Import World.

(** Numbers compared against [float('inf')]. *)
Inductive ext (A : Type) : Type :=
| Fin (a : A)
| Inf.
Arguments Fin {A} a.
Arguments Inf {A}.

(** [x < m] and [x == m] for an integer [x] and [m] a number or
    infinity; likewise for ratios. *)
Definition Z_lt_ext (x : Z) (m : ext Z) : bool :=
  match m with Inf => true | Fin y => bool_decide (x < y) end.
Definition Z_eq_ext (x : Z) (m : ext Z) : bool :=
  match m with Inf => false | Fin y => bool_decide (x = y) end.
Definition Q_lt_ext (x : Q) (m : ext Q) : bool :=
  match m with Inf => true | Fin y => Qltb x y end.
Definition Q_eq_ext (x : Q) (m : ext Q) : bool :=
  match m with Inf => false | Fin y => Qeq_bool x y end.

(** The attributes of the scraper that the scheduler reads and writes.
    [daily_quota_limit] is set once in [__init__] and never again. *)
Record t : Type := {
  api_keys : list string;
  api_usage_count : gmap string Z;
  api_last_used : gmap string Q;
  api_errors : gmap string Z;
  daily_quota_usage : gmap string Z;
  last_quota_reset_day : Z;
  min_api_cooldown : Q
}.

Definition daily_quota_limit : Z := 10000.

Definition set_api_keys (v : list string) (s : t) : t :=
  {| api_keys := v; api_usage_count := api_usage_count s;
     api_last_used := api_last_used s; api_errors := api_errors s;
     daily_quota_usage := daily_quota_usage s;
     last_quota_reset_day := last_quota_reset_day s;
     min_api_cooldown := min_api_cooldown s |}.
Definition set_api_usage_count (v : gmap string Z) (s : t) : t :=
  {| api_keys := api_keys s; api_usage_count := v;
     api_last_used := api_last_used s; api_errors := api_errors s;
     daily_quota_usage := daily_quota_usage s;
     last_quota_reset_day := last_quota_reset_day s;
     min_api_cooldown := min_api_cooldown s |}.
Definition set_api_last_used (v : gmap string Q) (s : t) : t :=
  {| api_keys := api_keys s; api_usage_count := api_usage_count s;
     api_last_used := v; api_errors := api_errors s;
     daily_quota_usage := daily_quota_usage s;
     last_quota_reset_day := last_quota_reset_day s;
     min_api_cooldown := min_api_cooldown s |}.
Definition set_api_errors (v : gmap string Z) (s : t) : t :=
  {| api_keys := api_keys s; api_usage_count := api_usage_count s;
     api_last_used := api_last_used s; api_errors := v;
     daily_quota_usage := daily_quota_usage s;
     last_quota_reset_day := last_quota_reset_day s;
     min_api_cooldown := min_api_cooldown s |}.
Definition set_daily_quota (v : gmap string Z) (day : Z) (s : t) : t :=
  {| api_keys := api_keys s; api_usage_count := api_usage_count s;
     api_last_used := api_last_used s; api_errors := api_errors s;
     daily_quota_usage := v; last_quota_reset_day := day;
     min_api_cooldown := min_api_cooldown s |}.

(** [d.get(key, 0)] *)
Definition getZ (d : gmap string Z) (key : string) : Z := default 0 (d !! key).
Definition getQ (d : gmap string Q) (key : string) : Q := default 0%Q (d !! key).

(** [reset_daily_quota_usage], with [today] the date the clock shows. *)
Definition reset_daily_quota_usage (today : Z) (s : t) : t :=
  if decide (last_quota_reset_day s ≠ today) then
    set_daily_quota (list_to_map ((λ key, (key, 0)) <$> api_keys s)) today s
  else s.

(** [track_api_usage(api_key, units_used)]: the new state and the
    returned "used today" figure. *)
Definition track_api_usage (api_key : string) (units_used : Z) (w : World.t)
    (s : t) : Z * t :=
  let s := reset_daily_quota_usage (today w) s in
  let s := set_api_usage_count
             (<[api_key := getZ (api_usage_count s) api_key + 1]> (api_usage_count s)) s in
  let s := set_daily_quota
             (<[api_key := getZ (daily_quota_usage s) api_key + units_used]> (daily_quota_usage s))
             (last_quota_reset_day s) s in
  (getZ (daily_quota_usage s) api_key, s).

(** The cooldown filter of [get_next_api_key]. *)
Definition off_cooldown (s : t) (current_time : Q) (key : string) : bool :=
  Qle_bool (min_api_cooldown s) (current_time - getQ (api_last_used s) key).

Definition available_keys (s : t) (current_time : Q) : list string :=
  filter (λ key, off_cooldown s current_time key = true) (api_keys s).

(** [min(xs)] on a non-empty list of numbers. *)
Fixpoint Qmin_list (x : Q) (xs : list Q) : Q :=
  match xs with
  | [] => x
  | y :: ys => Qmin_list (if Qltb y x then y else x) ys
  end.

(** [max(0, x)] *)
Definition Qmax0 (x : Q) : Q := if Qltb 0 x then x else 0%Q.

(** The selection loop's variables. *)
Record best : Type := {
  best_key : option string;
  min_errors : ext Z;
  min_quota_ratio : ext Q;
  min_usage : ext Z
}.

Definition best0 : best :=
  {| best_key := None; min_errors := Inf; min_quota_ratio := Inf; min_usage := Inf |}.

Definition quota_ratio (s : t) (key : string) : Q :=
  (inject_Z (getZ (daily_quota_usage s) key) / inject_Z daily_quota_limit)%Q.

(** One iteration of [for key in available_keys]. *)
Definition select_step (s : t) (b : best) (key : string) : best :=
  let errors := getZ (api_errors s) key in
  let usages := getZ (api_usage_count s) key in
  let ratio := quota_ratio s key in
  if Z_lt_ext errors (min_errors b)
     || (Z_eq_ext errors (min_errors b) && Q_lt_ext ratio (min_quota_ratio b))
     || (Z_eq_ext errors (min_errors b) && Q_eq_ext ratio (min_quota_ratio b)
         && Z_lt_ext usages (min_usage b))
  then {| best_key := Some key; min_errors := Fin errors;
          min_quota_ratio := Fin ratio; min_usage := Fin usages |}
  else b.

Definition select_best (s : t) (available : list string) : best :=
  foldl (select_step s) best0 available.

(** What a call that does not run out of fuel gives back. *)
Definition outcome (A : Type) : Type := result A * t * World.t.

(** [get_next_api_key] *)
Fixpoint get_next_api_key (o : oracle) (fuel : nat) (s : t) (w : World.t)
    : option (outcome string) :=
  match fuel with
  | O => None
  | S fuel' =>
      match api_keys s with
      | [] => Some (Raise (ValueError "No API keys available."), s, w)
      | key0 :: keys' =>
          let current_time := time w in
          let s := reset_daily_quota_usage (today w) s in
          let available := available_keys s current_time in
          match available with
          | [] =>
              let next_available_time :=
                (Qmin_list (getQ (api_last_used s) key0)
                           (getQ (api_last_used s) <$> keys')
                 + min_api_cooldown s)%Q in
              let sleep_time := Qmax0 (next_available_time - current_time) in
              let w := if Qltb 0 sleep_time then sleep o sleep_time w else w in
              get_next_api_key o fuel' s w
          | _ =>
              let b := select_best s available in
              (* [if not best_key and self.api_keys]: [None] and the
                 empty string are falsy *)
              let '(k, w) :=
                match best_key b with
                | Some k =>
                    if bool_decide (k = ""%string) then choice o key0 keys' w
                    else (k, w)
                | None => choice o key0 keys' w
                end in
              let s := set_api_usage_count
                         (<[k := getZ (api_usage_count s) k + 1]> (api_usage_count s)) s in
              let s := set_api_last_used (<[k := current_time]> (api_last_used s)) s in
              Some (Return k, s, emit (EvSelect k current_time) w)
          end
      end
  end.

(** [self.api_keys.remove(api_key)]: the first occurrence goes;
    [ValueError] when there is none. *)
Fixpoint list_remove (key : string) (l : list string) : result (list string) :=
  match l with
  | [] => Raise (ValueError "list.remove(x): x not in list")
  | k :: l' =>
      if decide (key = k) then Return l'
      else match list_remove key l' with
           | Return r => Return (k :: r)
           | Raise e => Raise e
           end
  end.

Definition max_retries : Z := 3.
Definition base_delay : Q := 1.

(** [base_delay * (2 ** retry_count) + random.uniform(0, 1)] *)
Definition backoff_delay (o : oracle) (retry_count : Z) (w : World.t) : Q * World.t :=
  let '(jitter, w) := uniform o 0 1 w in
  ((base_delay * inject_Z (2 ^ retry_count) + jitter)%Q, w).

(** The three "remove the key and try another" branches; [msg] is the
    text of the [ValueError] raised when that empties the pool and
    [again] is the recursive call of [create_youtube_service]. *)
Definition remove_and_rotate (again : t → World.t → option (outcome string))
    (api_key msg : string) (s : t) (w : World.t) : option (outcome string) :=
  match list_remove api_key (api_keys s) with
  | Raise e => Some (Raise e, s, w)
  | Return keys =>
      let s := set_api_keys keys s in
      let w := emit (EvRemove api_key) w in
      match keys with
      | [] => Some (Raise (ValueError msg), s, w)
      | _ => again s w
      end
  end.

(** The [except] clauses of [create_youtube_service] for a failed
    [build].  [again] is the recursive call of [create_youtube_service]
    and [continue] the next iteration of the [while] loop with the
    given [retry_count]. *)
Definition handle_failure (o : oracle)
    (again : t → World.t → option (outcome string))
    (continue : Z → t → World.t → option (outcome string))
    (api_key : string) (retry_count : Z) (e : exn) (s : t) (w : World.t)
    : option (outcome string) :=
  match e with
  | HttpError error_code error_reason =>
      let s := set_api_errors
                 (<[api_key := getZ (api_errors s) api_key + 1]> (api_errors s)) s in
      if Str.contains "quota" (Str.lower error_reason) then
        remove_and_rotate again api_key
          "All API keys have exceeded their quota. Please try again later." s w
      else if bool_decide (error_code = 403) then
        if Str.contains "accessNotConfigured" error_reason then
          remove_and_rotate again api_key
            "No working API keys available. Please check API configuration." s w
        else
          let retry_count := retry_count + 1 in
          let '(delay, w) := backoff_delay o retry_count w in
          continue retry_count s (sleep o delay w)
      else if bool_decide (error_code = 429) then
        let retry_count := retry_count + 1 in
        let '(delay, w) := backoff_delay o retry_count w in
        let w := sleep o delay w in
        if bool_decide (2 ≤ retry_count) then again s w
        else continue retry_count s w
      else if bool_decide (500 ≤ error_code) then
        let retry_count := retry_count + 1 in
        let '(delay, w) := backoff_delay o retry_count w in
        continue retry_count s (sleep o delay w)
      else if bool_decide (error_code = 400) then
        remove_and_rotate again api_key
          "All API keys are invalid. Please check your API keys." s w
      else
        let retry_count := retry_count + 1 in
        if bool_decide (max_retries ≤ retry_count) then
          Some (Raise (HttpError error_code error_reason), s, w)
        else
          let '(delay, w) := backoff_delay o retry_count w in
          continue retry_count s (sleep o delay w)
  | _ => Some (Raise e, s, w)
  end.

(** The [while retry_count < max_retries] loop of
    [create_youtube_service]. *)
Fixpoint service_loop (o : oracle) (again : t → World.t → option (outcome string))
    (fuel : nat) (api_key : string) (retry_count : Z) (s : t) (w : World.t)
    : option (outcome string) :=
  match fuel with
  | O => None
  | S fuel' =>
      if bool_decide (retry_count < max_retries) then
        let '(r, w) := call_build o api_key w in
        match r with
        | Built => Some (Return api_key, s, w)
        | Failed e =>
            handle_failure o again (service_loop o again fuel' api_key)
              api_key retry_count e s w
        end
      else
        Some (Raise (Exception "Failed to create YouTube service after 3 retries"), s, w)
  end.

(** [create_youtube_service]; the service object is opaque, the key it
    was built with is what is returned. *)
Fixpoint create_youtube_service (o : oracle) (fuel : nat) (s : t) (w : World.t)
    : option (outcome string) :=
  match fuel with
  | O => None
  | S fuel' =>
      match get_next_api_key o fuel s w with
      | None => None
      | Some (Raise e, s, w) => Some (Raise e, s, w)
      | Some (Return api_key, s, w) =>
          service_loop o (create_youtube_service o fuel') fuel' api_key 0 s w
      end
  end.
End Scraper.

(** ** Key validator: class [YouTubeAPIValidator] *)

Module Validator.
Import World.

Definition YT_API_QUOTA_LIMIT : Z := 10000.
Definition YT_API_MIN_UNITS_TEST : Z := 1.

(** A ledger entry of [quota_database[key]["history"]].  [timestamp]
    is [None] for an entry whose "timestamp" is missing or is not an
    ISO date ([fromisoformat] raises and the entry is skipped). *)
Record entry : Type := {
  timestamp : option Q;
  status : string;
  units_used : Z
}.

Record key_info : Type := {
  history : list entry;
  usage_count : Z;
  last_status : string
}.

Record t : Type := {
  quota_database : gmap string key_info;
  cancel_validation : bool
}.

Definition max_history_entries : nat := 50.

(** [history[-max_history_entries:]] *)
Definition last_n {A} (n : nat) (l : list A) : list A := drop (length l - n) l.

(** [update_quota_info(api_key, quota_info)], where [quota_info]
    carries the status and the units of the call. *)
Definition update_quota_info (api_key : string) (st : string) (units : Z)
    (w : World.t) (v : t) : t :=
  let info := default {| history := []; usage_count := 0; last_status := st |}
                      (quota_database v !! api_key) in
  let e := {| timestamp := Some (time w); status := st; units_used := units |} in
  let h := history info ++ [e] in
  let h := if bool_decide (max_history_entries < length h)%nat
           then last_n max_history_entries h else h in
  {| quota_database :=
       <[api_key := {| history := h; usage_count := usage_count info + 1;
                       last_status := st |}]> (quota_database v);
     cancel_validation := cancel_validation v |}.

(** The loop body of [get_used_quota]. *)
Definition add_if_today (today : Z) (today_usage : Z) (e : entry) : Z :=
  match timestamp e with
  | Some ts => if decide (date_of ts = today) then today_usage + units_used e
               else today_usage
  | None => today_usage
  end.

(** [get_used_quota(api_key)] *)
Definition get_used_quota (api_key : string) (w : World.t) (v : t) : Z :=
  match quota_database v !! api_key with
  | None => 0
  | Some info => foldl (add_if_today (today w)) 0 (history info)
  end.

(** [validate_api_key(api_key)]: [(is_valid, error_type)].  The pause
    gate and the token bucket only delay the call and are left out;
    building the client and executing the one-unit test request are
    one answer of the remote service. *)
Fixpoint validate_api_key (o : oracle) (fuel : nat) (api_key : string)
    (v : t) (w : World.t) : option (bool * string * t * World.t) :=
  match fuel with
  | O => None
  | S fuel' =>
      if cancel_validation v then Some (false, "canceled"%string, v, w)
      else
        let '(r, w) := call_build o api_key w in
        match r with
        | Built =>
            Some (true, "valid"%string,
                  update_quota_info api_key "valid" YT_API_MIN_UNITS_TEST w v, w)
        | Failed (HttpError error_code error_reason) =>
            if Str.contains "quota" (Str.lower error_reason) then
              Some (false, "quota_exceeded"%string,
                    update_quota_info api_key "quota_exceeded" 0 w v, w)
            else if bool_decide (error_code = 400) || bool_decide (error_code = 403) then
              Some (false, "invalid"%string,
                    update_quota_info api_key "invalid" 0 w v, w)
            else if bool_decide (error_code = 429) then
              let v := update_quota_info api_key "rate_limited" 0 w v in
              validate_api_key o fuel' api_key v (sleep o 2 w)
            else if bool_decide (500 ≤ error_code) then
              let v := update_quota_info api_key "server_error" 0 w v in
              validate_api_key o fuel' api_key v (sleep o 2 w)
            else
              Some (false, "error"%string,
                    update_quota_info api_key "error" 0 w v, w)
        | Failed _ =>
            Some (false, "error"%string,
                  update_quota_info api_key "error" 0 w v, w)
        end
  end.
End Validator.

(** ** Fuzzy deduplicator *)

Module Dedup.
Local Open Scope string_scope.

(** *** Edit distance *)

(** The textbook Levenshtein distance, the reference the dynamic
    programme is compared with. *)
Fixpoint levenshtein (a : list ascii) : list ascii → nat :=
  fix inner (b : list ascii) : nat :=
    match a, b with
    | [], _ => length b
    | _, [] => length a
    | x :: a', y :: b' =>
        Nat.min (levenshtein a' b + 1)
          (Nat.min (inner b' + 1)
                   (levenshtein a' b' + (if decide (x = y) then 0 else 1)))
    end%nat.

(** The [for j, c2 in enumerate(s2)] loop.  [prev] is what is left of
    [previous_row] from index [j] on, so [previous_row[j]] and
    [previous_row[j + 1]] are its first two cells; [last] is
    [current_row[j]], the cell appended last.  The result is the rest
    of [current_row]. *)
Fixpoint row_cells (c1 : ascii) (s2 : list ascii) (prev : list nat) (last : nat)
    : list nat :=
  match s2, prev with
  | c2 :: s2', p_j :: ((p_j1 :: _) as prev') =>
      let insertions := (p_j1 + 1)%nat in
      let deletions := (last + 1)%nat in
      let substitutions := (p_j + (if decide (c1 = c2) then 0 else 1))%nat in
      let cell := Nat.min insertions (Nat.min deletions substitutions) in
      cell :: row_cells c1 s2' prev' cell
  | _, _ => []
  end.

(** The [for i, c1 in enumerate(s1)] loop; [i] counts the characters
    already consumed. *)
Fixpoint rows (s1 s2 : list ascii) (i : nat) (previous_row : list nat) : list nat :=
  match s1 with
  | [] => previous_row
  | c1 :: s1' =>
      let current_row := (i + 1)%nat :: row_cells c1 s2 previous_row (i + 1) in
      rows s1' s2 (S i) current_row
  end.

(** [previous_row[-1]] after the loops, from [list(range(len(s2) + 1))]. *)
Definition dp_distance (s1 s2 : list ascii) : nat :=
  List.last (rows s1 s2 0 (seq 0 (length s2 + 1))) 0%nat.

(** [_levenshtein_ratio(s1, s2)] *)
Definition _levenshtein_ratio (s1 s2 : string) : Q :=
  if decide (s1 = s2) then 1%Q
  else
    let '(s1, s2) := if bool_decide (Str.len s1 < Str.len s2)%nat
                     then (s2, s1) else (s1, s2) in
    let len_s1 := Str.len s1 in
    if decide (len_s1 = 0%nat) then 0%Q
    else
      let distance := dp_distance (list_ascii_of_string s1) (list_ascii_of_string s2) in
      let max_len := Nat.max (Str.len s1) (Str.len s2) in
      (1 - inject_Z (Z.of_nat distance) / inject_Z (Z.of_nat max_len))%Q.

(** *** Similarity of two addresses *)

Definition prefix_bonus : Q := 15 # 100.

(** [calculate_email_similarity(email1, email2)] *)
Definition calculate_email_similarity (email1 email2 : string) : Q :=
  if decide (email1 = email2) then 1%Q
  else if negb (Str.contains_char "@" email1) || negb (Str.contains_char "@" email2)
  then 0%Q
  else
    let '(username1, domain1) := Str.split_once "@" (Str.lower email1) in
    let '(username2, domain2) := Str.split_once "@" (Str.lower email2) in
    if decide (domain1 ≠ domain2) then 0%Q
    else if bool_decide (Str.len username1 ≤ 3)%nat || bool_decide (Str.len username2 ≤ 3)%nat
    then (if decide (username1 = username2) then 1%Q else 0%Q)
    else
      let similarity := _levenshtein_ratio username1 username2 in
      if Str.startswith username1 username2 || Str.startswith username2 username1
      then (if Qltb (similarity + prefix_bonus) 1 then similarity + prefix_bonus else 1)%Q
      else similarity.

(** *** Normalisation *)

Fixpoint dropwhile_digits (l : list ascii) : list ascii :=
  match l with
  | d :: l' => if Str.is_digit d then dropwhile_digits l' else l
  | [] => []
  end.

(** [re.sub(r'\d+$', '', s)]: the digits at the very end go, or, when
    [s] ends in a newline, the digits just before it. *)
Definition sub_trailing_digits (s : string) : string :=
  match rev (list_ascii_of_string s) with
  | c :: r =>
      if decide (c = "010"%char)
      then string_of_list_ascii (rev (c :: dropwhile_digits r))
      else string_of_list_ascii (rev (dropwhile_digits (c :: r)))
  | [] => s
  end.

Definition gmail_domains : list string := ["gmail.com"; "googlemail.com"].
Definition role_prefixes : list string :=
  ["contact"; "info"; "support"; "admin"; "mail"; "email"; "hello"; "business"].
Definition separators : list ascii := ["."; "-"; "_"]%char.

(** One iteration of [for prefix in [...]]. *)
Definition strip_prefix (username prefix : string) : string :=
  if Str.startswith username prefix
     && bool_decide (Str.len prefix + 1 < Str.len username)%nat
  then
    match Str.get (Str.len prefix) username with
    | Some c =>
        if bool_decide (c ∈ separators)
        then Str.drop (Str.len prefix + 1) username else username
    | None => username
    end
  else username.

(** [normalize_email(email)]; the per-domain statistics it also
    updates are not part of the result. *)
Definition normalize_email (email : string) : string :=
  if bool_decide (email = "") || negb (Str.contains_char "@" email) then email
  else
    let '(username, domain) := Str.split_once "@" (Str.strip (Str.lower email)) in
    let '(username, domain) :=
      if bool_decide (domain ∈ gmail_domains) then
        let username := Str.remove_char "." username in
        let username :=
          if Str.contains_char "+" username
          then fst (Str.split_once "+" username) else username in
        (username, "gmail.com")
      else (username, domain) in
    let username := foldl strip_prefix username role_prefixes in
    let username_no_digits := sub_trailing_digits username in
    let username :=
      if bool_decide (2 < Str.len username_no_digits)%nat
         && bool_decide (username_no_digits ≠ username)
      then username_no_digits else username in
    username ++ "@" ++ domain.

(** *** Grouping *)

(** A group is its seed and the addresses pulled in after it
    ([group = [email]] followed by [group.append(other)]). *)
Definition group : Type := string * list string.

Section pass.
Variable similarity_threshold : Q.

(** [similarity >= self.similarity_threshold] on the normalised
    forms ([normalized_emails[e]] is [normalize_email(e)]). *)
Definition similar (email other : string) : bool :=
  Qle_bool similarity_threshold
    (calculate_email_similarity (normalize_email email) (normalize_email other)).

(** One iteration of the inner [for other in emails]. *)
Definition pull_step (email : string) (st : list string * gset string)
    (other : string) : list string * gset string :=
  let '(pulled, processed) := st in
  if bool_decide (other ≠ email) && bool_decide (other ∉ processed) then
    if similar email other then ((pulled ++ [other])%list, {[other]} ∪ processed) else st
  else st.

(** One iteration of the outer [for email in emails]. *)
Definition group_step (emails : list string) (st : list group * gset string)
    (email : string) : list group * gset string :=
  let '(email_groups, processed) := st in
  if bool_decide (email ∈ processed) then st
  else
    let '(pulled, processed) :=
      foldl (pull_step email) ([], {[email]} ∪ processed) emails in
    ((email_groups ++ [(email, pulled)])%list, processed).

(** The grouping loops, the same in [remove_email_duplicates] and
    [_filter_similar_emails]. *)
Definition group_similar (emails : list string) : list group :=
  (foldl (group_step emails) ([], ∅) emails).1.

(** The key of [min(group, key=...)]. *)
Definition sort_key (common : list string) (e : string) : bool * nat * string :=
  (negb (bool_decide (Str.after_last "@" e ∈ common)), Str.len e, e).

(** Python's order on such tuples. *)
Definition key_lt (k1 k2 : bool * nat * string) : bool :=
  let '(b1, n1, s1) := k1 in
  let '(b2, n2, s2) := k2 in
  if bool_decide (b1 = b2) then
    if bool_decide (n1 = n2) then String.ltb s1 s2
    else bool_decide (n1 < n2)%nat
  else negb b1.

(** [min(seq, key=...)] below a current minimum: the first of the
    smallest wins. *)
Fixpoint min_by (common : list string) (best : string) (l : list string) : string :=
  match l with
  | [] => best
  | e :: l' =>
      min_by common
        (if key_lt (sort_key common e) (sort_key common best) then e else best) l'
  end.

(** The representative of a group. *)
Definition best_email (common : list string) (g : group) : string :=
  match g.2 with
  | [] => g.1
  | _ => min_by common g.1 g.2
  end.

(** The fuzzy branch of [remove_email_duplicates], from the addresses
    read to the addresses written back. *)
Definition remove_email_duplicates (emails : list string) : list string :=
  best_email ["gmail.com"; "yahoo.com"; "hotmail.com"] <$> group_similar emails.

(** [_filter_similar_emails(emails)]; it picks each representative as
    soon as its group is complete.  [common_domains] is the
    [self.common_domains] it reads. *)
Definition _filter_similar_emails (common_domains : list string)
    (emails : list string) : list string :=
  if bool_decide (length emails ≤ 1)%nat then emails
  else best_email common_domains <$> group_similar emails.
End pass.
End Dedup.


(** * The code around the scheduler

    Key files, the scraper's pacing helpers, the selection of search
    results, keyword extraction, the result store, the validator's
    token bucket, client cache, quota database, analytics and
    validation runs, and the contact filter as the class runs it.

    The comments that the validator writes in Russian are string
    literals in UTF-8, so a [string] holds their bytes; the properties
    below depend on none of their lengths. *)

(** ** Text files *)

Module File.
Local Open Scope string_scope.

Definition NL : ascii := "010"%char.
Definition CR : ascii := "013"%char.

(** [for line in f] on a file opened in text mode: a line ends after
    a newline, a carriage return or the pair of them, read as one
    newline; the last line may lack it. *)
Fixpoint lines (text : string) : list string :=
  match text with
  | "" => []
  | String c rest =>
      if decide (c = NL) then String NL "" :: lines rest
      else if decide (c = CR) then
        match rest with
        | String c' rest' =>
            if decide (c' = NL) then String NL "" :: lines rest'
            else String NL "" :: lines rest
        | "" => [String NL ""]
        end
      else
        match lines rest with
        | [] => [String c ""]
        | l :: ls => String c l :: ls
        end
  end.

(** What a sequence of [f.write(x)] leaves in a file opened with
    ['w']. *)
Definition written (chunks : list string) : string :=
  foldr String.append "" chunks.
End File.

(** ** Key files: [api_key_handler.py] *)

Module APIKeyHandler.
Local Open Scope string_scope.

(** [line.strip() and not line.strip().startswith('#')] *)
Definition is_key_line (line : string) : bool :=
  negb (String.eqb (Str.strip line) "") && negb (Str.startswith (Str.strip line) "#").

(** [_load_from_file(filename)]; [None] is a file that cannot be
    opened, for which the handler returns the empty list. *)
Definition _load_from_file (file : option string) : list string :=
  match file with
  | None => []
  | Some text =>
      (λ line, Str.strip (Str.split_once "#" line).1)
        <$> List.filter is_key_line (File.lines text)
  end.

(** [load_keys()]: [Good_API.txt] when it exists and holds a key,
    [api.txt] otherwise.  A file that does not exist is [None]. *)
Definition load_keys (good_api api : option string) : list string :=
  let keys := if bool_decide (is_Some good_api) then _load_from_file good_api else [] in
  if bool_decide (keys ≠ []) then keys
  else
    let keys := if bool_decide (is_Some api) then _load_from_file api else [] in
    if bool_decide (keys ≠ []) then keys else [].

(** The loop body of [enhanced_load_api_keys]. *)
Definition init_counters (s : Scraper.t) (key : string) : Scraper.t :=
  let s := Scraper.set_api_usage_count (<[key := 0]> (Scraper.api_usage_count s)) s in
  Scraper.set_daily_quota (<[key := 0]> (Scraper.daily_quota_usage s))
    (Scraper.last_quota_reset_day s) s.

(** [enhanced_load_api_keys], the [load_api_keys] of the scraper
    after [integrate_api_key_handler]. *)
Definition enhanced_load_api_keys (good_api api : option string)
    (s : Scraper.t) : bool * Scraper.t :=
  let s := Scraper.set_api_keys (load_keys good_api api) s in
  if bool_decide (Scraper.api_keys s ≠ []) then
    (true, foldl init_counters s (Scraper.api_keys s))
  else (false, s).
End APIKeyHandler.

(** ** More of Python's built-ins *)

Module Py.
Local Open Scope string_scope.

(** [s.split(c)] for a character [c] *)
Fixpoint split (c : ascii) (s : string) : list string :=
  match s with
  | "" => [""]
  | String a s' =>
      if decide (a = c) then "" :: split c s'
      else
        match split c s' with
        | [] => [String a ""]
        | l :: ls => String a l :: ls
        end
  end.

(** [s.split()]: the maximal runs of characters that are not blanks *)
Fixpoint words (s : string) : list string :=
  match s with
  | "" => []
  | String a s' =>
      if Str.is_space a then words s'
      else
        match s' with
        | "" => [String a ""]
        | String b _ =>
            if Str.is_space b then String a "" :: words s'
            else
              match words s' with
              | [] => [String a ""]
              | l :: ls => String a l :: ls
              end
        end
  end.

(** [s.isdigit()] on ASCII *)
Fixpoint all_digits (s : string) : bool :=
  match s with
  | "" => true
  | String a s' => Str.is_digit a && all_digits s'
  end.
Definition isdigit (s : string) : bool :=
  negb (String.eqb s "") && all_digits s.

(** [s[:n]] *)
Fixpoint take (n : nat) (s : string) : string :=
  match n, s with
  | O, _ => ""
  | S _, "" => ""
  | S n', String a s' => String a (take n' s')
  end.

(** [s[-n:]] for [n > 0] *)
Definition last (n : nat) (s : string) : string :=
  Str.drop (Str.len s - n) s.

(** [int(x)]: rounding towards zero *)
Definition int (x : Q) : Z := if Qltb x 0 then Qceiling x else Qfloor x.

(** [max(a, b)] and [min(a, b)] on numbers: the first argument
    unless the second is strictly beyond it. *)
Definition max (a b : Q) : Q := if Qltb a b then b else a.
Definition min (a b : Q) : Q := if Qltb b a then b else a.

(** [sorted(l, key=key, reverse=True)]: keys descending, items with
    equal keys in their original order. *)
Fixpoint insert_desc {A} (key : A → Z) (x : A) (l : list A) : list A :=
  match l with
  | [] => [x]
  | y :: l' =>
      if bool_decide (key y ≤ key x)%Z then x :: y :: l'
      else y :: insert_desc key x l'
  end.
Definition sorted_desc {A} (key : A → Z) (l : list A) : list A :=
  foldr (insert_desc key) [] l.

(** [random.random()] *)
Definition random (o : World.oracle) (w : World.t) : Q * World.t :=
  (World.random_random o (World.n_random w),
   {| World.now := World.now w; World.n_sleep := World.n_sleep w;
      World.n_random := S (World.n_random w);
      World.n_build := World.n_build w; World.log := World.log w |}).

(** An insertion-ordered [dict] is an association list; these are
    [key in d], [d.get(key)] and [d[key] = value]. *)
Definition dict (K V : Type) : Type := list (K * V).
Definition has {K V} `{EqDecision K} (key : K) (d : dict K V) : bool :=
  LRUCache.od_contains key d.
Fixpoint get {K V} `{EqDecision K} (key : K) (d : dict K V) : option V :=
  match d with
  | [] => None
  | (k, v) :: d' => if decide (k = key) then Some v else get key d'
  end.
Definition set {K V} `{EqDecision K} (key : K) (value : V) (d : dict K V) : dict K V :=
  LRUCache.od_setitem key value d.
End Py.

(** ** The scraper's pacing helpers *)

Module Pacing.
Import World.
Local Open Scope string_scope.

(** [get_proxy()], with [self.proxies] as an argument: the ['http']
    and ['https'] entries of the dictionary, or [None]. *)
Definition get_proxy (o : oracle) (proxies : list string) (w : World.t)
    : option (string * string) * World.t :=
  match proxies with
  | [] => (None, w)
  | p :: ps =>
      let '(proxy, w) := choice o p ps w in
      match Py.split ":" proxy with
      | [ip; port; login; password] =>
          let url := "http://" ++ login ++ ":" ++ password ++ "@" ++ ip ++ ":" ++ port in
          (Some (url, url), w)
      | [ip; port] =>
          let url := "http://" ++ ip ++ ":" ++ port in
          (Some (url, url), w)
      | _ => (None, w)
      end
  end.

(** [get_dynamic_batch_size(items_count, base_batch_size,
    min_batch_size)], with [self.batch_size] as an argument.  A
    division by zero is [Exception]. *)
Definition get_dynamic_batch_size (o : oracle) (fuel : nat) (batch_size : Z)
    (items_count : Z) (base_batch_size : option Z) (min_batch_size : Z)
    (s : Scraper.t) (w : World.t) : option (Scraper.outcome Z) :=
  let base_batch_size := default batch_size base_batch_size in
  if bool_decide (items_count ≤ min_batch_size)%Z then Some (Return items_count, s, w)
  else
    match Scraper.get_next_api_key o fuel s w with
    | None => None
    | Some (Raise e, s, w) => Some (Raise e, s, w)
    | Some (Return api_key, s, w) =>
        let used_quota := Scraper.getZ (Scraper.daily_quota_usage s) api_key in
        let remaining_quota := Z.max 0 (Scraper.daily_quota_limit - used_quota) in
        if bool_decide (remaining_quota < 100)%Z then Some (Return min_batch_size, s, w)
        else if bool_decide (base_batch_size = 0)%Z then
          Some (Raise (Exception "division by zero"), s, w)
        else
          let per_batch := (inject_Z items_count / inject_Z base_batch_size)%Q in
          if Qeq_bool per_batch 0 then
            Some (Raise (Exception "float division by zero"), s, w)
          else
            let quota_based_size :=
              Py.int (inject_Z remaining_quota * (1 # 10) / per_batch)%Q in
            Some (Return (Z.max min_batch_size (Z.min base_batch_size quota_based_size)),
                  s, w)
    end.

(** [random_delay()], with the settings [delay_min] and [delay_max]
    as arguments. *)
Definition random_delay (o : oracle) (delay_min delay_max : Q) (w : World.t) : World.t :=
  let '(base_delay, w) := uniform o delay_min delay_max w in
  let '(u, w) := uniform o (- (1 # 10)) (1 # 10) w in
  let jitter := (u * base_delay)%Q in
  let delay := Py.max (1 # 10) (base_delay + jitter)%Q in
  let '(r, w) := Py.random o w in
  if Qltb r (1 # 10) then
    let '(extra, w) := uniform o 1 2 w in
    sleep o (delay + extra)%Q w
  else sleep o delay w.
End Pacing.

(** ** Search results: the selection at the end of
    [search_youtube_videos] *)

Module Search.
Record video : Type := {
  id : string;
  title : string;
  channel_id : string;
  channel_title : string;
  page : Z
}.

(** The loop that fills [unique_videos]: one video per id, the one
    from the later page. *)
Definition unique_step (unique_videos : Py.dict string video) (v : video)
    : Py.dict string video :=
  match Py.get (id v) unique_videos with
  | None => Py.set (id v) v unique_videos
  | Some old =>
      if bool_decide (page old < page v) then Py.set (id v) v unique_videos
      else unique_videos
  end.

(** The loop that fills [channel_videos]. *)
Definition channel_step (channel_videos : Py.dict string (list video)) (v : video)
    : Py.dict string (list video) :=
  match Py.get (channel_id v) channel_videos with
  | None => Py.set (channel_id v) [v] channel_videos
  | Some vs => Py.set (channel_id v) (vs ++ [v]) channel_videos
  end.

(** [max(v['page'] for v in vs)] on a non-empty list; [None] stands
    for the [ValueError] on an empty one. *)
Definition max_page (vs : list video) : option Z :=
  match vs with
  | [] => None
  | v :: vs' => Some (foldl (λ m v', if bool_decide (m < page v') then page v' else m)
                            (page v) vs')
  end.

(** From [all_videos] to [final_videos]. *)
Definition select (all_videos : list video) : list video :=
  let unique_videos := foldl unique_step [] all_videos in
  let videos := unique_videos.*2 in
  let channel_videos := foldl channel_step [] videos in
  let sorted_channels :=
    Py.sorted_desc (λ x, default 0 (max_page x.2)) channel_videos in
  let sorted_channels :=
    if bool_decide (30 < length sorted_channels)%nat then drop 30 sorted_channels else [] in
  omap (λ x, head (Py.sorted_desc page x.2)) sorted_channels.
End Search.

(** ** Keywords from tags: [_extract_keywords_from_tags] *)

Module Tags.
Local Open Scope string_scope.

(** The loop that fills [tag_counts]. *)
Definition count_tag (tag_counts : gmap string Z) (tag : string) : gmap string Z :=
  let tag_lower := Str.lower tag in
  <[tag_lower := (Scraper.getZ tag_counts tag_lower + 1)%Z]> tag_counts.
Definition count_tags (video_tags_dict : Py.dict string (list string)) : gmap string Z :=
  foldl (λ tag_counts x, foldl count_tag tag_counts x.2) ∅ video_tags_dict.

Definition generic_words : list string := ["subscribe"; "channel"; "video"; "follow"].

(** The test a popular tag passes to become a keyword. *)
Definition quality (tag : string) : bool :=
  let word_count := length (Py.words tag) in
  bool_decide (1 ≤ word_count ≤ 3)%nat && bool_decide (3 ≤ Str.len tag ≤ 30)%nat
  && negb (Py.isdigit tag)
  && negb (existsb (λ generic, Str.contains generic (Str.lower tag)) generic_words).

(** [_extract_keywords_from_tags(video_tags_dict)] *)
Definition _extract_keywords_from_tags (video_tags_dict : Py.dict string (list string))
    : gset string :=
  match video_tags_dict with
  | [] => ∅
  | _ =>
      let tag_counts := count_tags video_tags_dict in
      let popular_tags : gset string := dom (filter (λ x, 1 < x.2)%Z tag_counts) in
      filter (λ tag, quality tag = true) popular_tags
  end.
End Tags.

(** ** The result store: [emails.txt] and the sets behind it *)

Module Store.
Local Open Scope string_scope.

(** [self.parsed_emails], [self.email_domains] and the two e-mail
    files; [None] is a file that does not exist. *)
Record t : Type := {
  parsed_emails : gset string;
  email_domains : gmap string Z;
  emails_txt : option string;
  emails_detailed_txt : option string
}.

(** [open(name, 'a')] followed by [f.write(x)] *)
Definition append (file : option string) (x : string) : option string :=
  Some (default "" file ++ x).

(** The addresses of [emails.txt] as both readers take them: each
    line stripped, the empty ones and the [#] comments left out. *)
Definition read_emails (text : string) : list string :=
  List.filter (λ email, negb (String.eqb email "") && negb (Str.startswith email "#"))
              (Str.strip <$> File.lines text).

(** [_load_existing_emails()] *)
Definition _load_existing_emails (st : t) : t :=
  match emails_txt st with
  | None => st
  | Some text =>
      {| parsed_emails := foldl (λ parsed email, {[email]} ∪ parsed)
                                (parsed_emails st) (read_emails text);
         email_domains := email_domains st;
         emails_txt := emails_txt st;
         emails_detailed_txt := emails_detailed_txt st |}
  end.

(** [self.email_domains[domain] = self.email_domains.get(domain, 0) + 1]
    with [domain = email.split('@')[-1]] *)
Definition count_domain (email_domains : gmap string Z) (email : string)
    : gmap string Z :=
  let domain := Str.after_last "@" email in
  <[domain := (Scraper.getZ email_domains domain + 1)%Z]> email_domains.

(** The first loop of [_save_emails]. *)
Definition save_new (st : t) (email : string) : t :=
  if decide (email ∈ parsed_emails st) then st
  else
    {| parsed_emails := {[email]} ∪ parsed_emails st;
       email_domains := count_domain (email_domains st) email;
       emails_txt := append (emails_txt st) (email ++ String File.NL "");
       emails_detailed_txt := emails_detailed_txt st |}.

(** The second loop of [_save_emails]. *)
Definition save_detail (channel_title channel_id : string) (st : t) (email : string) : t :=
  if decide (email ∈ parsed_emails st) then
    {| parsed_emails := parsed_emails st;
       email_domains := email_domains st;
       emails_txt := emails_txt st;
       emails_detailed_txt :=
         append (emails_detailed_txt st)
                (email ++ "," ++ channel_title ++ "," ++ channel_id ++ String File.NL "") |}
  else st.

(** [_save_emails(emails, channel_title, channel_id)]; opening a file
    for appending creates it. *)
Definition _save_emails (emails : list string) (channel_title channel_id : string)
    (st : t) : t :=
  let st := foldl save_new
              {| parsed_emails := parsed_emails st; email_domains := email_domains st;
                 emails_txt := append (emails_txt st) "";
                 emails_detailed_txt := emails_detailed_txt st |} emails in
  foldl (save_detail channel_title channel_id)
    {| parsed_emails := parsed_emails st; email_domains := email_domains st;
       emails_txt := emails_txt st;
       emails_detailed_txt := append (emails_detailed_txt st) "" |} emails.

(** The loop of the branch without similarity filtering. *)
Definition seen_step (acc : list string * gset string) (email : string)
    : list string * gset string :=
  if decide (email ∈ acc.2) then acc else ((acc.1 ++ [email])%list, {[email]} ∪ acc.2).
Definition without_repeats (emails : list string) : list string :=
  (foldl seen_step ([], ∅) emails).1.

(** [remove_email_duplicates()], with the setting
    [filter_similar_emails] and the threshold as arguments. *)
Definition remove_email_duplicates (filter_similar_emails : bool)
    (similarity_threshold : Q) (st : t) : t :=
  match emails_txt st with
  | None => st
  | Some text =>
      match read_emails text with
      | [] => st
      | emails =>
          let unique_emails :=
            if filter_similar_emails
            then Dedup.remove_email_duplicates similarity_threshold emails
            else without_repeats emails in
          {| parsed_emails := list_to_set unique_emails;
             email_domains := foldl count_domain ∅ unique_emails;
             emails_txt :=
               Some (File.written ((λ email, email ++ String File.NL "") <$> unique_emails));
             emails_detailed_txt := emails_detailed_txt st |}
      end
  end.
End Store.

(** ** The validator's token bucket: class [RateLimiter] *)

Module RateLimiter.
Import World.

Record t : Type := {
  max_requests : Q;
  time_window : Q;
  tokens : Q;
  last_refill : Q
}.

(** [__init__] *)
Definition init (max_requests time_window : Q) (w : World.t) : t :=
  {| max_requests := max_requests; time_window := time_window;
     tokens := max_requests; last_refill := time w |}.

(** The refill at the head of the loop of [acquire].  The division
    by a zero [time_window] is [Exception], raised before anything is
    assigned. *)
Definition refill (current_time : Q) (r : t) : result t :=
  let elapsed := (current_time - last_refill r)%Q in
  if Qltb 0 elapsed then
    if Qeq_bool (time_window r) 0 then Raise (Exception "division by zero")
    else
      let new_tokens := (elapsed * (max_requests r / time_window r))%Q in
      Return {| max_requests := max_requests r; time_window := time_window r;
                tokens := Py.min (max_requests r) (tokens r + new_tokens)%Q;
                last_refill := current_time |}
  else Return r.

(** [self.tokens -= 1] *)
Definition take (r : t) : t :=
  {| max_requests := max_requests r; time_window := time_window r;
     tokens := (tokens r - 1)%Q; last_refill := last_refill r |}.

(** The [while True] of [acquire]. *)
Fixpoint acquire_loop (o : oracle) (fuel : nat) (block : bool) (timeout : option Q)
    (start_time : Q) (r : t) (w : World.t) : option (result bool * t * World.t) :=
  match fuel with
  | O => None
  | S fuel' =>
      match refill (time w) r with
      | Raise e => Some (Raise e, r, w)
      | Return r =>
          if Qle_bool 1 (tokens r) then Some (Return true, take r, w)
          else if negb block then Some (Return false, r, w)
          else
            let timed_out :=
              match timeout with
              | Some t => Qltb t (time w - start_time)%Q
              | None => false
              end in
            if timed_out then Some (Return false, r, w)
            else acquire_loop o fuel' block timeout start_time r (sleep o (1 # 10) w)
      end
  end.

(** [acquire(block, timeout)] *)
Definition acquire (o : oracle) (fuel : nat) (block : bool) (timeout : option Q)
    (r : t) (w : World.t) : option (result bool * t * World.t) :=
  acquire_loop o fuel block timeout (time w) r w.
End RateLimiter.

(** ** The validator's client cache: class [CachedDiscovery] *)

Module CachedDiscovery.
Import World.
Local Open Scope string_scope.

(** What [build] returns: a client bound to the key it was built
    with. *)
Record service : Type := { developerKey : string }.

Record t : Type := { cache : Py.dict string service; max_size : Z }.

Definition init (max_size : Z) : t := {| cache := []; max_size := max_size |}.

Section hashed.
(** [hashlib.md5(s.encode()).hexdigest()] *)
Variable md5 : string → string.

(** [_make_cache_key(service_name, version, api_key)] *)
Definition _make_cache_key (service_name version api_key : string) : string :=
  let masked_key := Py.take 4 api_key ++ "..." ++ Py.last 4 api_key in
  let key_str := service_name ++ "_" ++ version ++ "_" ++ masked_key in
  md5 key_str.

(** [get(service_name, version, api_key)]; a full cache drops its
    oldest entry, [next(iter(self.cache))]. *)
Definition get (o : oracle) (service_name version api_key : string) (c : t)
    (w : World.t) : result service * t * World.t :=
  let cache_key := _make_cache_key service_name version api_key in
  match Py.get cache_key (cache c) with
  | Some service => (Return service, c, w)
  | None =>
      let '(r, w) := call_build o api_key w in
      match r with
      | Failed e => (Raise e, c, w)
      | Built =>
          let service := {| developerKey := api_key |} in
          let d := if bool_decide (max_size c ≤ Z.of_nat (length (cache c)))%Z
                   then tail (cache c) else cache c in
          (Return service,
           {| cache := Py.set cache_key service d; max_size := max_size c |}, w)
      end
  end.
End hashed.

(** [clear()] *)
Definition clear (c : t) : t := {| cache := []; max_size := max_size c |}.
End CachedDiscovery.

(** ** The validator's quota database *)

Module Ledger.
Import World.
Local Open Scope string_scope.

(** An entry of a key's ["history"]; the last three keys are
    optional, and [timestamp] is [None] when it is missing or is not
    an ISO date. *)
Record entry : Type := {
  timestamp : option Q;
  entry_status : string;
  units_used : Z;
  entry_error_code : option Z;
  entry_error_reason : option string;
  entry_response_time : option Q
}.

(** The keys that [quota_info] dictionaries carry and that
    [dict.update] copies into a key's record (["error_message"] and
    ["test_channel_subscribers"], which nothing below reads, are left
    out); [None] is an absent key. *)
Record fields : Type := {
  status : option string;
  last_checked : option Q;
  response_time : option Q;
  info_units_used : option Z;
  estimated_daily_limit : option Z;
  estimated_remaining : option Z;
  error_code : option Z;
  error_reason : option string;
  error_subtype : option string
}.

Definition no_fields : fields :=
  {| status := None; last_checked := None; response_time := None;
     info_units_used := None; estimated_daily_limit := None;
     estimated_remaining := None; error_code := None; error_reason := None;
     error_subtype := None |}.

(** [old.update(new)] on one key *)
Definition over {A} (old new : option A) : option A :=
  match new with Some x => Some x | None => old end.

(** [old.update(new)] *)
Definition update (old new : fields) : fields :=
  {| status := over (status old) (status new);
     last_checked := over (last_checked old) (last_checked new);
     response_time := over (response_time old) (response_time new);
     info_units_used := over (info_units_used old) (info_units_used new);
     estimated_daily_limit := over (estimated_daily_limit old) (estimated_daily_limit new);
     estimated_remaining := over (estimated_remaining old) (estimated_remaining new);
     error_code := over (error_code old) (error_code new);
     error_reason := over (error_reason old) (error_reason new);
     error_subtype := over (error_subtype old) (error_subtype new) |}.

(** [quota_database[api_key]]: the copied keys, ["history"] (absent
    reads as empty), ["usage_count"] (absent reads as 0) and
    ["first_used"]. *)
Record info : Type := {
  top : fields;
  history : list entry;
  usage_count : Z;
  first_used : option Q
}.

(** [self.quota_database] *)
Definition t : Type := Py.dict string info.

(** [get_quota_info(api_key)] *)
Definition get_quota_info (api_key : string) (db : t) : option info :=
  Py.get api_key db.

(** [update_quota_info(api_key, quota_info)] *)
Definition update_quota_info (api_key : string) (quota_info : fields)
    (w : World.t) (db : t) : t :=
  let info0 :=
    default {| top := no_fields; history := []; usage_count := 0;
               first_used := Some (time w) |}
            (Py.get api_key db) in
  let history_entry :=
    {| timestamp := Some (time w);
       entry_status := default "unknown" (status quota_info);
       units_used := default 0%Z (info_units_used quota_info);
       entry_error_code := error_code quota_info;
       entry_error_reason := Py.take 100 <$> error_reason quota_info;
       entry_response_time := None |} in
  let history := (history info0 ++ [history_entry])%list in
  let history :=
    if bool_decide (Validator.max_history_entries < length history)%nat
    then Validator.last_n Validator.max_history_entries history else history in
  Py.set api_key
    {| top := update (top info0) quota_info; history := history;
       usage_count := (usage_count info0 + 1)%Z; first_used := first_used info0 |}
    db.

(** What [get_used_quota] reads of an entry. *)
Definition plain (e : entry) : Validator.entry :=
  {| Validator.timestamp := timestamp e; Validator.status := entry_status e;
     Validator.units_used := units_used e |}.

(** [get_used_quota(api_key)] *)
Definition get_used_quota (api_key : string) (w : World.t) (db : t) : Z :=
  match Py.get api_key db with
  | None => 0%Z
  | Some info =>
      foldl (λ today_usage e, Validator.add_if_today (today w) today_usage (plain e))
            0%Z (history info)
  end.

(** [get_estimated_remaining_quota(api_key)] *)
Definition get_estimated_remaining_quota (api_key : string) (w : World.t) (db : t) : Z :=
  match Py.get api_key db with
  | None => Validator.YT_API_QUOTA_LIMIT
  | Some quota_info =>
      match estimated_remaining (top quota_info) with
      | Some r => r
      | None =>
          let used_quota := get_used_quota api_key w db in
          let daily_limit :=
            default Validator.YT_API_QUOTA_LIMIT (estimated_daily_limit (top quota_info)) in
          Z.max 0 (daily_limit - used_quota)
      end
  end.

(** [get_daily_quota_usage()]: units per date. *)
Definition add_entry (daily_usage : gmap Z Z) (e : entry) : gmap Z Z :=
  match timestamp e with
  | Some ts =>
      <[date_of ts := (default 0 (daily_usage !! date_of ts) + units_used e)%Z]> daily_usage
  | None => daily_usage
  end.
Definition get_daily_quota_usage (db : t) : gmap Z Z :=
  foldl (λ daily_usage x, foldl add_entry daily_usage (history x.2)) ∅ db.

(** A candidate of [get_optimal_key]. *)
Record candidate : Type := {
  key : string;
  cand_remaining : Z;
  avg_response_time : Q;
  cand_usage_count : Z
}.

(** [sum(xs) / len(xs) if xs else 1.0] *)
Definition average_or_one (xs : list Q) : Q :=
  match xs with
  | [] => 1%Q
  | _ => (foldl Qplus 0 xs / inject_Z (Z.of_nat (length xs)))%Q
  end.

(** The first loop of [get_optimal_key]. *)
Definition valid_candidate (w : World.t) (db : t) (x : string * info)
    : option candidate :=
  if bool_decide (status (top x.2) = Some "valid") then
    let r := get_estimated_remaining_quota x.1 w db in
    if bool_decide (r < 100)%Z then None
    else
      Some {| key := x.1; cand_remaining := r;
              avg_response_time := average_or_one (omap entry_response_time (history x.2));
              cand_usage_count := usage_count x.2 |}
  else None.

(** The second loop: keys over quota that were last checked before
    today. *)
Definition reset_candidate (w : World.t) (x : string * info) : option candidate :=
  if bool_decide (status (top x.2) = Some "quota_exceeded") then
    match last_checked (top x.2) with
    | Some ts =>
        if bool_decide (date_of ts < today w)%Z then
          Some {| key := x.1; cand_remaining := Validator.YT_API_QUOTA_LIMIT;
                  avg_response_time := 1%Q; cand_usage_count := usage_count x.2 |}
        else None
    | None => None
    end
  else None.

(** The sort key [(-estimated_remaining, avg_response_time,
    usage_count)], compared as tuples. *)
Definition cand_le (a b : candidate) : bool :=
  bool_decide (cand_remaining b < cand_remaining a)%Z
  || (bool_decide (cand_remaining a = cand_remaining b)
      && (Qltb (avg_response_time a) (avg_response_time b)
          || (Qeq_bool (avg_response_time a) (avg_response_time b)
              && bool_decide (cand_usage_count a ≤ cand_usage_count b)%Z))).

(** [sorted(l, key=...)]: ascending, equal keys in their original
    order. *)
Fixpoint insert_sorted (x : candidate) (l : list candidate) : list candidate :=
  match l with
  | [] => [x]
  | y :: l' => if cand_le x y then x :: y :: l' else y :: insert_sorted x l'
  end.
Definition sorted (l : list candidate) : list candidate := foldr insert_sorted [] l.

(** [get_optimal_key()] *)
Definition get_optimal_key (w : World.t) (db : t) : option string :=
  let valid_keys := omap (valid_candidate w db) db in
  let valid_keys :=
    match valid_keys with
    | [] => omap (reset_candidate w) db
    | _ => valid_keys
    end in
  key <$> head (sorted valid_keys).
End Ledger.

(** ** The validator's analytics *)

Module Analytics.
Import World.
Local Open Scope string_scope.

Record counters : Type := {
  total_units : Z;
  valid_requests : Z;
  quota_exceeded : Z;
  invalid_keys : Z;
  errors : Z
}.

Definition zero : counters :=
  {| total_units := 0; valid_requests := 0; quota_exceeded := 0;
     invalid_keys := 0; errors := 0 |}.

Record quota_entry : Type := {
  timestamp : Q;
  key_prefix : string;
  event_type : string;
  units_used : Z
}.

(** [self.analytics_data]: ["daily_usage"] by date, ["hourly_usage"]
    by date and hour (the hours since the epoch), ["quota_history"]. *)
Record t : Type := {
  daily_usage : gmap Z counters;
  hourly_usage : gmap Z counters;
  quota_history : list quota_entry
}.

Definition empty : t := {| daily_usage := ∅; hourly_usage := ∅; quota_history := [] |}.

Definition hour_of (t : Q) : Z := Qfloor (t / 3600).

(** The counter updates of one event. *)
Definition bump (event_type : string) (units : Z) (c : counters) : counters :=
  let c := {| total_units := total_units c + units; valid_requests := valid_requests c;
              quota_exceeded := quota_exceeded c; invalid_keys := invalid_keys c;
              errors := errors c |} in
  if String.eqb event_type "valid_request" then
    {| total_units := total_units c; valid_requests := valid_requests c + 1;
       quota_exceeded := quota_exceeded c; invalid_keys := invalid_keys c;
       errors := errors c |}
  else if String.eqb event_type "quota_exceeded" then
    {| total_units := total_units c; valid_requests := valid_requests c;
       quota_exceeded := quota_exceeded c + 1; invalid_keys := invalid_keys c;
       errors := errors c |}
  else if Str.startswith event_type "invalid_key" then
    {| total_units := total_units c; valid_requests := valid_requests c;
       quota_exceeded := quota_exceeded c; invalid_keys := invalid_keys c + 1;
       errors := errors c |}
  else
    {| total_units := total_units c; valid_requests := valid_requests c;
       quota_exceeded := quota_exceeded c; invalid_keys := invalid_keys c;
       errors := errors c + 1 |}.

Definition max_quota_history : nat := 1000.

(** [update_analytics(api_key, event_type, units_used)] *)
Definition update_analytics (api_key event_type : string) (units : Z)
    (w : World.t) (a : t) : t :=
  let date := today w in
  let hour := hour_of (time w) in
  let quota_entry :=
    {| timestamp := time w;
       key_prefix := if bool_decide (10 < Str.len api_key)%nat
                     then Py.take 5 api_key ++ "..." ++ Py.last 5 api_key
                     else api_key;
       event_type := event_type; units_used := units |} in
  let history := (quota_history a ++ [quota_entry])%list in
  {| daily_usage :=
       <[date := bump event_type units (default zero (daily_usage a !! date))]>
         (daily_usage a);
     hourly_usage :=
       <[hour := bump event_type units (default zero (hourly_usage a !! hour))]>
         (hourly_usage a);
     quota_history :=
       if bool_decide (max_quota_history < length history)%nat
       then Validator.last_n max_quota_history history else history |}.
End Analytics.

(** ** The validator: class [YouTubeAPIValidator] with its parts *)

Module Checker.
Import World.
Local Open Scope string_scope.

(** The attributes the validation reads and writes; [api_file] and
    [output_file] are the contents of the two files, [None] for a
    file that does not exist; [paused] is the pause event cleared. *)
Record t : Type := {
  api_file : option string;
  output_file : option string;
  api_keys : list string;
  valid_keys : list string;
  invalid_keys : list string;
  quota_exceeded_keys : list string;
  total_keys : Z;
  processed_keys : Z;
  cancel_validation : bool;
  paused : bool;
  delay_between : Q;
  rate_limiter : RateLimiter.t;
  discovery_cache : CachedDiscovery.t;
  quota_database : Ledger.t;
  analytics_data : Analytics.t
}.

Definition set_api_file (v : option string) (s : t) : t :=
  {| api_file := v; output_file := output_file s; api_keys := api_keys s;
     valid_keys := valid_keys s; invalid_keys := invalid_keys s;
     quota_exceeded_keys := quota_exceeded_keys s; total_keys := total_keys s;
     processed_keys := processed_keys s; cancel_validation := cancel_validation s;
     paused := paused s; delay_between := delay_between s;
     rate_limiter := rate_limiter s; discovery_cache := discovery_cache s;
     quota_database := quota_database s; analytics_data := analytics_data s |}.
Definition set_output_file (v : option string) (s : t) : t :=
  {| api_file := api_file s; output_file := v; api_keys := api_keys s;
     valid_keys := valid_keys s; invalid_keys := invalid_keys s;
     quota_exceeded_keys := quota_exceeded_keys s; total_keys := total_keys s;
     processed_keys := processed_keys s; cancel_validation := cancel_validation s;
     paused := paused s; delay_between := delay_between s;
     rate_limiter := rate_limiter s; discovery_cache := discovery_cache s;
     quota_database := quota_database s; analytics_data := analytics_data s |}.
Definition set_api_keys (v : list string) (s : t) : t :=
  {| api_file := api_file s; output_file := output_file s; api_keys := v;
     valid_keys := valid_keys s; invalid_keys := invalid_keys s;
     quota_exceeded_keys := quota_exceeded_keys s; total_keys := total_keys s;
     processed_keys := processed_keys s; cancel_validation := cancel_validation s;
     paused := paused s; delay_between := delay_between s;
     rate_limiter := rate_limiter s; discovery_cache := discovery_cache s;
     quota_database := quota_database s; analytics_data := analytics_data s |}.
Definition set_valid_keys (v : list string) (s : t) : t :=
  {| api_file := api_file s; output_file := output_file s; api_keys := api_keys s;
     valid_keys := v; invalid_keys := invalid_keys s;
     quota_exceeded_keys := quota_exceeded_keys s; total_keys := total_keys s;
     processed_keys := processed_keys s; cancel_validation := cancel_validation s;
     paused := paused s; delay_between := delay_between s;
     rate_limiter := rate_limiter s; discovery_cache := discovery_cache s;
     quota_database := quota_database s; analytics_data := analytics_data s |}.
Definition set_invalid_keys (v : list string) (s : t) : t :=
  {| api_file := api_file s; output_file := output_file s; api_keys := api_keys s;
     valid_keys := valid_keys s; invalid_keys := v;
     quota_exceeded_keys := quota_exceeded_keys s; total_keys := total_keys s;
     processed_keys := processed_keys s; cancel_validation := cancel_validation s;
     paused := paused s; delay_between := delay_between s;
     rate_limiter := rate_limiter s; discovery_cache := discovery_cache s;
     quota_database := quota_database s; analytics_data := analytics_data s |}.
Definition set_quota_exceeded_keys (v : list string) (s : t) : t :=
  {| api_file := api_file s; output_file := output_file s; api_keys := api_keys s;
     valid_keys := valid_keys s; invalid_keys := invalid_keys s;
     quota_exceeded_keys := v; total_keys := total_keys s;
     processed_keys := processed_keys s; cancel_validation := cancel_validation s;
     paused := paused s; delay_between := delay_between s;
     rate_limiter := rate_limiter s; discovery_cache := discovery_cache s;
     quota_database := quota_database s; analytics_data := analytics_data s |}.
Definition set_total_keys (v : Z) (s : t) : t :=
  {| api_file := api_file s; output_file := output_file s; api_keys := api_keys s;
     valid_keys := valid_keys s; invalid_keys := invalid_keys s;
     quota_exceeded_keys := quota_exceeded_keys s; total_keys := v;
     processed_keys := processed_keys s; cancel_validation := cancel_validation s;
     paused := paused s; delay_between := delay_between s;
     rate_limiter := rate_limiter s; discovery_cache := discovery_cache s;
     quota_database := quota_database s; analytics_data := analytics_data s |}.
Definition set_processed_keys (v : Z) (s : t) : t :=
  {| api_file := api_file s; output_file := output_file s; api_keys := api_keys s;
     valid_keys := valid_keys s; invalid_keys := invalid_keys s;
     quota_exceeded_keys := quota_exceeded_keys s; total_keys := total_keys s;
     processed_keys := v; cancel_validation := cancel_validation s; paused := paused s;
     delay_between := delay_between s; rate_limiter := rate_limiter s;
     discovery_cache := discovery_cache s; quota_database := quota_database s;
     analytics_data := analytics_data s |}.
Definition set_cancel_validation (v : bool) (s : t) : t :=
  {| api_file := api_file s; output_file := output_file s; api_keys := api_keys s;
     valid_keys := valid_keys s; invalid_keys := invalid_keys s;
     quota_exceeded_keys := quota_exceeded_keys s; total_keys := total_keys s;
     processed_keys := processed_keys s; cancel_validation := v; paused := paused s;
     delay_between := delay_between s; rate_limiter := rate_limiter s;
     discovery_cache := discovery_cache s; quota_database := quota_database s;
     analytics_data := analytics_data s |}.
Definition set_paused (v : bool) (s : t) : t :=
  {| api_file := api_file s; output_file := output_file s; api_keys := api_keys s;
     valid_keys := valid_keys s; invalid_keys := invalid_keys s;
     quota_exceeded_keys := quota_exceeded_keys s; total_keys := total_keys s;
     processed_keys := processed_keys s; cancel_validation := cancel_validation s;
     paused := v; delay_between := delay_between s; rate_limiter := rate_limiter s;
     discovery_cache := discovery_cache s; quota_database := quota_database s;
     analytics_data := analytics_data s |}.
Definition set_delay_between (v : Q) (s : t) : t :=
  {| api_file := api_file s; output_file := output_file s; api_keys := api_keys s;
     valid_keys := valid_keys s; invalid_keys := invalid_keys s;
     quota_exceeded_keys := quota_exceeded_keys s; total_keys := total_keys s;
     processed_keys := processed_keys s; cancel_validation := cancel_validation s;
     paused := paused s; delay_between := v; rate_limiter := rate_limiter s;
     discovery_cache := discovery_cache s; quota_database := quota_database s;
     analytics_data := analytics_data s |}.
Definition set_rate_limiter (v : RateLimiter.t) (s : t) : t :=
  {| api_file := api_file s; output_file := output_file s; api_keys := api_keys s;
     valid_keys := valid_keys s; invalid_keys := invalid_keys s;
     quota_exceeded_keys := quota_exceeded_keys s; total_keys := total_keys s;
     processed_keys := processed_keys s; cancel_validation := cancel_validation s;
     paused := paused s; delay_between := delay_between s; rate_limiter := v;
     discovery_cache := discovery_cache s; quota_database := quota_database s;
     analytics_data := analytics_data s |}.
Definition set_discovery_cache (v : CachedDiscovery.t) (s : t) : t :=
  {| api_file := api_file s; output_file := output_file s; api_keys := api_keys s;
     valid_keys := valid_keys s; invalid_keys := invalid_keys s;
     quota_exceeded_keys := quota_exceeded_keys s; total_keys := total_keys s;
     processed_keys := processed_keys s; cancel_validation := cancel_validation s;
     paused := paused s; delay_between := delay_between s;
     rate_limiter := rate_limiter s; discovery_cache := v;
     quota_database := quota_database s; analytics_data := analytics_data s |}.
Definition set_quota_database (v : Ledger.t) (s : t) : t :=
  {| api_file := api_file s; output_file := output_file s; api_keys := api_keys s;
     valid_keys := valid_keys s; invalid_keys := invalid_keys s;
     quota_exceeded_keys := quota_exceeded_keys s; total_keys := total_keys s;
     processed_keys := processed_keys s; cancel_validation := cancel_validation s;
     paused := paused s; delay_between := delay_between s;
     rate_limiter := rate_limiter s; discovery_cache := discovery_cache s;
     quota_database := v; analytics_data := analytics_data s |}.
Definition set_analytics_data (v : Analytics.t) (s : t) : t :=
  {| api_file := api_file s; output_file := output_file s; api_keys := api_keys s;
     valid_keys := valid_keys s; invalid_keys := invalid_keys s;
     quota_exceeded_keys := quota_exceeded_keys s; total_keys := total_keys s;
     processed_keys := processed_keys s; cancel_validation := cancel_validation s;
     paused := paused s; delay_between := delay_between s;
     rate_limiter := rate_limiter s; discovery_cache := discovery_cache s;
     quota_database := quota_database s; analytics_data := v |}.

(** [__init__], with the files as they are found and the worker
    count left out. *)
Definition init (api_file output_file : option string) (delay_between : Q)
    (quota_database : Ledger.t) (analytics_data : Analytics.t) (w : World.t) : t :=
  {| api_file := api_file; output_file := output_file; api_keys := [];
     valid_keys := []; invalid_keys := []; quota_exceeded_keys := [];
     total_keys := 0; processed_keys := 0; cancel_validation := false;
     paused := false; delay_between := delay_between;
     rate_limiter := RateLimiter.init 5 1 w;
     discovery_cache := CachedDiscovery.init 10;
     quota_database := quota_database; analytics_data := analytics_data |}.

(** [stop_validation], [pause_validation], [resume_validation] *)
Definition stop_validation (s : t) : t := set_cancel_validation true s.
Definition pause_validation (s : t) : t := set_paused true s.
Definition resume_validation (s : t) : t := set_paused false s.

(** [load_api_keys()]: the stripped lines of [api_file] that are
    neither empty nor comments and have at least 30 characters. *)
Definition key_lines (text : string) : list string :=
  List.filter (λ line, negb (String.eqb line "") && negb (Str.startswith line "#")
                       && bool_decide (30 ≤ Str.len line)%nat)
              (Str.strip <$> File.lines text).
Definition load_api_keys (s : t) : bool * t :=
  match api_file s with
  | None =>
      (false,
       set_api_file
         (Some "# Введите ваши YouTube API ключи здесь, по одному на строку
") s)
  | Some text =>
      let s := set_api_keys (key_lines text) s in
      if bool_decide (api_keys s = []) then (false, s)
      else (true, set_total_keys (Z.of_nat (length (api_keys s))) s)
  end.

(** [str(e)] *)
Definition exn_str (e : exn) : string :=
  match e with
  | KeyError => ""
  | ValueError msg => msg
  | AttributeError msg => msg
  | HttpError _ reason => reason
  | Exception msg => msg
  end.

(** The classification of a 400 or 403 answer. *)
Definition error_subtype_of (error_reason : string) : string :=
  if Str.contains "accessNotConfigured" error_reason then "access_not_configured"
  else if Str.contains "invalid API key" (Str.lower error_reason) then "invalid_key"
  else if Str.contains "API key not valid" error_reason
          || Str.contains "API key expired" error_reason then "key_expired"
  else if Str.contains "keyInvalid" error_reason then "key_invalid"
  else if Str.contains "permission" (Str.lower error_reason)
          || Str.contains "forbidden" (Str.lower error_reason) then "permission_denied"
  else "authorization_error".

(** [self.update_quota_info(...)] followed by
    [self.update_analytics(...)] *)
Definition record (api_key : string) (quota_info : Ledger.fields)
    (event_type : string) (units : Z) (w : World.t) (s : t) : t :=
  let s := set_quota_database
             (Ledger.update_quota_info api_key quota_info w (quota_database s)) s in
  set_analytics_data
    (Analytics.update_analytics api_key event_type units w (analytics_data s)) s.

(** What a validation gives back: [(is_valid, error_type,
    quota_info)]. *)
Definition verdict : Type := bool * string * Ledger.fields.

(** The dictionary of an error answer. *)
Definition error_info (w : World.t) (status : string) (error_code : option Z)
    (error_reason error_subtype : option string) (estimated_remaining : option Z)
    : Ledger.fields :=
  {| Ledger.status := Some status; Ledger.last_checked := Some (time w);
     Ledger.response_time := None; Ledger.info_units_used := None;
     Ledger.estimated_daily_limit := None;
     Ledger.estimated_remaining := estimated_remaining;
     Ledger.error_code := error_code; Ledger.error_reason := error_reason;
     Ledger.error_subtype := error_subtype |}.

Section run.
Variable md5 : string → string.
Variable o : oracle.

(** What [validate_api_key] does with an exception of the [try]
    block: the verdict, or [None] for "sleep two seconds and start
    again". *)
Definition on_exception (api_key : string) (e : exn) (w : World.t) (s : t)
    : option verdict * t :=
  match e with
  | HttpError error_code error_reason =>
      if Str.contains "quota" (Str.lower error_reason) then
        let quota_info := error_info w "quota_exceeded" (Some error_code)
                            (Some error_reason) None (Some 0%Z) in
        (Some (false, "quota_exceeded", quota_info),
         record api_key quota_info "quota_exceeded" 0 w s)
      else if bool_decide (error_code = 400) || bool_decide (error_code = 403) then
        let error_subtype := error_subtype_of error_reason in
        let quota_info := error_info w "invalid" (Some error_code)
                            (Some error_reason) (Some error_subtype) None in
        (Some (false, "invalid", quota_info),
         record api_key quota_info ("invalid_key_" ++ error_subtype) 0 w s)
      else if bool_decide (error_code = 429) then
        let quota_info := error_info w "rate_limited" (Some error_code)
                            (Some error_reason) None None in
        (None, record api_key quota_info "rate_limited" 0 w s)
      else if bool_decide (500 ≤ error_code)%Z then
        let quota_info := error_info w "server_error" (Some error_code)
                            (Some error_reason) None None in
        (None, record api_key quota_info "server_error" 0 w s)
      else
        let quota_info := error_info w "error" (Some error_code)
                            (Some error_reason) None None in
        (Some (false, "error", quota_info),
         record api_key quota_info "other_error" 0 w s)
  | _ =>
      let quota_info := error_info w "error" None None None None in
      (Some (false, "error", quota_info),
       record api_key quota_info "unexpected_error" 0 w s)
  end.

(** [validate_api_key(api_key)].  Each call of the remote service,
    [build] on a cache miss and [request.execute()], takes the next
    answer of the service for the key the client is bound to.  An
    exception of [acquire] is outside the [try] and leaves the
    function; a paused validator waits for ever. *)
Fixpoint validate_api_key (fuel : nat) (api_key : string) (s : t) (w : World.t)
    : option (result verdict * t * World.t) :=
  match fuel with
  | O => None
  | S fuel' =>
      if cancel_validation s then
        Some (Return (false, "canceled",
                      {| Ledger.status := Some "canceled"; Ledger.last_checked := None;
                         Ledger.response_time := None; Ledger.info_units_used := None;
                         Ledger.estimated_daily_limit := None;
                         Ledger.estimated_remaining := None; Ledger.error_code := None;
                         Ledger.error_reason := None; Ledger.error_subtype := None |}),
              s, w)
      else if paused s then None
      else
        match RateLimiter.acquire o fuel' true None (rate_limiter s) w with
        | None => None
        | Some (Raise e, rl, w) => Some (Raise e, set_rate_limiter rl s, w)
        | Some (Return _, rl, w) =>
            let s := set_rate_limiter rl s in
            let '(got, dc, w) :=
              CachedDiscovery.get md5 o "youtube" "v3" api_key (discovery_cache s) w in
            let s := set_discovery_cache dc s in
            let answer :=
              match got with
              | Raise e => (Failed e, w, 0%Q)
              | Return service =>
                  let start_time := time w in
                  let '(r, w) := call_build o (CachedDiscovery.developerKey service) w in
                  (r, w, (time w - start_time)%Q)
              end in
            let '(r, w, response_time) := answer in
            match r with
            | Built =>
                let quota_info :=
                  {| Ledger.status := Some "valid";
                     Ledger.last_checked := Some (time w);
                     Ledger.response_time := Some response_time;
                     Ledger.info_units_used := Some Validator.YT_API_MIN_UNITS_TEST;
                     Ledger.estimated_daily_limit := Some Validator.YT_API_QUOTA_LIMIT;
                     Ledger.estimated_remaining :=
                       Some (Validator.YT_API_QUOTA_LIMIT
                             - Ledger.get_used_quota api_key w (quota_database s)
                             - Validator.YT_API_MIN_UNITS_TEST)%Z;
                     Ledger.error_code := None; Ledger.error_reason := None;
                     Ledger.error_subtype := None |} in
                Some (Return (true, "valid", quota_info),
                      record api_key quota_info "valid_request"
                        Validator.YT_API_MIN_UNITS_TEST w s, w)
            | Failed e =>
                match on_exception api_key e w s with
                | (Some v, s) => Some (Return v, s, w)
                | (None, s) => validate_api_key fuel' api_key s (sleep o 2 w)
                end
            end
        end
  end.

(** Where the sequential loop of [validate_all_keys] puts a key. *)
Definition file_key (api_key : string) (v : verdict) (s : t) : t :=
  let '(is_valid, error_type, _) := v in
  if is_valid then set_valid_keys (valid_keys s ++ [api_key])%list s
  else if String.eqb error_type "quota_exceeded"
  then set_quota_exceeded_keys (quota_exceeded_keys s ++ [api_key])%list s
  else set_invalid_keys (invalid_keys s ++ [api_key])%list s.

(** [for i, api_key in enumerate(self.api_keys)], from index [i]
    on; [false] is an exception caught by the loop's [except]. *)
Fixpoint validate_from (fuel : nat) (i : nat) (keys : list string) (s : t)
    (w : World.t) : option (bool * t * World.t) :=
  match keys with
  | [] => Some (true, s, w)
  | api_key :: keys' =>
      if cancel_validation s then Some (true, s, w)
      else
        match validate_api_key fuel api_key s w with
        | None => None
        | Some (Raise _, s, w) => Some (false, s, w)
        | Some (Return v, s, w) =>
            let s := file_key api_key v s in
            let s := set_processed_keys (Z.of_nat i + 1)%Z s in
            let w := if bool_decide (Z.of_nat i < Z.of_nat (length (api_keys s)) - 1)%Z
                        && negb (cancel_validation s)
                     then sleep o (delay_between s) w else w in
            validate_from fuel (S i) keys' s w
        end
  end.

Section printing.
(** [strftime('%Y-%m-%d %H:%M:%S')] of a clock reading, and
    [str] of an integer. *)
Variable strftime : Q → string.
Variable str : Z → string.

(** The body of [save_valid_keys]: what [output_file] holds
    afterwards.  The files of [_save_categorized_keys] are not
    modelled. *)
Definition key_line (s : t) (w : World.t) (key : string) : string :=
  key ++ "  # Осталось ~"
      ++ str (Ledger.get_estimated_remaining_quota key w (quota_database s))
      ++ " единиц квоты
".
Definition save_valid_keys (s : t) (w : World.t) : t :=
  let head :=
    ["# Валидные YouTube API ключи
";
     "# Проверены: " ++ strftime (time w) ++ "
"] in
  let body :=
    match valid_keys s with
    | [] => ["# Валидные ключи не найдены
"]
    | _ =>
        let sorted_keys :=
          Py.sorted_desc
            (λ k, Ledger.get_estimated_remaining_quota k w (quota_database s))
            (valid_keys s) in
        key_line s w <$> sorted_keys
    end in
  set_output_file (Some (File.written (head ++ body)%list)) s.

(** [validate_all_keys(use_parallel=False)], and with one key
    whatever [use_parallel] is: the returned flag and the state.
    The quota database, the analytics and the statistics files
    written at the end are not modelled. *)
Definition validate_all_keys (fuel : nat) (s : t) (w : World.t)
    : option (bool * t * World.t) :=
  match load_api_keys s with
  | (false, s) => Some (false, s, w)
  | (true, s) =>
      let s := set_valid_keys [] s in
      let s := set_invalid_keys [] s in
      let s := set_quota_exceeded_keys [] s in
      match validate_from fuel 0 (api_keys s) s w with
      | None => None
      | Some (ok, s, w) =>
          let result := ok && negb (bool_decide (valid_keys s = [])) in
          let s := match valid_keys s with
                   | [] => s
                   | _ => save_valid_keys s w
                   end in
          Some (result, s, w)
      end
  end.
End printing.
End run.
End Checker.

(** ** Contacts of a channel: [_filter_similar_emails] as the class
    runs it *)

Module Contacts.
Local Open Scope string_scope.

(** What reading [self.common_domains] raises: the attribute is read
    by [_filter_similar_emails] and assigned nowhere in
    [YouTubeChannelScraper]. *)
Definition no_common_domains : exn :=
  AttributeError "'YouTubeChannelScraper' object has no attribute 'common_domains'".

Section pass.
Variable similarity_threshold : Q.

(** One iteration of [for email in emails]: [unique_emails] and
    [used_emails] afterwards.  The key of [min] reads
    [self.common_domains], so a group of two or more raises. *)
Definition filter_step (emails : list string)
    (st : result (list string * gset string)) (email : string)
    : result (list string * gset string) :=
  match st with
  | Raise e => Raise e
  | Return (unique_emails, used_emails) =>
      if bool_decide (email ∈ used_emails) then st
      else
        let '(pulled, used_emails) :=
          foldl (Dedup.pull_step similarity_threshold email)
                ([], {[email]} ∪ used_emails) emails in
        match pulled with
        | [] => Return ((unique_emails ++ [email])%list, used_emails)
        | _ => Raise no_common_domains
        end
  end.

(** [_filter_similar_emails(emails)] *)
Definition _filter_similar_emails (emails : list string) : result (list string) :=
  if bool_decide (length emails ≤ 1)%nat then Return emails
  else
    match foldl (filter_step emails) (Return ([], ∅)) emails with
    | Raise e => Raise e
    | Return (unique_emails, _) => Return unique_emails
    end.

(** The end of [parse_channel_contacts], from the addresses found
    on: the filter, and [_save_emails] in the modes that save
    addresses.  An exception is caught and logged.  The links to
    social media, saved after the addresses, are left out. *)
Definition save_found (filter_similar_emails : bool) (parse_mode : string)
    (emails : list string) (channel_title channel_id : string) (st : Store.t)
    : Store.t :=
  let filtered :=
    if negb (bool_decide (emails = [])) && filter_similar_emails
    then _filter_similar_emails emails else Return emails in
  match filtered with
  | Raise _ => st
  | Return emails =>
      if bool_decide (parse_mode ∈ ["email"; "both"]) && negb (bool_decide (emails = []))
      then Store._save_emails emails channel_title channel_id st
      else st
  end.
End pass.
End Contacts.


(** * Vocabulary of the properties

    The predicates and measures in which the properties below are
    stated.  Nothing here belongs to the program. *)

(** ** Bounded cache *)

(** The representation invariant: the capacity is [C], no key is
    stored twice, and the size is within the capacity. *)
Definition lru_inv {K V : Type} (C : Z) (c : LRUCache.t K V) : Prop :=
  LRUCache.max_size c = C ∧ NoDup (LRUCache.keys c) ∧ LRUCache.len c ≤ C.

(** ** Quota ledger *)

(** Whether a ledger entry is stamped with the date [day]. *)
Definition stamped_on (day : Z) (e : Validator.entry) : Prop :=
  ∃ ts, Validator.timestamp e = Some ts ∧ World.date_of ts = day.

Global Instance stamped_on_dec day e : Decision (stamped_on day e).
Proof.
  unfold stamped_on. destruct (Validator.timestamp e) as [ts|].
  - destruct (decide (World.date_of ts = day)) as [Hd|Hd].
    + left. eauto.
    + right. intros (? & [= <-] & ?). done.
  - right. by intros (? & ? & ?).
Defined.

(** The units of the entries stamped with [day], added up. *)
Definition units_on (day : Z) (h : list Validator.entry) : Z :=
  foldr Z.add 0 (Validator.units_used <$> filter (stamped_on day) h).

(** ** Credential selection *)

(** The order the selector minimises: recorded errors, then the share
    of the daily quota used, then the usage count. *)
Definition score_lt (s : Scraper.t) (k k' : string) : Prop :=
  Scraper.getZ (Scraper.api_errors s) k < Scraper.getZ (Scraper.api_errors s) k' ∨
  (Scraper.getZ (Scraper.api_errors s) k = Scraper.getZ (Scraper.api_errors s) k' ∧
   (Scraper.quota_ratio s k < Scraper.quota_ratio s k')%Q) ∨
  (Scraper.getZ (Scraper.api_errors s) k = Scraper.getZ (Scraper.api_errors s) k' ∧
   (Scraper.quota_ratio s k == Scraper.quota_ratio s k')%Q ∧
   Scraper.getZ (Scraper.api_usage_count s) k < Scraper.getZ (Scraper.api_usage_count s) k').

Definition score_eq (s : Scraper.t) (k k' : string) : Prop :=
  Scraper.getZ (Scraper.api_errors s) k = Scraper.getZ (Scraper.api_errors s) k' ∧
  (Scraper.quota_ratio s k == Scraper.quota_ratio s k')%Q ∧
  Scraper.getZ (Scraper.api_usage_count s) k = Scraper.getZ (Scraper.api_usage_count s) k'.

Definition score_le (s : Scraper.t) (k k' : string) : Prop :=
  score_lt s k k' ∨ score_eq s k k'.

(** The loop variables hold the score of the key they name. *)
Definition best_of (s : Scraper.t) (b : Scraper.best) (k : string) : Prop :=
  Scraper.best_key b = Some k ∧
  Scraper.min_errors b = Scraper.Fin (Scraper.getZ (Scraper.api_errors s) k) ∧
  Scraper.min_quota_ratio b = Scraper.Fin (Scraper.quota_ratio s k) ∧
  Scraper.min_usage b = Scraper.Fin (Scraper.getZ (Scraper.api_usage_count s) k).

(** The state a successful selection of [k] at time [t] leaves. *)
Definition mark_used (k : string) (t : Q) (s : Scraper.t) : Scraper.t :=
  Scraper.set_api_last_used (<[k := t]> (Scraper.api_last_used s))
    (Scraper.set_api_usage_count
       (<[k := Scraper.getZ (Scraper.api_usage_count s) k + 1]> (Scraper.api_usage_count s)) s).

(** How long key [k] still has to wait at time [t]. *)
Definition remaining_wait (s : Scraper.t) (t : Q) (k : string) : Q :=
  (Scraper.getQ (Scraper.api_last_used s) k + Scraper.min_api_cooldown s - t)%Q.

(** ** Resilient client *)

(** The fatal error of an exhausted pool. *)
Definition exhausted (r : result string) : Prop := ∃ msg, r = Raise (ValueError msg).

(** [w2] continues the log of [w] with [evs]. *)
Definition extends (w w2 : World.t) (evs : list World.event) : Prop :=
  World.log w2 = World.log w ++ evs.

Definition is_sleep (ev : World.event) : Prop := ∃ d, ev = World.EvSleep d.

(** No more than [max_retries] remote calls between two selections:
    [cur] counts the [EvBuild] events since the last [EvSelect]. *)
Fixpoint attempts_capped (cur : nat) (evs : list World.event) : bool :=
  match evs with
  | [] => true
  | World.EvSelect _ _ :: evs' => attempts_capped 0 evs'
  | World.EvBuild _ :: evs' =>
      bool_decide (Z.of_nat (S cur) ≤ Scraper.max_retries) && attempts_capped (S cur) evs'
  | _ :: evs' => attempts_capped cur evs'
  end.

(** What a completed call promises: the pool only shrinks, an empty
    pool at the end means the exhaustion error was raised, only keys
    of the pool are tried, and no selected key is tried more than
    [max_retries] times ([cur] tries being already made). *)
Definition run_ok (cur : nat) (s : Scraper.t) (res : option (Scraper.outcome string))
    (w : World.t) : Prop :=
  ∀ r s2 w2, res = Some (r, s2, w2) →
    Scraper.api_keys s2 `sublist_of` Scraper.api_keys s ∧
    (Scraper.api_keys s2 = [] → exhausted r) ∧
    ∃ evs, extends w w2 evs ∧ (∀ k, World.EvBuild k ∈ evs → k ∈ Scraper.api_keys s) ∧
           attempts_capped cur evs = true.

(** The test of the first [except] branch: no "quota" in the reason. *)
Definition not_quota (reason : string) : Prop :=
  Str.contains "quota" (Str.lower reason) = false.

(** The outcomes [create_youtube_service] answers by dropping the key
    as unusable: a bad request, or an API that is not enabled. *)
Definition dropped_as_invalid (code : Z) (reason : string) : Prop :=
  code = 400 ∨ (code = 403 ∧ Str.contains "accessNotConfigured" reason = true).

(** The outcomes it answers by backing off and trying the same key:
    other 403 answers and server errors. *)
Definition backed_off (code : Z) (reason : string) : Prop :=
  (code = 403 ∧ Str.contains "accessNotConfigured" reason = false) ∨ 500 ≤ code.

(** The validator's own test for "invalid": a 400 or a 403 whose
    reason does not mention the quota. *)
Definition classified_invalid (code : Z) (reason : string) : Prop :=
  not_quota reason ∧ (code = 400 ∨ code = 403).

(** [api_errors[key] += 1] *)
Definition bump_errors (key : string) (s : Scraper.t) : Scraper.t :=
  Scraper.set_api_errors
    (<[key := Scraper.getZ (Scraper.api_errors s) key + 1]> (Scraper.api_errors s)) s.

(** The world after a failed [build] with [key] and the backoff sleep
    that follows it, [rc] being the incremented retry count. *)
Definition after_backoff (o : World.oracle) (key : string) (rc : Z) (w : World.t)
    : World.t :=
  World.sleep o (Scraper.backoff_delay o rc (World.call_build o key w).2).1
                (Scraper.backoff_delay o rc (World.call_build o key w).2).2.

(** The delay computed from the [n]-th random draw. *)
Definition delay_at (o : World.oracle) (n : nat) (rc : Z) : Q :=
  (Scraper.base_delay * inject_Z (2 ^ rc) + (0 + (1 - 0) * World.random_random o n))%Q.

(** The number of remote calls in a log. *)
Fixpoint count_builds (evs : list World.event) : nat :=
  match evs with
  | [] => 0
  | World.EvBuild _ :: evs' => S (count_builds evs')
  | _ :: evs' => count_builds evs'
  end.

(** A pool as [load_api_keys] leaves it: the keys, all counters at
    zero, the default cooldown of two seconds. *)
Definition fresh_pool (keys : list string) : Scraper.t :=
  {| Scraper.api_keys := keys;
     Scraper.api_usage_count := list_to_map ((λ key, (key, 0)) <$> keys);
     Scraper.api_last_used := ∅; Scraper.api_errors := ∅;
     Scraper.daily_quota_usage := list_to_map ((λ key, (key, 0)) <$> keys);
     Scraper.last_quota_reset_day := 0; Scraper.min_api_cooldown := 2 |}.

(** A remote service that answers the calls numbered below [n] with
    the error [e] and the later ones with success; sleeps end on time
    and every random draw is one half. *)
Definition failing_first (n : nat) (e : exn) : World.oracle :=
  {| World.sleep_lag := λ _, 0%Q; World.random_random := λ _, (1 # 2)%Q;
     World.random_index := λ _, 0%nat;
     World.build := λ i _, if (i <? n)%nat then World.Failed e else World.Built |}.

(** C3 as it is written, for one call: whenever the first answer to the
    selected key is one the validator classifies as invalid, the key is
    out of the pool afterwards and was tried exactly once. *)
Definition invalid_removed_without_retry (o : World.oracle) (fuel : nat)
    (s : Scraper.t) (w : World.t) : Prop :=
  ∀ k s1 w1 code reason r s2 w2,
    Scraper.get_next_api_key o fuel s w = Some (Return k, s1, w1) →
    World.build o (World.n_build w1) k = World.Failed (HttpError code reason) →
    classified_invalid code reason →
    Scraper.create_youtube_service o fuel s w = Some (r, s2, w2) →
    (k ∉ Scraper.api_keys s2) ∧ count_builds (World.log w2) = 1%nat.

(** C4 as it is written, for one call: at most three retries, that is
    at most four remote calls. *)
Definition retries_capped (o : World.oracle) (fuel : nat)
    (s : Scraper.t) (w : World.t) : Prop :=
  ∀ r s2 w2,
    Scraper.create_youtube_service o fuel s w = Some (r, s2, w2) →
    (count_builds (World.log w2) ≤ 1 + 3)%nat.

(** ** Edit distance and similarity *)

(** The cost of putting [y] where [x] was. *)
Definition subst_cost (x y : ascii) : nat := if decide (x = y) then 0%nat else 1%nat.

(** The row of the table for the prefix [p] of the first string:
    the distances from [p] to [q], to [q] and one more character of
    [rest], and so on. *)
Fixpoint row_from (p q rest : list ascii) : list nat :=
  Dedup.levenshtein p q ::
    match rest with
    | [] => []
    | c :: r => row_from p (q ++ [c]) r
    end.

(** The score the specification gives to two local parts:
    [1 - levenshtein(a, b) / max(len(a), len(b))]. *)
Definition edit_ratio (u1 u2 : string) : Q :=
  (1 - inject_Z (Z.of_nat (Dedup.levenshtein (list_ascii_of_string u1)
                                             (list_ascii_of_string u2)))
       / inject_Z (Z.of_nat (Nat.max (Str.len u1) (Str.len u2))))%Q.

(** ** Grouping *)

(** The addresses of a group, and of a list of groups. *)
Definition members (g : Dedup.group) : list string := g.1 :: g.2.
Definition all_members (gs : list Dedup.group) : list string := concat (members <$> gs).

(** The bookkeeping of the outer loop: the groups are disjoint, made of
    addresses of the input, and [processed] is what they hold. *)
Definition groups_ok (emails : list string) (gs : list Dedup.group)
    (processed : gset string) : Prop :=
  NoDup (all_members gs) ∧
  (∀ x, x ∈ all_members gs ↔ x ∈ processed) ∧
  (∀ x, x ∈ all_members gs → x ∈ emails).

(** C9 as it is written: a second pass over the output of the first
    keeps the same set of representatives. *)
Definition dedup_idempotent (thr : Q) (emails : list string) : Prop :=
  ∀ e, e ∈ Dedup.remove_email_duplicates thr (Dedup.remove_email_duplicates thr emails)
       ↔ e ∈ Dedup.remove_email_duplicates thr emails.

(** What holds of a deduplication pass [pass] instead of idempotence:
    its output has no address twice and only addresses of its input, a
    second pass adds nothing to it, and the second pass returns it
    unchanged when no two different addresses in it are similar. *)
Definition settles (pass : list string → list string) (thr : Q)
    (emails : list string) : Prop :=
  NoDup (pass emails) ∧
  (∀ e, e ∈ pass emails → e ∈ emails) ∧
  (∀ e, e ∈ pass (pass emails) → e ∈ pass emails) ∧
  ((∀ x y, x ∈ pass emails → y ∈ pass emails → x ≠ y → Dedup.similar thr x y = false) →
   pass (pass emails) = pass emails).

(** ** Concrete pools and services *)

(** Two keys, both used less than a cooldown ago at time 100. *)
Definition cooling_pool : Scraper.t :=
  Scraper.set_api_last_used (<["k1"%string := 99%Q]> (<["k2"%string := (197 # 2)%Q]> ∅))
    (fresh_pool ["k1"; "k2"]%string).

(** Two keys off cooldown, the first with one recorded error. *)
Definition uneven_pool : Scraper.t :=
  Scraper.set_api_errors (<["k1"%string := 1]> ∅) (fresh_pool ["k1"; "k2"]%string).

(** A remote service that never fails. *)
Definition always_built : World.oracle := failing_first 0 (Exception "never").

(** A remote service that answers its first calls with the errors [es],
    in order, and every later call with success. *)
Definition answering (es : list exn) : World.oracle :=
  {| World.sleep_lag := λ _, 0%Q; World.random_random := λ _, (1 # 2)%Q;
     World.random_index := λ _, 0%nat;
     World.build := λ i _, match es !! i with
                           | Some e => World.Failed e
                           | None => World.Built
                           end |}.

(** The keys the remote service was called with, in order. *)
Fixpoint built_keys (evs : list World.event) : list string :=
  match evs with
  | [] => []
  | World.EvBuild k :: evs' => k :: built_keys evs'
  | _ :: evs' => built_keys evs'
  end.


(** ** Vocabulary of the further properties *)

(** A string without blanks at either end, without [#], and not empty:
    what a key read from a key file looks like. *)
Definition clean_key (k : string) : Prop :=
  k ≠ ""%string ∧ Str.contains_char "#" k = false ∧ Str.strip k = k.

(** ** Pacing *)

(** The number of colons in a proxy line. *)
Definition colons (proxy : string) : nat :=
  length (filter (λ a, a = ":"%char) (list_ascii_of_string proxy)).

(** ** Search results *)

(** The distinct channels of a list of videos. *)
Definition channels (vs : list Search.video) : list string :=
  remove_dups (Search.channel_id <$> vs).

(** What the two grouping loops keep. *)
Definition unique_ok (vs : list Search.video) (d : Py.dict string Search.video) : Prop :=
  NoDup d.*1 ∧ ∀ k v, (k, v) ∈ d → v ∈ vs.
Definition grouped_ok (vs : list Search.video) (d : Py.dict string (list Search.video)) : Prop :=
  NoDup d.*1 ∧
  ∀ k g, (k, g) ∈ d → g ≠ [] ∧ ∀ v, v ∈ g → v ∈ vs ∧ Search.channel_id v = k.

(** ** Keywords *)

(** How often [kw] occurs among the tags of all videos, letter case
    aside. *)
Definition occurrences (kw : string) (d : Py.dict string (list string)) : nat :=
  length (filter (λ tag, Str.lower tag = kw) (concat d.*2)).

(** ** Rotation *)

(** [n] calls of [get_next_api_key] in a row: the keys handed out. *)
Fixpoint select_many (o : World.oracle) (fuel n : nat) (s : Scraper.t) (w : World.t)
    : option (list string * Scraper.t * World.t) :=
  match n with
  | O => Some ([], s, w)
  | S n' =>
      match Scraper.get_next_api_key o fuel s w with
      | Some (Return k, s, w) =>
          match select_many o fuel n' s w with
          | Some (ks, s, w) => Some (k :: ks, s, w)
          | None => None
          end
      | _ => None
      end
  end.

(** A pool in the middle of a round at time [t]: the keys [used] were
    handed out at [t], the keys [rest] are off cooldown, and apart from
    that all keys have the same record: [e] errors, the same quota
    used, [u] uses before the round. *)
Definition in_round (t : Q) (e u : Z) (used rest : list string) (s : Scraper.t) : Prop :=
  Scraper.api_keys s = used ++ rest ∧ NoDup (used ++ rest) ∧
  (""%string ∉ used ++ rest) ∧ (0 < Scraper.min_api_cooldown s)%Q ∧
  (∀ k, k ∈ used ++ rest → Scraper.getZ (Scraper.api_errors s) k = e) ∧
  (∃ q, ∀ k, k ∈ used ++ rest → Scraper.getZ (Scraper.daily_quota_usage s) k = q) ∧
  (∀ k, k ∈ used → Scraper.getQ (Scraper.api_last_used s) k = t ∧
                   Scraper.getZ (Scraper.api_usage_count s) k = u + 1) ∧
  (∀ k, k ∈ rest →
        (Scraper.getQ (Scraper.api_last_used s) k + Scraper.min_api_cooldown s <= t)%Q ∧
        Scraper.getZ (Scraper.api_usage_count s) k = u).

(** ** Files and the result store *)

(** A string without a line break. *)
Definition no_newline (s : string) : Prop :=
  Str.contains_char File.NL s = false ∧ Str.contains_char File.CR s = false.

(** What an address read from [emails.txt] looks like. *)
Definition email_line (e : string) : Prop :=
  e ≠ ""%string ∧ Str.startswith e "#" = false ∧ Str.strip e = e ∧ no_newline e.

(** The first occurrences in [l] of the strings that are not in
    [seen]. *)
Fixpoint fresh (seen : gset string) (l : list string) : list string :=
  match l with
  | [] => []
  | e :: l' => if decide (e ∈ seen) then fresh seen l' else e :: fresh ({[e]} ∪ seen) l'
  end.

(** The lines [emails.txt] gets for a list of addresses. *)
Definition email_lines (l : list string) : string :=
  File.written ((λ e, e ++ String File.NL "")%string <$> l).

(** How many addresses of [l] are at the domain [d]. *)
Definition at_domain (d : string) (l : list string) : Z :=
  Z.of_nat (length (filter (λ e, Str.after_last "@" e = d) l)).

(** ** Bounded cache, again *)

(** The key an operation of the cache is about. *)
Definition op_key {K V : Type} (o : LRUCache.op K V) : K :=
  match o with
  | LRUCache.Put k _ => k
  | LRUCache.Get k => k
  end.

(** The distinct keys other than [key] that a sequence of operations
    touches. *)
Definition other_keys {K V : Type} `{EqDecision K} (key : K)
    (ops : list (LRUCache.op K V)) : list K :=
  remove_dups (filter (λ k, k ≠ key) (op_key <$> ops)).

(** The cache holds [value] under [key], and every entry used more
    recently has its key in [O]. *)
Definition holds {K V : Type} (key : K) (value : V) (O : list K)
    (c : LRUCache.t K V) : Prop :=
  ∃ pre post, LRUCache.cache c = pre ++ (key, value) :: post ∧
              ∀ k, k ∈ post.*1 → k ∈ O.

(** ** Token bucket *)

(** A well-formed bucket: a positive window, and between zero and
    [max_requests] tokens. *)
Definition bucket_ok (r : RateLimiter.t) : Prop :=
  (0 < RateLimiter.time_window r)%Q ∧
  (0 <= RateLimiter.tokens r)%Q ∧ (RateLimiter.tokens r <= RateLimiter.max_requests r)%Q.

(** Tokens per second. *)
Definition rate (r : RateLimiter.t) : Q :=
  (RateLimiter.max_requests r / RateLimiter.time_window r)%Q.

(** The tokens the bucket would hold at time [t] if it had no
    ceiling. *)
Definition budget (r : RateLimiter.t) (t : Q) : Q :=
  (RateLimiter.tokens r + (t - RateLimiter.last_refill r) * rate r)%Q.

(** What the caller of a limiter does: let time pass, or ask for a
    token. *)
Inductive limiter_step : Type :=
| Pause (d : Q)
| Acquire (block : bool) (timeout : option Q).

(** A sequence of steps, with the number of tokens granted. *)
Fixpoint play (o : World.oracle) (fuel : nat) (steps : list limiter_step)
    (r : RateLimiter.t) (w : World.t) : option (Z * RateLimiter.t * World.t) :=
  match steps with
  | [] => Some (0, r, w)
  | Pause d :: steps' => play o fuel steps' r (World.sleep o d w)
  | Acquire block timeout :: steps' =>
      match RateLimiter.acquire o fuel block timeout r w with
      | Some (Return granted, r, w) =>
          match play o fuel steps' r w with
          | Some (n, r, w) => Some ((if granted then 1 else 0) + n, r, w)
          | None => None
          end
      | _ => None
      end
  end.

(** How many times a blocking [acquire] can have to sleep. *)
Definition wait_bound (r : RateLimiter.t) : nat :=
  Z.to_nat (Qceiling (10 * RateLimiter.time_window r / RateLimiter.max_requests r)).

(** ** Client cache *)

(** A well-formed client cache: no key twice, and within its
    capacity. *)
Definition clients_ok (c : CachedDiscovery.t) : Prop :=
  NoDup (CachedDiscovery.cache c).*1 ∧
  Z.of_nat (length (CachedDiscovery.cache c)) ≤ CachedDiscovery.max_size c.

(** ** Quota database *)

(** The units of a key's recorded entries that are stamped with [day]. *)
Definition recorded_on (day : Z) (x : string * Ledger.info) : Z :=
  units_on day (Ledger.plain <$> Ledger.history x.2).

(** The sum of a list of integers. *)
Definition total (l : list Z) : Z := foldr Z.add 0 l.

(** The candidates [get_optimal_key] chooses from: the valid keys with
    at least 100 units left, or, when there is none, the keys over
    quota that were last checked before today. *)
Definition candidates (w : World.t) (db : Ledger.t) : list Ledger.candidate :=
  match omap (Ledger.valid_candidate w db) db with
  | [] => omap (Ledger.reset_candidate w) db
  | l => l
  end.

(** The state of the database after the outcomes [later], each with the
    clock reading it was recorded at, have been recorded for [api_key]. *)
Definition record_all (api_key : string) (later : list (Ledger.fields * World.t))
    (db : Ledger.t) : Ledger.t :=
  foldl (λ db q, Ledger.update_quota_info api_key q.1 q.2 db) db later.

(** The history entry that [update_quota_info] appends for an outcome
    recorded at the clock reading [q.2]. *)
Definition history_entry (q : Ledger.fields * World.t) : Ledger.entry :=
  {| Ledger.timestamp := Some (World.time q.2);
     Ledger.entry_status := default "unknown"%string (Ledger.status q.1);
     Ledger.units_used := default 0 (Ledger.info_units_used q.1);
     Ledger.entry_error_code := Ledger.error_code q.1;
     Ledger.entry_error_reason := Py.take 100 <$> Ledger.error_reason q.1;
     Ledger.entry_response_time := None |}.

(** What the database holds for a key that has no record: the empty
    history and a zero count. *)
Definition history_of (api_key : string) (db : Ledger.t) : list Ledger.entry :=
  from_option Ledger.history [] (Ledger.get_quota_info api_key db).
Definition count_of (api_key : string) (db : Ledger.t) : Z :=
  from_option Ledger.usage_count 0 (Ledger.get_quota_info api_key db).

(** ** Analytics *)

(** An analytics usage_event: the key, the usage_event type, the units, and the
    clock reading at which it is recorded. *)
Definition usage_event : Type := string * string * Z * World.t.

(** The analytics after the events [evs] have been recorded in order. *)
Definition record_events (evs : list usage_event) (a : Analytics.t) : Analytics.t :=
  foldl (λ a e, Analytics.update_analytics e.1.1.1 e.1.1.2 e.1.2 e.2 a) a evs.

(** The events recorded on [day], and those recorded in [hour]. *)
Definition events_on (day : Z) (evs : list usage_event) : list usage_event :=
  filter (λ e, World.today e.2 = day) evs.
Definition events_in (hour : Z) (evs : list usage_event) : list usage_event :=
  filter (λ e, Analytics.hour_of (World.time e.2) = hour) evs.

(** The events a record of counters has counted, whatever their type. *)
Definition counted (c : Analytics.counters) : Z :=
  Analytics.valid_requests c + Analytics.quota_exceeded c
  + Analytics.invalid_keys c + Analytics.errors c.

(** The entry of ["quota_history"] for an usage_event. *)
Definition quota_entry_of (e : usage_event) : Analytics.quota_entry :=
  {| Analytics.timestamp := World.time e.2;
     Analytics.key_prefix :=
       if bool_decide (10 < Str.len e.1.1.1)%nat
       then (Py.take 5 e.1.1.1 ++ "..." ++ Py.last 5 e.1.1.1)%string
       else e.1.1.1;
     Analytics.event_type := e.1.1.2;
     Analytics.units_used := e.1.2 |}.

(** ** Validation runs *)

(** The answers after which [validate_api_key] starts again: a 429 or
    a 5xx answer that does not mention the quota. *)
Definition asks_to_retry (r : World.reply) : bool :=
  match r with
  | World.Failed (HttpError error_code error_reason) =>
      negb (Str.contains "quota" (Str.lower error_reason))
      && negb (bool_decide (error_code = 400) || bool_decide (error_code = 403))
      && (bool_decide (error_code = 429) || bool_decide (500 ≤ error_code))
  | _ => false
  end.

(** A validator that can run at the clock reading of [w]: neither
    stopped nor paused, with a delay that [time.sleep] accepts and a
    well-formed bucket of at least one token that was not refilled in
    the future. *)
Definition ready (s : Checker.t) (w : World.t) : Prop :=
  Checker.cancel_validation s = false ∧ Checker.paused s = false ∧
  (0 <= Checker.delay_between s)%Q ∧
  bucket_ok (Checker.rate_limiter s) ∧
  (1 <= RateLimiter.max_requests (Checker.rate_limiter s))%Q ∧
  (RateLimiter.last_refill (Checker.rate_limiter s) <= World.now w)%Q.

(** The keys a run has put into one of its three lists. *)
Definition filed (s : Checker.t) : list string :=
  Checker.valid_keys s ++ Checker.invalid_keys s ++ Checker.quota_exceeded_keys s.

(** What the validation of one key leaves alone. *)
Definition untouched (s s' : Checker.t) : Prop :=
  Checker.api_file s' = Checker.api_file s ∧
  Checker.output_file s' = Checker.output_file s ∧
  Checker.api_keys s' = Checker.api_keys s ∧
  Checker.valid_keys s' = Checker.valid_keys s ∧
  Checker.invalid_keys s' = Checker.invalid_keys s ∧
  Checker.quota_exceeded_keys s' = Checker.quota_exceeded_keys s ∧
  Checker.total_keys s' = Checker.total_keys s ∧
  Checker.processed_keys s' = Checker.processed_keys s ∧
  Checker.cancel_validation s' = Checker.cancel_validation s ∧
  Checker.paused s' = Checker.paused s ∧
  Checker.delay_between s' = Checker.delay_between s.

(** A key that a key file can hold on one line: clean and without a
    line break. *)
Definition line_key (k : string) : Prop := clean_key k ∧ no_newline k.

(** A key as the validator loads it: a stripped line of at least 30
    characters that is not a comment. *)
Definition loaded_key (k : string) : Prop :=
  no_newline k ∧ (30 ≤ Str.len k)%nat ∧ Str.lstrip k = k ∧ Str.startswith k "#" = false.

(** A new process over the same files: nothing is known yet. *)
Definition restart (st : Store.t) : Store.t :=
  {| Store.parsed_emails := ∅; Store.email_domains := ∅;
     Store.emails_txt := Store.emails_txt st;
     Store.emails_detailed_txt := Store.emails_detailed_txt st |}.

(** ** Concrete inputs, again *)

(** A pool of two fresh keys. *)
Definition two_keys : Scraper.t := fresh_pool ["k1"; "k2"]%string.

(** A result store whose address file lists one address twice. *)
Definition mail_store : Store.t :=
  {| Store.parsed_emails := ∅; Store.email_domains := ∅;
     Store.emails_txt := Some "a@x.com
b@y.com
a@x.com
"%string;
     Store.emails_detailed_txt := None |}.

(** The validator's token bucket as [__init__] makes it: five requests
    a second. *)
Definition full_bucket : RateLimiter.t := RateLimiter.init 5 1 (World.start 100).

(** A non-blocking request, a pause of a second and a blocking
    request on [full_bucket], and the bucket and the clock afterwards. *)
Definition three_steps : list limiter_step :=
  [Acquire false None; Pause 1; Acquire true None].
Definition bucket_after : RateLimiter.t :=
  Eval vm_compute in
    match play always_built 5 three_steps full_bucket (World.start 100) with
    | Some (_, r, _) => r
    | None => full_bucket
    end.
Definition world_after : World.t :=
  Eval vm_compute in
    match play always_built 5 three_steps full_bucket (World.start 100) with
    | Some (_, _, w) => w
    | None => World.start 100
    end.

(** A stand-in for MD5 that keeps its argument. *)
Definition no_hash (s : string) : string := s.

(** Two keys of forty characters with the same first four and last
    four characters. *)
Definition key_a : string := "AIzaSyA-0000000000000000000000000000abcd".
Definition key_b : string := "AIzaSyB-1111111111111111111111111111abcd".

(** A quota database with one key that used one unit at the clock
    reading 100. *)
Definition one_key_db : Ledger.t :=
  [(key_a,
    {| Ledger.top := Ledger.no_fields;
       Ledger.history :=
         [{| Ledger.timestamp := Some 100%Q; Ledger.entry_status := "valid";
             Ledger.units_used := 1; Ledger.entry_error_code := None;
             Ledger.entry_error_reason := None; Ledger.entry_response_time := None |}];
       Ledger.usage_count := 1; Ledger.first_used := Some 100%Q |})].

(** The outcome of an answer "quota exceeded", and of an invalid key. *)
Definition over_quota : Ledger.fields :=
  Checker.error_info (World.start 100) "quota_exceeded" (Some 403) (Some "quota"%string)
    None (Some 0).
Definition rejected : Ledger.fields :=
  Checker.error_info (World.start 100) "invalid" (Some 400) (Some "bad"%string)
    (Some "authorization_error"%string) None.

(** A validator as [__init__] makes it, over a key file with
    [text]. *)
Definition fresh_validator (text : string) : Checker.t :=
  Checker.init (Some text) None 1 [] Analytics.empty (World.start 100).

(** A key file with [key_a] and a comment. *)
Definition one_key_file : string := (key_a ++ String File.NL "# end")%string.

(** A validator that found [key_a] valid. *)
Definition validated : Checker.t :=
  Checker.set_valid_keys [key_a] (fresh_validator one_key_file).

(** Stand-ins for [strftime] and [str]. *)
Definition some_date (t : Q) : string := "2024-01-01 00:00:00".
Definition some_number (n : Z) : string := "9999".

(** A store that knows one address, as it is after loading
    [emails.txt]. *)
Definition known_store : Store.t :=
  {| Store.parsed_emails := list_to_set ["a@x.com"%string]; Store.email_domains := ∅;
     Store.emails_txt := Some (email_lines ["a@x.com"%string]);
     Store.emails_detailed_txt := None |}.


(** * Properties of the bounded cache *)

Section lru_facts.
Context {K V : Type} `{EqDecision K}.
Import LRUCache.
Implicit Types (d : list (K * V)) (c : LRUCache.t K V) (key : K) (value : V).

Lemma od_contains_spec key d : od_contains key d = true ↔ key ∈ d.*1.
Proof. unfold od_contains. by rewrite bool_decide_eq_true. Qed.

Lemma od_getitem_Some key d : key ∈ d.*1 → ∃ v, od_getitem key d = Return v.
Proof.
  induction d as [|[k v] d IH]; simpl; [by intros ?%elem_of_nil|].
  intros Hin. destruct (decide (k = key)); [eauto|].
  apply elem_of_cons in Hin as [->|Hin]; [done|auto].
Qed.

Lemma od_getitem_snoc key value d :
  key ∉ d.*1 → od_getitem key (d ++ [(key, value)]) = Return value.
Proof.
  induction d as [|[k v] d IH]; simpl; intros Hni.
  - by rewrite decide_True.
  - apply not_elem_of_cons in Hni as [? ?]. rewrite decide_False by done. auto.
Qed.

Lemma keys_filter_ne key d : key ∉ (filter (λ kv, kv.1 ≠ key) d).*1.
Proof.
  intros ((k & v) & -> & Hin%list_elem_of_filter)%list_elem_of_fmap.
  by destruct Hin.
Qed.

Lemma od_setitem_snoc key v value d :
  key ∉ d.*1 → od_setitem key value (d ++ [(key, v)]) = d ++ [(key, value)].
Proof.
  induction d as [|[k v'] d IH]; simpl; intros Hni.
  - by rewrite decide_True.
  - apply not_elem_of_cons in Hni as [? ?]. rewrite decide_False by done.
    by rewrite IH.
Qed.

Lemma od_setitem_fresh key value d :
  key ∉ d.*1 → od_setitem key value d = d ++ [(key, value)].
Proof.
  induction d as [|[k v'] d IH]; simpl; intros Hni; [done|].
  apply not_elem_of_cons in Hni as [? ?]. rewrite decide_False by done.
  by rewrite IH.
Qed.

Lemma keys_filter_perm key v d :
  NoDup d.*1 → od_getitem key d = Return v →
  (filter (λ kv, kv.1 ≠ key) d ++ [(key, v)]).*1 ≡ₚ d.*1.
Proof.
  induction d as [|[k v'] d IH]; simpl; [done|].
  intros [Hk Hnd]%NoDup_cons. destruct (decide (k = key)) as [->|Hne].
  - intros [= ->]. rewrite filter_cons_False by (simpl; tauto).
    assert (Hid : filter (λ kv : K * V, kv.1 ≠ key) d = d).
    { clear -Hk. induction d as [|[k' v''] d IH]; [done|].
      simpl in Hk. apply not_elem_of_cons in Hk as [? ?].
      rewrite filter_cons_True by (simpl; congruence). by rewrite IH. }
    rewrite Hid, fmap_app. simpl. by rewrite <- Permutation_cons_append.
  - intros Hg. rewrite filter_cons_True by done. simpl.
    by rewrite (IH Hnd Hg).
Qed.

(** What a call of [put] on a present key leaves behind. *)
Lemma put_present key value c :
  contains key c = true →
  put key value c =
    Return (mk (filter (λ kv, kv.1 ≠ key) (cache c) ++ [(key, value)]) (max_size c)).
Proof.
  intros Hc. unfold put. unfold contains in Hc. rewrite Hc.
  apply od_contains_spec, od_getitem_Some in Hc as [v Hv].
  unfold od_move_to_end. rewrite Hv.
  by rewrite od_setitem_snoc by apply keys_filter_ne.
Qed.

(** What a call of [put] on a new key leaves behind, below capacity
    and at capacity. *)
Lemma put_absent key value c :
  contains key c = false → 0 < max_size c →
  put key value c =
    Return (mk ((if bool_decide (max_size c ≤ len c) then tail (cache c) else cache c)
                ++ [(key, value)]) (max_size c)).
Proof.
  intros Hc Hpos. unfold put. unfold contains in Hc. rewrite Hc.
  assert (Hni : key ∉ (cache c).*1).
  { intros Hin%od_contains_spec. congruence. }
  case_bool_decide as Hfull.
  - unfold len in Hfull. destruct (cache c) as [|[k v] d] eqn:Hd; simpl in *; [lia|].
    apply not_elem_of_cons in Hni as [? ?]. by rewrite od_setitem_fresh.
  - by rewrite od_setitem_fresh.
Qed.

Lemma lru_inv_init C : 0 < C → lru_inv C (init (K:=K) (V:=V) C).
Proof. intros. repeat split; simpl; [constructor | unfold len; simpl; lia]. Qed.

Lemma put_inv C key value c :
  0 < C → lru_inv C c → ∃ c', put key value c = Return c' ∧ lru_inv C c'.
Proof.
  intros Hpos (Hm & Hnd & Hlen). destruct (contains key c) eqn:Hc.
  - rewrite put_present by done. eexists; split; [done|].
    pose proof Hc as [v Hv]%od_contains_spec%od_getitem_Some.
    pose proof (keys_filter_perm key v (cache c) Hnd Hv) as Hp.
    assert (Hp' : (filter (λ kv : K * V, kv.1 ≠ key) (cache c) ++ [(key, value)]).*1
                  ≡ₚ (cache c).*1).
    { rewrite <- Hp. by rewrite !fmap_app. }
    repeat split; simpl; [done| |].
    + unfold keys; simpl. by rewrite Hp'.
    + unfold len in *; simpl.
      apply Permutation_length in Hp'. rewrite !length_fmap in Hp'. lia.
  - rewrite put_absent by (done || lia). eexists; split; [done|].
    assert (Hni : key ∉ (cache c).*1).
    { intros Hin%od_contains_spec. unfold contains in Hc. congruence. }
    unfold keys, len in *. repeat split; [done| |].
    + unfold keys; cbn [cache]. rewrite fmap_app. simpl. apply NoDup_app. split_and!.
      * case_bool_decide; [|done]. destruct (cache c); [done|].
        simpl in *. by apply NoDup_cons in Hnd as [_ ?].
      * intros k Hk ->%list_elem_of_singleton. apply Hni.
        case_bool_decide; [|done]. destruct (cache c); [done|].
        simpl in *. by right.
      * apply NoDup_singleton.
    + unfold len; cbn [cache]. rewrite length_app. simpl. case_bool_decide.
      * destruct (cache c); simpl in *; lia.
      * lia.
Qed.

Lemma get_inv C key dflt c :
  lru_inv C c → ∃ r c', get key dflt c = Return (r, c') ∧ lru_inv C c'.
Proof.
  intros (Hm & Hnd & Hlen). unfold get.
  destruct (od_contains key (cache c)) eqn:Hc; [|by eexists _, _].
  pose proof Hc as [v Hv]%od_contains_spec%od_getitem_Some.
  unfold od_move_to_end. rewrite Hv.
  rewrite od_getitem_snoc by apply keys_filter_ne.
  eexists _, _; split; [done|].
  pose proof (keys_filter_perm key v (cache c) Hnd Hv) as Hp.
  unfold keys, len in *. repeat split; [done| |].
  - unfold keys; simpl. by rewrite Hp.
  - unfold len; simpl. apply Permutation_length in Hp. rewrite !length_fmap in Hp. lia.
Qed.

Lemma run_inv C ops c :
  0 < C → lru_inv C c → ∃ c', run ops c = Return c' ∧ lru_inv C c'.
Proof.
  intros Hpos. revert c. induction ops as [|o ops IH]; intros c Hinv; simpl.
  - eauto.
  - destruct o as [key value|key]; simpl.
    + destruct (put_inv C key value c Hpos Hinv) as (c' & -> & Hinv'). auto.
    + destruct (get_inv C key None c Hinv) as (r & c' & -> & Hinv'). auto.
Qed.

Lemma get_after_put key value dflt c c' :
  put key value c = Return c' → ∃ c'', get key dflt c' = Return (Some value, c'').
Proof.
  unfold put. intros Hput.
  assert (∃ d, cache c' = od_setitem key value d) as [d Hd].
  { destruct (od_contains key (cache c)).
    - destruct (od_move_to_end key (cache c)); [|done]. simplify_eq; simpl; eauto.
    - destruct (bool_decide _).
      + destruct (od_popitem_first (cache c)); [|done]. simplify_eq; simpl; eauto.
      + simplify_eq; simpl; eauto. }
  assert (Hget : od_getitem key (cache c') = Return value).
  { rewrite Hd. clear. induction d as [|[k v] d IH]; simpl.
    - by rewrite decide_True.
    - destruct (decide (k = key)) as [->|]; simpl.
      + by rewrite decide_True.
      + by rewrite decide_False. }
  assert (Hmem : key ∈ (cache c').*1).
  { clear -Hget. induction (cache c') as [|[k v] d IH]; simpl in *; [done|].
    destruct (decide (k = key)) as [->|]; [left|right; auto]. }
  unfold get. apply od_contains_spec in Hmem as ->.
  unfold od_move_to_end. rewrite Hget.
  rewrite od_getitem_snoc by apply keys_filter_ne. eauto.
Qed.

(** C7.  Starting from an empty cache of capacity [C ≥ 1], every
    sequence of [put] and [get] calls runs without an exception and
    leaves at most [C] entries; from the cache so reached, a [put]
    followed by a [get] of the same key gives the value just put; and a
    [put] on a key already present moves that key to the most recent
    end with its new value, keeps every other entry in place and keeps
    the size, so nothing is evicted. *)
Theorem lru_cache_contract (C : Z) (ops : list (op K V)) :
  0 < C →
  ∃ c, run ops (init C) = Return c ∧ len c ≤ C ∧
    (∀ key value, ∃ c1 c2,
        put key value c = Return c1 ∧ len c1 ≤ C ∧
        get key None c1 = Return (Some value, c2)) ∧
    (∀ key value, contains key c = true →
        ∃ c1, put key value c = Return c1 ∧
          cache c1 = filter (λ kv, kv.1 ≠ key) (cache c) ++ [(key, value)] ∧
          len c1 = len c ∧
          (∀ key', key' ∈ keys c → key' ∈ keys c1)).
Proof.
  intros Hpos.
  destruct (run_inv C ops (init C) Hpos (lru_inv_init C Hpos)) as (c & Hrun & Hinv).
  exists c. split; [done|]. split; [apply Hinv|]. split.
  - intros key value.
    destruct (put_inv C key value c Hpos Hinv) as (c1 & Hput & Hinv1).
    destruct (get_after_put key value None c c1 Hput) as (c2 & Hget).
    exists c1, c2. split_and!; [done|apply Hinv1|done].
  - intros key value Hc. rewrite put_present by done.
    eexists; split; [done|]. simpl. split; [done|].
    destruct Hinv as (_ & Hnd & _).
    pose proof Hc as [v Hv]%od_contains_spec%od_getitem_Some.
    pose proof (keys_filter_perm key v (cache c) Hnd Hv) as Hp.
    assert (Hp' : (filter (λ kv : K * V, kv.1 ≠ key) (cache c) ++ [(key, value)]).*1
                  ≡ₚ (cache c).*1).
    { rewrite <- Hp. by rewrite !fmap_app. }
    split.
    + unfold len; simpl. apply Permutation_length in Hp'.
      rewrite !length_fmap in Hp'. lia.
    + intros key' Hin. unfold keys in *; simpl. by rewrite Hp'.
Qed.
End lru_facts.


(** * Properties of the quota ledger *)

Section quota_facts.
Import World Scraper.

Lemma getZ_zero_map (keys : list string) (k : string) :
  getZ (list_to_map ((λ key, (key, 0)) <$> keys)) k = 0.
Proof.
  unfold getZ. destruct (list_to_map _ !! k) as [z|] eqn:Hk; [|done].
  apply elem_of_list_to_map_2 in Hk.
  apply list_elem_of_fmap in Hk as (key & [= -> ->] & _). done.
Qed.

Lemma reset_day today s :
  last_quota_reset_day (reset_daily_quota_usage today s) = today.
Proof.
  unfold reset_daily_quota_usage. case_decide as Hd; [done|].
  destruct (decide (last_quota_reset_day s = today)); [done|tauto].
Qed.

Lemma reset_new_day today s k :
  last_quota_reset_day s ≠ today →
  getZ (daily_quota_usage (reset_daily_quota_usage today s)) k = 0.
Proof.
  intros Hd. unfold reset_daily_quota_usage. rewrite decide_True by done.
  apply getZ_zero_map.
Qed.

Lemma reset_same_day today s :
  last_quota_reset_day s = today → reset_daily_quota_usage today s = s.
Proof. intros Hd. unfold reset_daily_quota_usage. by rewrite decide_False by tauto. Qed.

Lemma track_day key units w s :
  last_quota_reset_day (track_api_usage key units w s).2 = today w.
Proof. unfold track_api_usage. simpl. apply reset_day. Qed.

Lemma track_returns key units w s :
  (track_api_usage key units w s).1 =
    getZ (daily_quota_usage (reset_daily_quota_usage (today w) s)) key + units.
Proof.
  unfold track_api_usage. simpl. unfold getZ at 1. by rewrite lookup_insert_eq.
Qed.
End quota_facts.

Section ledger_facts.
Import World Validator.

Lemma add_if_today_spec day acc e :
  add_if_today day acc e = if decide (stamped_on day e) then acc + units_used e else acc.
Proof.
  unfold add_if_today. destruct (decide (stamped_on day e)) as [(ts & -> & Hd)|Hn].
  - by rewrite decide_True.
  - destruct (timestamp e) as [ts|] eqn:Ht; [|done].
    rewrite decide_False; [done|]. intros Hd. apply Hn. exists ts. by rewrite Ht.
Qed.

Lemma foldl_add_if_today day acc h :
  foldl (add_if_today day) acc h = acc + units_on day h.
Proof.
  revert acc. induction h as [|e h IH]; intros acc; simpl.
  - unfold units_on. simpl. lia.
  - rewrite IH, add_if_today_spec. unfold units_on.
    destruct (decide (stamped_on day e)).
    + rewrite filter_cons_True by done. rewrite fmap_cons. cbn [foldr].
      set (r := foldr Z.add 0 _). lia.
    + by rewrite filter_cons_False by done.
Qed.

Lemma units_on_other_day day h :
  (∀ e, e ∈ h → ¬ stamped_on day e) → units_on day h = 0.
Proof.
  intros Hall. unfold units_on.
  replace (filter (stamped_on day) h) with (@nil entry); [done|].
  symmetry. induction h as [|e h IH]; [done|].
  rewrite filter_cons_False by (apply Hall; left).
  apply IH. intros e' He'. apply Hall. by right.
Qed.
End ledger_facts.



(** * Properties of the credential selector *)

Section selection_facts.
Import World Scraper.
Implicit Types (s : Scraper.t) (w : World.t) (k key : string).

Lemma Qltb_spec (x y : Q) : Qltb x y = true ↔ (x < y)%Q.
Proof.
  unfold Qltb. rewrite negb_true_iff. split.
  - intros Hb. apply Qnot_le_lt. intros Hle%Qle_bool_iff. congruence.
  - intros Hlt. destruct (Qle_bool y x) eqn:Hb; [|done].
    apply Qle_bool_iff in Hb. lra.
Qed.

Lemma Qltb_false (x y : Q) : Qltb x y = false ↔ (y <= x)%Q.
Proof.
  unfold Qltb. rewrite negb_false_iff. apply Qle_bool_iff.
Qed.

Lemma score_total s k k' : score_lt s k' k ∨ score_le s k k'.
Proof.
  unfold score_le, score_lt, score_eq.
  destruct (Z.lt_total (getZ (api_errors s) k) (getZ (api_errors s) k')) as [?|[He|?]];
    [tauto| |tauto].
  destruct (Q_dec (quota_ratio s k) (quota_ratio s k')) as [[?|?]|Hq]; [tauto| |].
  { left. right. left. split; [done|]. lra. }
  destruct (Z.lt_total (getZ (api_usage_count s) k) (getZ (api_usage_count s) k'))
    as [?|[Hu|?]]; [tauto|tauto|].
  left. right. right. split_and!; [done| |done]. lra.
Qed.

Lemma score_le_trans s k1 k2 k3 : score_le s k1 k2 → score_le s k2 k3 → score_le s k1 k3.
Proof.
  unfold score_le, score_lt, score_eq. intros H12 H23.
  destruct (score_total s k1 k3) as [H31|H13]; [|done].
  unfold score_lt in H31.
  destruct H12 as [[?|[[? ?]|(? & ? & ?)]]|(? & ? & ?)],
           H23 as [[?|[[? ?]|(? & ? & ?)]]|(? & ? & ?)],
           H31 as [?|[[? ?]|(? & ? & ?)]]; try lia; try lra.
Qed.

Lemma score_lt_le_trans s k1 k2 k3 : score_lt s k1 k2 → score_le s k2 k3 → score_lt s k1 k3.
Proof.
  unfold score_le, score_lt, score_eq. intros H12 H23.
  destruct (score_total s k3 k1) as [H13|H31]; [done|].
  unfold score_le, score_lt, score_eq in H31.
  destruct H12 as [?|[[? ?]|(? & ? & ?)]],
           H23 as [[?|[[? ?]|(? & ? & ?)]]|(? & ? & ?)],
           H31 as [[?|[[? ?]|(? & ? & ?)]]|(? & ? & ?)]; try lia; try lra.
Qed.

Lemma select_step_first s key : best_of s (select_step s best0 key) key.
Proof. by unfold select_step, best0, best_of. Qed.

Lemma select_step_next s b k key :
  best_of s b k →
  (score_lt s key k ∧ best_of s (select_step s b key) key) ∨
  (score_le s k key ∧ select_step s b key = b).
Proof.
  intros (Hk & He & Hq & Hu). unfold select_step. rewrite He, Hq, Hu. simpl.
  destruct (_ || _) eqn:Hc.
  - left. split; [|done].
    apply orb_true_iff in Hc as [Hc|Hc]; [apply orb_true_iff in Hc as [Hc|Hc]|].
    + apply bool_decide_eq_true in Hc. by left.
    + apply andb_true_iff in Hc as [H1%bool_decide_eq_true H2%Qltb_spec].
      right; left. done.
    + apply andb_true_iff in Hc as [Hc H3%bool_decide_eq_true].
      apply andb_true_iff in Hc as [H1%bool_decide_eq_true H2%Qeq_bool_iff].
      right; right. done.
  - right. split; [|done].
    destruct (score_total s k key) as [Hlt|Hle]; [|done]. exfalso.
    apply orb_false_iff in Hc as [Hc Hc3]. apply orb_false_iff in Hc as [Hc1 Hc2].
    apply bool_decide_eq_false in Hc1.
    destruct Hlt as [?|[[Heq Hlt]|(Heq & Hqeq & Hlt)]]; [done| |].
    + rewrite (bool_decide_eq_true_2 _ Heq) in Hc2. simpl in Hc2.
      apply Qltb_false in Hc2. lra.
    + rewrite (bool_decide_eq_true_2 _ Heq) in Hc3. simpl in Hc3.
      apply Qeq_bool_iff in Hqeq. rewrite Hqeq in Hc3. simpl in Hc3.
      by apply bool_decide_eq_false in Hc3.
Qed.

(** From a current best [k], the rest of the loop ends on a key that is
    either [k], with nothing strictly better after it, or a later key
    that is strictly better than [k] and than everything before it. *)
Lemma foldl_select s l : ∀ b k,
  best_of s b k →
  ∃ k', best_of s (foldl (select_step s) b l) k' ∧
    (∀ x, x ∈ l → score_le s k' x) ∧ score_le s k' k ∧
    ((k' = k ∧ foldl (select_step s) b l = b) ∨
     ∃ i, l !! i = Some k' ∧ score_lt s k' k ∧
          ∀ j x, (j < i)%nat → l !! j = Some x → score_lt s k' x).
Proof.
  induction l as [|key l IH]; intros b k Hb; simpl.
  - exists k. split_and!; [done| |right|by left].
    + by intros x ?%elem_of_nil.
    + split_and!; [done|reflexivity|done].
  - destruct (select_step_next s b k key Hb) as [[Hlt Hb']|[Hle Heq]].
    + destruct (IH _ _ Hb') as (k' & Hbest & Hall & Hle' & Hcase).
      exists k'. split_and!; [done| | |].
      * intros x [->|Hx]%elem_of_cons; auto.
      * eapply score_le_trans; [done|by left].
      * right. destruct Hcase as [[-> _]|(i & Hi & Hlt' & Hbefore)].
        -- exists 0%nat. split_and!; [done|done|]. intros; lia.
        -- exists (S i). split_and!; [done| |].
           ++ eapply score_lt_le_trans; [done|by left].
           ++ intros [|j] x Hj Hx; simpl in Hx.
              ** injection Hx as <-. done.
              ** apply (Hbefore j); [lia|done].
    + rewrite Heq. destruct (IH _ _ Hb) as (k' & Hbest & Hall & Hle' & Hcase).
      exists k'. split_and!; [done| |done|].
      * intros x [->|Hx]%elem_of_cons; [|auto].
        eapply score_le_trans; done.
      * destruct Hcase as [[-> Hsame]|(i & Hi & Hlt' & Hbefore)]; [by left|].
        right. exists (S i). split_and!; [done|done|].
        intros [|j] x Hj Hx; simpl in Hx.
        -- injection Hx as <-. eapply score_lt_le_trans; done.
        -- apply (Hbefore j); [lia|done].
Qed.

(** The selection loop on a non-empty list: the first of the minimal
    keys. *)
Lemma select_best_spec s l :
  l ≠ [] →
  ∃ i k, best_key (select_best s l) = Some k ∧ l !! i = Some k ∧
    (∀ x, x ∈ l → score_le s k x) ∧
    (∀ j x, (j < i)%nat → l !! j = Some x → score_lt s k x).
Proof.
  destruct l as [|key l]; [done|]. intros _. unfold select_best. simpl.
  destruct (foldl_select s l _ key (select_step_first s key))
    as (k' & Hbest & Hall & Hle & Hcase).
  destruct Hcase as [[-> _]|(i & Hi & Hlt & Hbefore)].
  - exists 0%nat, key. split_and!; [apply Hbest|done| |intros; lia].
    intros x [->|Hx]%elem_of_cons; auto.
  - exists (S i), k'. split_and!; [apply Hbest|done| |].
    + intros x [->|Hx]%elem_of_cons; auto.
    + intros [|j] x Hj Hx; simpl in Hx.
      * by injection Hx as <-.
      * apply (Hbefore j); [lia|done].
Qed.
End selection_facts.

Section cooldown_facts.
Import World Scraper.
Implicit Types (s : Scraper.t) (w : World.t) (k key : string).

Lemma reset_api_keys today s : api_keys (reset_daily_quota_usage today s) = api_keys s.
Proof. unfold reset_daily_quota_usage. by case_decide. Qed.

Lemma reset_api_last_used today s :
  api_last_used (reset_daily_quota_usage today s) = api_last_used s.
Proof. unfold reset_daily_quota_usage. by case_decide. Qed.

Lemma reset_min_api_cooldown today s :
  min_api_cooldown (reset_daily_quota_usage today s) = min_api_cooldown s.
Proof. unfold reset_daily_quota_usage. by case_decide. Qed.

Lemma available_keys_reset today s t :
  available_keys (reset_daily_quota_usage today s) t = available_keys s t.
Proof.
  unfold available_keys, off_cooldown.
  by rewrite reset_api_keys, reset_api_last_used, reset_min_api_cooldown.
Qed.

Lemma off_cooldown_spec s t key :
  off_cooldown s t key = true ↔ (getQ (api_last_used s) key + min_api_cooldown s <= t)%Q.
Proof. unfold off_cooldown. rewrite Qle_bool_iff. split; intros; lra. Qed.

Lemma elem_of_available s t key :
  key ∈ available_keys s t ↔ off_cooldown s t key = true ∧ key ∈ api_keys s.
Proof. unfold available_keys. by rewrite list_elem_of_filter. Qed.

(** With a key off cooldown the call returns at once, with the key the
    selection loop chose. *)
Lemma get_next_api_key_select (o : oracle) fuel s w :
  let s' := reset_daily_quota_usage (today w) s in
  let avail := available_keys s' (time w) in
  avail ≠ [] → ""%string ∉ api_keys s →
  ∃ k, best_key (select_best s' avail) = Some k ∧ k ∈ avail ∧
    get_next_api_key o (S fuel) s w =
      Some (Return k, mark_used k (time w) s', emit (EvSelect k (time w)) w).
Proof.
  intros s' avail Hne Hkeys.
  destruct (select_best_spec s' avail Hne) as (i & k & Hbest & Hi & _ & _).
  assert (Hin : k ∈ avail) by (eapply list_elem_of_lookup_2; done).
  exists k. split_and!; [done|done|].
  assert (Hk : k ∈ api_keys s).
  { apply elem_of_available in Hin as [_ Hin]. unfold s' in Hin.
    by rewrite reset_api_keys in Hin. }
  cbn [get_next_api_key].
  destruct (api_keys s) as [|key0 keys'] eqn:Hks; [by apply elem_of_nil in Hk|].
  fold s'. fold avail. destruct avail as [|a avail'] eqn:Hav; [done|].
  rewrite Hbest. rewrite bool_decide_eq_false_2; [done|].
  intros ->. done.
Qed.

Lemma Qmin_list_spec (x : Q) (xs : list Q) :
  Qmin_list x xs ∈ x :: xs ∧ ∀ y, y ∈ x :: xs → (Qmin_list x xs <= y)%Q.
Proof.
  revert x. induction xs as [|z xs IH]; intros x; simpl.
  - split; [by left|]. intros y ->%list_elem_of_singleton. lra.
  - destruct (IH (if Qltb z x then z else x)) as [Hin Hle]. split.
    + apply elem_of_cons in Hin as [->|Hin].
      * destruct (Qltb z x); [right; left|left].
      * right; by right.
    + intros y Hy. destruct (Qltb z x) eqn:Hzx.
      * apply Qltb_spec in Hzx.
        apply elem_of_cons in Hy as [->|Hy]; [|by apply Hle].
        specialize (Hle z (ltac:(left))). lra.
      * apply Qltb_false in Hzx.
        apply elem_of_cons in Hy as [->|[->|Hy]%elem_of_cons].
        -- apply Hle. by left.
        -- specialize (Hle x (ltac:(left))). lra.
        -- apply Hle. by right.
Qed.

(** A key that is returned was off cooldown when it was selected. *)
Lemma get_next_api_key_off_cooldown (o : oracle) fuel : ∀ s w k s2 w2,
  ""%string ∉ api_keys s →
  get_next_api_key o fuel s w = Some (Return k, s2, w2) →
  ∃ t, last (log w2) = Some (EvSelect k t) ∧ k ∈ api_keys s ∧
       (getQ (api_last_used s) k + min_api_cooldown s <= t)%Q.
Proof.
  induction fuel as [|fuel IH]; intros s w k s2 w2 Hkeys Hrun; [done|].
  destruct (available_keys (reset_daily_quota_usage (today w) s) (time w))
    as [|a avail'] eqn:Hav.
  - cbn [get_next_api_key] in Hrun.
    destruct (api_keys s) as [|key0 keys'] eqn:Hks; [done|].
    rewrite Hav in Hrun. apply IH in Hrun.
    + rewrite reset_api_keys, reset_api_last_used, reset_min_api_cooldown, Hks in Hrun.
      done.
    + by rewrite reset_api_keys, Hks.
  - destruct (get_next_api_key_select o fuel s w) as (k' & _ & Hin & Hsel);
      [by rewrite Hav|done|].
    rewrite Hsel in Hrun. injection Hrun as -> <- <-.
    exists (time w). split_and!.
    + unfold emit; simpl. by rewrite last_snoc.
    + apply elem_of_available in Hin as [_ Hin]. by rewrite reset_api_keys in Hin.
    + apply elem_of_available in Hin as [Hoff _].
      apply off_cooldown_spec in Hoff.
      by rewrite reset_api_last_used, reset_min_api_cooldown in Hoff.
Qed.

(** With every key on cooldown the call sleeps once, for the least
    remaining wait, and then selects. *)
Lemma get_next_api_key_all_cooling (o : oracle) fuel s w :
  sane o → ""%string ∉ api_keys s → api_keys s ≠ [] →
  (∀ k, k ∈ api_keys s → (0 < remaining_wait s (time w) k)%Q) →
  ∃ d k s2 w2,
    get_next_api_key o (S (S fuel)) s w = Some (Return k, s2, w2) ∧
    log w2 = log w ++ [EvSleep d;
                       EvSelect k (now w + d + sleep_lag o (n_sleep w))%Q] ∧
    (∀ k', k' ∈ api_keys s → (d <= remaining_wait s (time w) k')%Q) ∧
    (∃ k', k' ∈ api_keys s ∧ d = remaining_wait s (time w) k').
Proof.
  intros [Hlag _] Hkeys Hne Hcool.
  set (s' := reset_daily_quota_usage (today w) s).
  assert (Hav : available_keys s' (time w) = []).
  { unfold s'. rewrite available_keys_reset.
    destruct (available_keys s (time w)) as [|k l] eqn:E; [done|].
    assert (Hk : k ∈ available_keys s (time w)) by (rewrite E; left).
    apply elem_of_available in Hk as [Hoff Hk].
    apply off_cooldown_spec in Hoff. specialize (Hcool k Hk).
    unfold remaining_wait in Hcool. lra. }
  destruct (api_keys s) as [|key0 keys'] eqn:Hks; [done|].
  pose proof (Qmin_list_spec (getQ (api_last_used s') key0)
                (getQ (api_last_used s') <$> keys')) as [Hmin_in Hmin_le].
  set (m := Qmin_list (getQ (api_last_used s') key0) (getQ (api_last_used s') <$> keys'))
    in *.
  assert (Hmin_key : ∃ km, km ∈ key0 :: keys' ∧ m = getQ (api_last_used s) km).
  { change (getQ (api_last_used s') key0 :: (getQ (api_last_used s') <$> keys'))
      with (getQ (api_last_used s') <$> key0 :: keys') in Hmin_in.
    apply list_elem_of_fmap in Hmin_in as (km & Hm & Hkm).
    exists km. split; [done|]. unfold s' in Hm. by rewrite reset_api_last_used in Hm. }
  destruct Hmin_key as (km & Hkm & Hm).
  set (d := (m + min_api_cooldown s' - time w)%Q).
  assert (Hd_km : d = remaining_wait s (time w) km).
  { unfold d, remaining_wait, s'. by rewrite reset_min_api_cooldown, Hm. }
  assert (Hd_pos : (0 < d)%Q) by (rewrite Hd_km; by apply Hcool).
  assert (Hmax : Qmax0 d = d).
  { unfold Qmax0. by rewrite (proj2 (Qltb_spec 0 d) Hd_pos). }
  set (w1 := sleep o d w).
  assert (Hstep : get_next_api_key o (S (S fuel)) s w = get_next_api_key o (S fuel) s' w1).
  { cbn [get_next_api_key]. rewrite Hks. fold s'. rewrite Hav. fold m. fold d.
    rewrite Hmax, (proj2 (Qltb_spec 0 d) Hd_pos). done. }
  assert (Hkeys' : ""%string ∉ api_keys s').
  { unfold s'. by rewrite reset_api_keys, Hks. }
  destruct (get_next_api_key_select o fuel s' w1) as (k & _ & Hin & Hsel); [|done|].
  { rewrite available_keys_reset. intros Hnil.
    assert (Hkm' : km ∈ available_keys s' (time w1)).
    { apply elem_of_available. split.
      - apply off_cooldown_spec. unfold w1, sleep, time; simpl.
        unfold s'. rewrite reset_api_last_used, reset_min_api_cooldown.
        rewrite Hd_km. unfold remaining_wait. specialize (Hlag (n_sleep w)).
        unfold time. lra.
      - unfold s'. by rewrite reset_api_keys, Hks. }
    rewrite Hnil in Hkm'. by apply elem_of_nil in Hkm'. }
  exists d, k. eexists _, _. split_and!.
  - rewrite Hstep. exact Hsel.
  - unfold emit, w1, sleep, time; simpl. by rewrite <- app_assoc.
  - intros k' Hk'. rewrite Hd_km. unfold remaining_wait. rewrite <- Hm.
    assert (m <= getQ (api_last_used s) k')%Q; [|lra].
    apply elem_of_cons in Hk' as [->|Hk']; unfold s' in Hmin_le;
      rewrite reset_api_last_used in Hmin_le; apply Hmin_le; [by left|right].
    apply list_elem_of_fmap. eauto.
  - eauto.
Qed.
End cooldown_facts.




(** * Properties of the resilient client *)

Section service_facts.
Import World Scraper.
Implicit Types (s : Scraper.t) (w : World.t) (k key : string) (r : result string).
Variable o : oracle.

Lemma extends_refl w : extends w w [].
Proof. unfold extends. by rewrite app_nil_r. Qed.

Lemma extends_trans w1 w2 w3 evs evs' :
  extends w1 w2 evs → extends w2 w3 evs' → extends w1 w3 (evs ++ evs').
Proof. unfold extends. intros H1 H2. by rewrite H2, H1, app_assoc. Qed.

Lemma choice_member {A} (x : A) (xs : list A) w : (choice o x xs w).1 ∈ x :: xs.
Proof.
  unfold choice; simpl.
  destruct ((x :: xs) !! _) as [y|] eqn:Hy; simpl; [|by left].
  eapply list_elem_of_lookup_2. exact Hy.
Qed.

Lemma backoff_delay_world rc w :
  log (backoff_delay o rc w).2 = log w ∧ n_build (backoff_delay o rc w).2 = n_build w
  ∧ now (backoff_delay o rc w).2 = now w ∧ n_sleep (backoff_delay o rc w).2 = n_sleep w.
Proof. done. Qed.

Lemma attempts_capped_sleeps cur sleeps evs :
  Forall is_sleep sleeps →
  attempts_capped cur (sleeps ++ evs) = attempts_capped cur evs.
Proof. induction 1 as [|ev sleeps [d ->] _ IH]; simpl; auto. Qed.

(** What [get_next_api_key] leaves alone: the pool and the remote
    service; what it does: sleep, then record the selection; and what
    it returns: a key of the pool, or the exhaustion error when the
    pool is empty. *)
Lemma get_next_api_key_frame fuel : ∀ s w r s2 w2,
  get_next_api_key o fuel s w = Some (r, s2, w2) →
  api_keys s2 = api_keys s ∧ n_build w2 = n_build w ∧
  ∃ sleeps, Forall is_sleep sleeps ∧
    match r with
    | Return k => k ∈ api_keys s ∧ ∃ t, extends w w2 (sleeps ++ [EvSelect k t])
    | Raise e => e = ValueError "No API keys available." ∧ api_keys s = [] ∧
                 extends w w2 sleeps
    end.
Proof.
  induction fuel as [|fuel IH]; intros s w r s2 w2 Hrun; [done|].
  cbn [get_next_api_key] in Hrun.
  destruct (api_keys s) as [|key0 keys'] eqn:Hks.
  { injection Hrun as <- <- <-. split; [done|]. split; [done|].
    exists []. split; [constructor|]. split; [done|]. split; [done|apply extends_refl]. }
  set (s' := reset_daily_quota_usage (today w) s) in *.
  assert (Hks' : api_keys s' = key0 :: keys').
  { unfold s'. by rewrite reset_api_keys. }
  destruct (available_keys s' (time w)) as [|a avail'] eqn:Hav.
  - apply IH in Hrun as (Hk & Hb & sleeps & Hsl & Hr).
    rewrite Hks' in Hk, Hr.
    split; [done|]. split; [rewrite Hb; by destruct (Qltb _ _)|].
    destruct (Qltb _ _) eqn:Hs; [|by exists sleeps].
    eexists (EvSleep _ :: sleeps). split; [constructor; [by eexists|done]|].
    destruct r as [k|e].
    + destruct Hr as (Hin & t & Hext). split; [done|]. exists t.
      unfold extends in *. rewrite Hext. simpl. by rewrite <- app_assoc.
    + destruct Hr as (He & Hnil & Hext). done.
  - assert (Hsub : ∀ k, k ∈ available_keys s' (time w) → k ∈ key0 :: keys').
    { intros k [_ Hk]%elem_of_available. by rewrite Hks' in Hk. }
    destruct (select_best_spec s' (available_keys s' (time w)))
      as (i & kb & Hbest & Hi & _); [by rewrite Hav|].
    rewrite Hav in Hbest. rewrite Hbest in Hrun.
    assert (Hlog : ∀ k t w', log w' = log w →
              extends w (emit (EvSelect k t) w') ([] ++ [EvSelect k t])).
    { intros k t w' Hw'. unfold extends, emit; simpl; by rewrite Hw'. }
    case_bool_decide as Hempty.
    + destruct (choice o key0 keys' w) as [kc wc] eqn:Hc.
      injection Hrun as <- <- <-.
      pose proof (choice_member key0 keys' w) as Hm. rewrite Hc in Hm. simpl in Hm.
      assert (Hwc : log wc = log w ∧ n_build wc = n_build w).
      { unfold choice in Hc. by injection Hc as _ <-. }
      split; [exact Hks'|]. split; [apply Hwc|].
      exists []. split; [constructor|]. split; [done|]. exists (time w).
      apply Hlog. apply Hwc.
    + injection Hrun as <- <- <-.
      split; [exact Hks'|]. split; [done|].
      exists []. split; [constructor|]. split.
      * apply Hsub. eapply list_elem_of_lookup_2. done.
      * exists (time w). by apply Hlog.
Qed.

Lemma list_remove_spec key (l : list string) :
  match list_remove key l with
  | Return l' => key ∈ l ∧ l' `sublist_of` l ∧ (NoDup l → key ∉ l')
  | Raise _ => key ∉ l
  end.
Proof.
  induction l as [|k l IH]; simpl; [apply not_elem_of_nil|].
  destruct (decide (key = k)) as [->|Hne].
  - split_and!; [by left|by apply sublist_cons|].
    by intros [? ?]%NoDup_cons.
  - destruct (list_remove key l) as [l'|e].
    + destruct IH as (Hin & Hsub & Hnd). split_and!; [by right|by apply sublist_skip|].
      intros [? ?]%NoDup_cons. apply not_elem_of_cons. auto.
    + by apply not_elem_of_cons.
Qed.

Lemma run_ok_prepend cur cur1 s s1 w w1 res evs :
  api_keys s1 = api_keys s → extends w w1 evs →
  (∀ k, EvBuild k ∈ evs → k ∈ api_keys s) →
  (∀ evs', attempts_capped cur1 evs' = true → attempts_capped cur (evs ++ evs') = true) →
  run_ok cur1 s1 res w1 → run_ok cur s res w.
Proof.
  intros Hk Hext Hb Hcap Hok r s2 w2 Hrun.
  apply Hok in Hrun as (Hsub & Hex & evs' & Hext' & Hb' & Hcap').
  rewrite Hk in Hsub. split_and!; [done|done|].
  exists (evs ++ evs'). split_and!; [by eapply extends_trans| |by apply Hcap].
  intros k [?|?]%elem_of_app; [auto|]. rewrite <- Hk. auto.
Qed.

Lemma run_ok_done cur key s s' w w' r :
  key ∈ api_keys s → api_keys s' = api_keys s → log w' = log w →
  run_ok cur s (Some (r, s', w')) w.
Proof.
  intros Hkey Hs' Hw' r' s2 w2 [= <- <- <-]. rewrite Hs'. split_and!; [done| |].
  - intros Hnil. rewrite Hnil in Hkey. by apply elem_of_nil in Hkey.
  - exists []. split_and!; [unfold extends; by rewrite app_nil_r, Hw'| |done].
    by intros k ?%elem_of_nil.
Qed.

Lemma remove_and_rotate_ok cur again key msg s w :
  key ∈ api_keys s →
  (∀ cur' s' w', run_ok cur' s' (again s' w') w') →
  run_ok cur s (remove_and_rotate again key msg s w) w.
Proof.
  intros Hkey Hagain r s2 w2 Hrun. unfold remove_and_rotate in Hrun.
  pose proof (list_remove_spec key (api_keys s)) as Hrm.
  destruct (list_remove key (api_keys s)) as [keys|e]; [|done].
  destruct Hrm as (_ & Hsub & _).
  destruct keys as [|k0 keys].
  - injection Hrun as <- <- <-. split_and!; [done|by eexists|].
    exists [EvRemove key]. split_and!; [done| |done].
    by intros k [=]%list_elem_of_singleton.
  - apply (Hagain cur) in Hrun as (Hsub' & Hex & evs & Hext & Hb & Hcap).
    split_and!; [by etrans|done|].
    exists (EvRemove key :: evs). split_and!; [| |done].
    + unfold extends in *. rewrite Hext. simpl. by rewrite <- app_assoc.
    + intros k [[=]|Hk]%elem_of_cons. apply Hb in Hk. simpl in Hk.
      eapply elem_of_sublist; done.
Qed.

Lemma handle_failure_ok cur again continue key rc e s w :
  key ∈ api_keys s →
  (∀ cur' s' w', run_ok cur' s' (again s' w') w') →
  (∀ s' w', api_keys s' = api_keys s → run_ok cur s' (continue (rc + 1) s' w') w') →
  run_ok cur s (handle_failure o again continue key rc e s w) w.
Proof.
  intros Hkey Hagain Hcont.
  assert (Hraise : ∀ s', api_keys s' = api_keys s → run_ok cur s (Some (Raise e, s', w)) w).
  { intros s' Hs'. by eapply run_ok_done. }
  destruct e as [|msg|msg|error_code error_reason|msg]; try by apply Hraise.
  unfold handle_failure. set (s1 := set_api_errors _ s).
  assert (Hrot : ∀ msg, run_ok cur s (remove_and_rotate again key msg s1 w) w).
  { intros msg.
    eapply (run_ok_prepend cur cur s s1 w w _ []);
      [done|apply extends_refl|by intros ? ?%elem_of_nil|done|].
    by apply remove_and_rotate_ok. }
  assert (Hsleep : ∀ d w' res, log w' = log w → run_ok cur s1 res (sleep o d w') →
            run_ok cur s res w).
  { intros d w' res Hw' Hres.
    eapply (run_ok_prepend cur cur s s1 w (sleep o d w') _ [EvSleep d]); [done| | |done|done].
    - unfold extends, sleep; simpl. by rewrite Hw'.
    - by intros k [=]%list_elem_of_singleton. }
  destruct (Str.contains "quota" _); [by apply Hrot|].
  destruct (backoff_delay o (rc + 1) w) as [d w'] eqn:Hbd.
  pose proof (backoff_delay_world (rc + 1) w) as (Hw & _).
  rewrite Hbd in Hw; simpl in Hw.
  case_bool_decide.
  { destruct (Str.contains "accessNotConfigured" _); [by apply Hrot|].
    eapply Hsleep; [done|by apply Hcont]. }
  case_bool_decide.
  { eapply Hsleep; [done|]. case_bool_decide; [apply Hagain|by apply Hcont]. }
  case_bool_decide; [eapply Hsleep; [done|by apply Hcont]|].
  case_bool_decide; [by apply Hrot|].
  case_bool_decide; [by eapply run_ok_done|].
  eapply Hsleep; [done|by apply Hcont].
Qed.

Lemma service_loop_ok again fuel : ∀ cur key rc s w,
  key ∈ api_keys s → Z.of_nat cur ≤ rc →
  (∀ cur' s' w', run_ok cur' s' (again s' w') w') →
  run_ok cur s (service_loop o again fuel key rc s w) w.
Proof.
  induction fuel as [|fuel IH]; intros cur key rc s w Hkey Hcur Hagain; [by intros ???|].
  cbn [service_loop].
  case_bool_decide as Hrc; [|by eapply run_ok_done].
  destruct (call_build o key w) as [rep w1] eqn:Hcb.
  assert (Hw1 : extends w w1 [EvBuild key]).
  { unfold call_build in Hcb. by injection Hcb as _ <-. }
  eapply (run_ok_prepend cur (S cur) s s w w1 _ [EvBuild key]); [done|done| | |].
  - by intros k [= ->]%list_elem_of_singleton.
  - intros evs' Hevs'. simpl. rewrite Hevs'.
    rewrite bool_decide_eq_true_2; [done|]. unfold max_retries in *. lia.
  - destruct rep as [|e]; [by eapply run_ok_done|].
    apply handle_failure_ok; [done|done|].
    intros s' w' Hs'. apply IH; [by rewrite Hs'|lia|done].
Qed.

Lemma create_youtube_service_ok fuel : ∀ cur s w,
  run_ok cur s (create_youtube_service o fuel s w) w.
Proof.
  induction fuel as [|fuel IH]; intros cur s w; [by intros ???|].
  cbn [create_youtube_service].
  destruct (get_next_api_key o (S fuel) s w) as [[[r s1] w1]|] eqn:Hsel;
    [|by intros ???].
  apply get_next_api_key_frame in Hsel as (Hk & _ & sleeps & Hsl & Hr).
  assert (Hnb : ∀ k evs, Forall is_sleep sleeps →
            EvBuild k ∈ sleeps ++ evs → EvBuild k ∈ evs).
  { intros k evs Hall [Hin|Hin]%elem_of_app; [|done].
    rewrite Forall_forall in Hall. by destruct (Hall _ Hin). }
  destruct r as [key|e].
  - destruct Hr as (Hin & t & Hext).
    eapply (run_ok_prepend cur 0 s s1 w w1 _ (sleeps ++ [EvSelect key t])); [done|done| | |].
    + intros k [=]%Hnb%list_elem_of_singleton. done.
    + intros evs' Hevs'. rewrite <- app_assoc. by rewrite attempts_capped_sleeps.
    + apply service_loop_ok; [by rewrite Hk|done|done].
  - destruct Hr as (-> & Hnil & Hext). intros r s2 w2 [= <- <- <-].
    rewrite Hk. split_and!; [done|by eexists|].
    exists sleeps. split_and!; [done| |].
    + intros k Hin. rewrite Forall_forall in Hsl. by destruct (Hsl _ Hin).
    + rewrite <- (app_nil_r sleeps). by rewrite attempts_capped_sleeps.
Qed.
End service_facts.



(** * Retry classification and backoff *)

Section retry_facts.
Import World Scraper.
Implicit Types (s : Scraper.t) (w : World.t) (k key : string) (r : result string).
Variable o : oracle.

Lemma after_backoff_log key rc w :
  log (after_backoff o key rc w) = log w ++ [EvBuild key; EvSleep (delay_at o (n_random w) rc)]
  ∧ n_build (after_backoff o key rc w) = S (n_build w)
  ∧ n_random (after_backoff o key rc w) = S (n_random w).
Proof.
  unfold after_backoff, backoff_delay, call_build, uniform, sleep, delay_at; simpl.
  by rewrite <- app_assoc.
Qed.

Lemma create_unfold fuel s w k s1 w1 :
  get_next_api_key o (S fuel) s w = Some (Return k, s1, w1) →
  create_youtube_service o (S fuel) s w
    = service_loop o (create_youtube_service o fuel) fuel k 0 s1 w1.
Proof. intros Hsel. cbn [create_youtube_service]. by rewrite Hsel. Qed.

Lemma service_loop_step again fuel key rc s w :
  rc < max_retries →
  service_loop o again (S fuel) key rc s w =
    match build o (n_build w) key with
    | Built => Some (Return key, s, (call_build o key w).2)
    | Failed e =>
        handle_failure o again (service_loop o again fuel key) key rc e s
          (call_build o key w).2
    end.
Proof.
  intros Hrc. cbn [service_loop]. rewrite bool_decide_eq_true_2 by done.
  unfold call_build. simpl. by destruct (build o (n_build w) key).
Qed.

Lemma service_loop_exit again fuel key rc s w :
  max_retries ≤ rc →
  service_loop o again (S fuel) key rc s w =
    Some (Raise (Exception "Failed to create YouTube service after 3 retries"), s, w).
Proof. intros Hrc. cbn [service_loop]. rewrite bool_decide_eq_false_2; [done|lia]. Qed.

Lemma handle_backed_off again continue key rc code reason s w :
  not_quota reason → backed_off code reason →
  handle_failure o again continue key rc (HttpError code reason) s w =
    continue (rc + 1) (bump_errors key s)
      (sleep o (backoff_delay o (rc + 1) w).1 (backoff_delay o (rc + 1) w).2).
Proof.
  intros Hq Hc. unfold handle_failure. unfold not_quota in Hq. rewrite Hq.
  destruct Hc as [[-> Hc]|Hc].
  - rewrite bool_decide_eq_true_2 by done. rewrite Hc.
    by destruct (backoff_delay o (rc + 1) w).
  - rewrite bool_decide_eq_false_2 by lia.
    destruct (backoff_delay o (rc + 1) w) eqn:Hbd.
    destruct (decide (code = 429)) as [->|Hne]; [|].
    + (* 429 is below 500 *) lia.
    + rewrite (bool_decide_eq_false_2 _ Hne).
      by rewrite bool_decide_eq_true_2 by done.
Qed.

Lemma handle_rate_limited again continue key rc reason s w :
  not_quota reason →
  handle_failure o again continue key rc (HttpError 429 reason) s w =
    (if bool_decide (2 ≤ rc + 1) then again else continue (rc + 1))
      (bump_errors key s)
      (sleep o (backoff_delay o (rc + 1) w).1 (backoff_delay o (rc + 1) w).2).
Proof.
  intros Hq. unfold handle_failure. unfold not_quota in Hq. rewrite Hq.
  rewrite bool_decide_eq_false_2 by lia. rewrite bool_decide_eq_true_2 by done.
  destruct (backoff_delay o (rc + 1) w). by case_bool_decide.
Qed.

Lemma handle_dropped again continue key rc code reason s w :
  not_quota reason → dropped_as_invalid code reason →
  ∃ msg, handle_failure o again continue key rc (HttpError code reason) s w =
    remove_and_rotate again key msg (bump_errors key s) w.
Proof.
  intros Hq Hc. unfold handle_failure. unfold not_quota in Hq. rewrite Hq.
  destruct Hc as [->|[-> Hc]].
  - eexists. rewrite bool_decide_eq_false_2 by lia.
    rewrite bool_decide_eq_false_2 by lia. rewrite bool_decide_eq_false_2 by lia.
    by rewrite bool_decide_eq_true_2 by done.
  - eexists. rewrite bool_decide_eq_true_2 by done. by rewrite Hc.
Qed.

(** A completed loop that still had a try left began with a remote
    call on its key. *)
Lemma service_loop_first again fuel key rc s w r s2 w2 :
  0 ≤ rc < max_retries → key ∈ api_keys s →
  (∀ cur' s' w', run_ok cur' s' (again s' w') w') →
  service_loop o again fuel key rc s w = Some (r, s2, w2) →
  ∃ rest, log w2 = log w ++ EvBuild key :: rest.
Proof.
  intros [Hrc0 Hrc] Hkey Hagain Hrun. destruct fuel as [|fuel]; [done|].
  rewrite service_loop_step in Hrun by done.
  assert (Hw : log (call_build o key w).2 = log w ++ [EvBuild key]) by done.
  destruct (build o (n_build w) key) as [|e].
  - injection Hrun as <- <- <-. exists []. done.
  - eapply (handle_failure_ok o 0) in Hrun as (_ & _ & evs & Hext & _); [|done|done|].
    + exists evs. unfold extends in Hext. rewrite Hext, Hw. by rewrite <- app_assoc.
    + intros s' w' Hs'. apply service_loop_ok; [by rewrite Hs'|lia|done].
Qed.

(** After a backed-off failure on the first try the same key is tried
    again, whatever the class of the failure. *)
Lemma create_retries_same_key fuel s w k s1 w1 r s2 w2 e :
  get_next_api_key o (S fuel) s w = Some (Return k, s1, w1) →
  build o (n_build w1) k = Failed e →
  (∀ again continue s w, handle_failure o again continue k 0 e s w =
     continue 1 (bump_errors k s)
       (sleep o (backoff_delay o 1 w).1 (backoff_delay o 1 w).2)) →
  create_youtube_service o (S fuel) s w = Some (r, s2, w2) →
  ∃ rest, log w2 =
    log w1 ++ [EvBuild k; EvSleep (delay_at o (n_random w1) 1); EvBuild k] ++ rest.
Proof.
  intros Hsel Hrep Hh Hrun. rewrite (create_unfold _ _ _ _ _ _ Hsel) in Hrun.
  pose proof (get_next_api_key_frame o _ _ _ _ _ _ Hsel) as (Hk & _ & _ & _ & Hin & _).
  destruct fuel as [|fuel]; [done|].
  rewrite service_loop_step, Hrep, Hh in Hrun by done.
  apply service_loop_first in Hrun as [rest Hlog]; [|done| |].
  - exists rest. rewrite Hlog.
    change (sleep _ _ _) with (after_backoff o k 1 w1).
    destruct (after_backoff_log k 1 w1) as (-> & _). by rewrite <- app_assoc.
  - simpl. by rewrite Hk.
  - intros cur' s' w'. apply create_youtube_service_ok.
Qed.
End retry_facts.

Section policy_facts.
Import World Scraper.
Implicit Types (s : Scraper.t) (w : World.t) (k key : string) (r : result string).
Variable o : oracle.

Lemma create_drops_invalid fuel s w k s1 w1 code reason r s2 w2 :
  get_next_api_key o (S fuel) s w = Some (Return k, s1, w1) →
  build o (n_build w1) k = Failed (HttpError code reason) →
  not_quota reason → dropped_as_invalid code reason →
  create_youtube_service o (S fuel) s w = Some (r, s2, w2) →
  ∃ rest, log w2 = log w1 ++ [EvBuild k; EvRemove k] ++ rest ∧
    (NoDup (api_keys s) → (EvBuild k ∉ rest) ∧ (k ∉ api_keys s2)).
Proof.
  intros Hsel Hrep Hq Hc Hrun. rewrite (create_unfold o _ _ _ _ _ _ Hsel) in Hrun.
  pose proof (get_next_api_key_frame o _ _ _ _ _ _ Hsel) as (Hk & _ & _ & _ & Hin & _).
  destruct fuel as [|fuel]; [done|].
  rewrite service_loop_step, Hrep in Hrun by done.
  destruct (handle_dropped o (create_youtube_service o (S fuel))
              (service_loop o (create_youtube_service o (S fuel)) fuel k)
              k 0 code reason s1 (call_build o k w1).2 Hq Hc) as [msg Hh].
  rewrite Hh in Hrun. unfold remove_and_rotate in Hrun.
  change (api_keys (bump_errors k s1)) with (api_keys s1) in Hrun.
  pose proof (list_remove_spec k (api_keys s1)) as Hrm.
  destruct (list_remove k (api_keys s1)) as [keys|e]; [|by rewrite Hk in Hrm].
  destruct Hrm as (_ & Hsub & Hnd). rewrite Hk in Hnd, Hsub.
  destruct keys as [|k0 keys].
  - injection Hrun as <- <- <-. exists []. split.
    { unfold emit, call_build; simpl. by rewrite <- app_assoc. }
    intros _. split; [apply not_elem_of_nil|]. simpl. apply not_elem_of_nil.
  - apply (create_youtube_service_ok o _ 0) in Hrun as (Hsub' & _ & evs & Hext & Hb & _).
    exists evs. split.
    + unfold extends in Hext. rewrite Hext. unfold emit, call_build; simpl.
      by rewrite <- !app_assoc.
    + intros Hnodup. specialize (Hnd Hnodup). simpl in Hb, Hsub'. split.
      * intros Hk'%Hb. done.
      * intros Hk'. apply Hnd. eapply elem_of_sublist; done.
Qed.

Lemma loop_backed_off_step again fuel key rc s w code reason :
  rc < max_retries →
  build o (n_build w) key = Failed (HttpError code reason) →
  not_quota reason → backed_off code reason →
  service_loop o again (S fuel) key rc s w =
    service_loop o again fuel key (rc + 1) (bump_errors key s)
      (after_backoff o key (rc + 1) w).
Proof.
  intros Hrc Hrep Hq Hc. rewrite service_loop_step, Hrep by done.
  by rewrite handle_backed_off.
Qed.

(** Three backed-off failures in a row use up the tries: the call
    raises, having slept after each of them. *)
Lemma create_gives_up fuel s w k s1 w1 :
  get_next_api_key o (S (4 + fuel)) s w = Some (Return k, s1, w1) →
  (∀ i, (i < 3)%nat → ∃ code reason,
      build o (n_build w1 + i) k = Failed (HttpError code reason) ∧
      not_quota reason ∧ backed_off code reason) →
  ∃ s2 w2,
    create_youtube_service o (S (4 + fuel)) s w =
      Some (Raise (Exception "Failed to create YouTube service after 3 retries"), s2, w2) ∧
    log w2 = log w1 ++
      [EvBuild k; EvSleep (delay_at o (n_random w1) 1);
       EvBuild k; EvSleep (delay_at o (S (n_random w1)) 2);
       EvBuild k; EvSleep (delay_at o (S (S (n_random w1))) 3)].
Proof.
  intros Hsel Hrep. rewrite (create_unfold o _ _ _ _ _ _ Hsel).
  destruct (Hrep 0%nat) as (c0 & r0 & H0 & Hq0 & Hb0); [lia|].
  destruct (Hrep 1%nat) as (c1 & r1 & H1 & Hq1 & Hb1); [lia|].
  destruct (Hrep 2%nat) as (c2 & r2 & H2 & Hq2 & Hb2); [lia|].
  rewrite Nat.add_0_r in H0.
  set (wa := after_backoff o k 1 w1).
  set (wb := after_backoff o k 2 wa).
  set (wc := after_backoff o k 3 wb).
  destruct (after_backoff_log o k 1 w1) as (Hla & Hba & Hra). fold wa in Hla, Hba, Hra.
  destruct (after_backoff_log o k 2 wa) as (Hlb & Hbb & Hrb). fold wb in Hlb, Hbb, Hrb.
  destruct (after_backoff_log o k 3 wb) as (Hlc & Hbc & Hrc). fold wc in Hlc, Hbc, Hrc.
  change (4 + fuel)%nat with (S (S (S (S fuel)))).
  rewrite (loop_backed_off_step _ _ _ 0 _ _ c0 r0) by done.
  change (0 + 1) with 1. fold wa.
  rewrite (loop_backed_off_step _ _ _ 1 _ _ c1 r1); [|done| |done|done].
  2: { rewrite Hba. by replace (S (n_build w1)) with (n_build w1 + 1)%nat by lia. }
  change (1 + 1) with 2. fold wb.
  rewrite (loop_backed_off_step _ _ _ 2 _ _ c2 r2); [|done| |done|done].
  2: { rewrite Hbb, Hba. by replace (S (S (n_build w1))) with (n_build w1 + 2)%nat by lia. }
  change (2 + 1) with 3. fold wc.
  rewrite service_loop_exit by done.
  eexists _, _. split; [done|].
  rewrite Hlc, Hlb, Hla, Hrb, Hra. by rewrite <- !app_assoc.
Qed.

Lemma delay_at_formula (n : nat) (rc : Z) :
  sane o →
  ∃ j, (0 <= j < 1)%Q ∧ (delay_at o n rc == base_delay * inject_Z (2 ^ rc) + j)%Q.
Proof.
  intros [_ Hr]. exists (random_random o n). split; [apply Hr|].
  unfold delay_at. ring.
Qed.
End policy_facts.

Section validator_facts.
Import World Validator.
Variable o : oracle.

Lemma validate_invalid fuel key v w code reason :
  cancel_validation v = false →
  build o (n_build w) key = Failed (HttpError code reason) →
  classified_invalid code reason →
  validate_api_key o (S fuel) key v w =
    Some (false, "invalid"%string,
          update_quota_info key "invalid" 0 (call_build o key w).2 v,
          (call_build o key w).2).
Proof.
  intros Hc Hrep [Hq Hcode]. cbn [validate_api_key]. rewrite Hc.
  unfold call_build at 1. rewrite Hrep. unfold not_quota in Hq. rewrite Hq.
  destruct Hcode as [->| ->]; done.
Qed.

Lemma validate_retries fuel key v w code reason :
  cancel_validation v = false →
  build o (n_build w) key = Failed (HttpError code reason) →
  not_quota reason → code = 429 ∨ 500 ≤ code →
  validate_api_key o (S fuel) key v w =
    validate_api_key o fuel key
      (update_quota_info key (if decide (code = 429) then "rate_limited" else "server_error")
         0 (call_build o key w).2 v)
      (sleep o 2 (call_build o key w).2).
Proof.
  intros Hc Hrep Hq Hcode. cbn [validate_api_key]. rewrite Hc.
  unfold call_build at 1. rewrite Hrep. unfold not_quota in Hq. rewrite Hq.
  destruct (decide (code = 429)) as [->|Hne]; [done|].
  destruct Hcode as [?|Hcode]; [done|].
  rewrite !bool_decide_eq_false_2 by lia. simpl.
  by rewrite bool_decide_eq_true_2.
Qed.
End validator_facts.






(** * The dynamic programme computes the Levenshtein distance *)

Section levenshtein_facts.
Import Dedup.
Local Open Scope nat_scope.
Implicit Types (a b p q : list ascii) (x y c : ascii).

Lemma lev_nil_l b : levenshtein [] b = length b.
Proof. by destruct b. Qed.

Lemma lev_nil_r a : levenshtein a [] = length a.
Proof. by destruct a. Qed.

Lemma lev_cons x a y b :
  levenshtein (x :: a) (y :: b) =
    Nat.min (levenshtein a (y :: b) + 1)
            (Nat.min (levenshtein (x :: a) b + 1) (levenshtein a b + subst_cost x y)).
Proof. reflexivity. Qed.

Lemma lev_sym a : ∀ b, levenshtein a b = levenshtein b a.
Proof.
  induction a as [|x a IHa]; intros b.
  - by rewrite lev_nil_l, lev_nil_r.
  - induction b as [|y b IHb].
    + by rewrite lev_nil_l, lev_nil_r.
    + rewrite !lev_cons. rewrite (IHa (y :: b)), IHb, (IHa b).
      unfold subst_cost. destruct (decide (x = y)) as [->|Hne].
      * rewrite decide_True by done. lia.
      * rewrite decide_False by congruence. lia.
Qed.

(** The same recurrence read from the last characters. *)
Lemma lev_snoc a : ∀ b x y,
  levenshtein (a ++ [x]) (b ++ [y]) =
    Nat.min (levenshtein a (b ++ [y]) + 1)
            (Nat.min (levenshtein (a ++ [x]) b + 1) (levenshtein a b + subst_cost x y)).
Proof.
  induction a as [|x0 a IHa].
  - intros b x y. induction b as [|y0 b IHb]; [reflexivity|].
    change ([] ++ [x]) with [x] in *. change ((y0 :: b) ++ [y]) with (y0 :: (b ++ [y])).
    rewrite !lev_cons, IHb. rewrite !lev_nil_l, !length_app. cbn [length]. lia.
  - intros b x y. induction b as [|y0 b IHb].
    + change ((x0 :: a) ++ [x]) with (x0 :: (a ++ [x])). change ([] ++ [y]) with [y].
      rewrite !lev_cons. specialize (IHa [] x y). change ([] ++ [y]) with [y] in IHa.
      rewrite IHa. rewrite !lev_nil_r, !length_app. cbn [length]. lia.
    + pose proof (IHa (y0 :: b) x y) as A1. pose proof (IHa b x y) as A3.
      change ((x0 :: a) ++ [x]) with (x0 :: (a ++ [x])) in *.
      change ((y0 :: b) ++ [y]) with (y0 :: (b ++ [y])) in *.
      rewrite (lev_cons x0 (a ++ [x]) y0 (b ++ [y])), A1, IHb, A3.
      rewrite (lev_cons x0 a y0 (b ++ [y])), (lev_cons x0 (a ++ [x]) y0 b),
        (lev_cons x0 a y0 b).
      rewrite <- !Nat.add_min_distr_r.
      apply Nat.le_antisymm; repeat apply Nat.min_glb; rewrite !Nat.min_le_iff; lia.
Qed.

Lemma row_from_cons p q rest :
  row_from p q rest = levenshtein p q :: tail (row_from p q rest).
Proof. by destruct rest. Qed.

Lemma row_from_first q rest : row_from [] q rest = seq (length q) (length rest + 1).
Proof.
  revert q. induction rest as [|c r IH]; intros q; simpl.
  - by rewrite lev_nil_l.
  - rewrite lev_nil_l, IH, length_app. simpl.
    by replace (length q + 1) with (S (length q)) by lia.
Qed.

Lemma row_cells_spec p c1 rest : ∀ q,
  row_cells c1 rest (row_from p q rest) (levenshtein (p ++ [c1]) q)
  = tail (row_from (p ++ [c1]) q rest).
Proof.
  induction rest as [|c2 r IH]; intros q; [done|].
  cbn [row_from tail]. rewrite (row_from_cons p (q ++ [c2]) r).
  cbn [row_cells]. rewrite <- (row_from_cons p (q ++ [c2]) r).
  fold (subst_cost c1 c2). rewrite <- lev_snoc. rewrite IH.
  by rewrite <- row_from_cons.
Qed.

Lemma rows_spec s2 s1 : ∀ p,
  rows s1 s2 (length p) (row_from p [] s2) = row_from (p ++ s1) [] s2.
Proof.
  induction s1 as [|c1 s1 IH]; intros p; simpl.
  - by rewrite app_nil_r.
  - replace (length p + 1) with (levenshtein (p ++ [c1]) [])
      by (rewrite lev_nil_r, length_app; done).
    rewrite row_cells_spec, <- row_from_cons.
    replace (S (length p)) with (length (p ++ [c1])) by (rewrite length_app; simpl; lia).
    rewrite IH. by rewrite <- app_assoc.
Qed.

Lemma last_row_from p rest : ∀ q,
  List.last (row_from p q rest) 0 = levenshtein p (q ++ rest).
Proof.
  induction rest as [|c r IH]; intros q.
  - by rewrite app_nil_r.
  - cbn [row_from]. specialize (IH (q ++ [c])).
    destruct (row_from p (q ++ [c]) r) as [|n l] eqn:E.
    { by rewrite row_from_cons in E. }
    change (List.last (levenshtein p q :: n :: l) 0) with (List.last (n :: l) 0).
    rewrite IH. by rewrite <- app_assoc.
Qed.

(** The dynamic programme of [_levenshtein_ratio] computes the
    Levenshtein distance. *)
Lemma dp_distance_spec s1 s2 : dp_distance s1 s2 = levenshtein s1 s2.
Proof.
  unfold dp_distance.
  change (seq 0 (length s2 + 1)) with (seq (length (@nil ascii)) (length s2 + 1)).
  rewrite <- (row_from_first [] s2).
  change (rows s1 s2 0) with (rows s1 s2 (length (@nil ascii))).
  rewrite rows_spec. apply last_row_from.
Qed.

Lemma lev_le_max a : ∀ b, levenshtein a b ≤ Nat.max (length a) (length b).
Proof.
  induction a as [|x a IHa]; intros b.
  - rewrite lev_nil_l. lia.
  - destruct b as [|y b].
    + rewrite lev_nil_r. lia.
    + rewrite lev_cons. specialize (IHa b). unfold subst_cost. simpl.
      destruct (decide (x = y)); lia.
Qed.
End levenshtein_facts.


(** * Properties of the similarity score *)

Section similarity_facts.
Import Dedup.
Implicit Types (s u e : string).

Lemma len_list_ascii s : Str.len s = length (list_ascii_of_string s).
Proof. unfold Str.len. induction s as [|c s IH]; simpl; [done|by rewrite IH]. Qed.

Lemma lev_refl (a : list ascii) : levenshtein a a = 0%nat.
Proof.
  induction a as [|x a IH]; [done|].
  rewrite lev_cons, IH. unfold subst_cost. rewrite decide_True by done. lia.
Qed.

Lemma edit_ratio_sym u1 u2 : edit_ratio u1 u2 = edit_ratio u2 u1.
Proof. unfold edit_ratio. by rewrite lev_sym, Nat.max_comm. Qed.

Lemma frac_range (d m : nat) :
  (d ≤ m)%nat →
  (0 <= inject_Z (Z.of_nat d) / inject_Z (Z.of_nat m) <= 1)%Q.
Proof.
  intros Hdm. destruct m as [|m].
  - assert (d = 0%nat) as -> by lia. simpl. split; discriminate.
  - assert (Hpos : (0 < inject_Z (Z.of_nat (S m)))%Q).
    { change 0%Q with (inject_Z 0). rewrite <- Zlt_Qlt. lia. }
    split.
    + apply Qle_shift_div_l; [done|]. rewrite Qmult_0_l.
      change 0%Q with (inject_Z 0). rewrite <- Zle_Qle. lia.
    + apply Qle_shift_div_r; [done|]. rewrite Qmult_1_l. rewrite <- Zle_Qle. lia.
Qed.

Lemma edit_ratio_range u1 u2 : (0 <= edit_ratio u1 u2 <= 1)%Q.
Proof.
  unfold edit_ratio. rewrite !len_list_ascii.
  pose proof (frac_range _ _ (lev_le_max (list_ascii_of_string u1)
                                        (list_ascii_of_string u2))) as [? ?].
  split; lra.
Qed.

Lemma edit_ratio_refl u : (edit_ratio u u == 1)%Q.
Proof.
  unfold edit_ratio. rewrite lev_refl. simpl. unfold Qdiv. rewrite Qmult_0_l. lra.
Qed.

(** On different strings [_levenshtein_ratio] is the specified score. *)
Lemma levenshtein_ratio_spec s1 s2 :
  s1 ≠ s2 → _levenshtein_ratio s1 s2 = edit_ratio s1 s2.
Proof.
  intros Hne. unfold _levenshtein_ratio. rewrite decide_False by done.
  assert (Hlen : ∀ a b, a ≠ b → (Str.len b ≤ Str.len a)%nat → Str.len a ≠ 0%nat).
  { intros a b Hab Hle Ha. rewrite !len_list_ascii in *.
    apply Hab. rewrite <- (string_of_list_ascii_of_string a),
                       <- (string_of_list_ascii_of_string b).
    destruct (list_ascii_of_string a); [|done].
    destruct (list_ascii_of_string b); [done|simpl in *; lia]. }
  case_bool_decide as Hlt.
  - rewrite decide_False by (apply (Hlen s2 s1); [congruence|lia]).
    rewrite dp_distance_spec. rewrite edit_ratio_sym. done.
  - rewrite decide_False by (apply (Hlen s1 s2); [congruence|lia]).
    by rewrite dp_distance_spec.
Qed.

Lemma levenshtein_ratio_eq s1 s2 : (_levenshtein_ratio s1 s2 == edit_ratio s1 s2)%Q.
Proof.
  destruct (decide (s1 = s2)) as [->|Hne].
  - rewrite edit_ratio_refl. unfold _levenshtein_ratio. by rewrite decide_True.
  - by rewrite levenshtein_ratio_spec.
Qed.

Lemma levenshtein_ratio_sym s1 s2 : _levenshtein_ratio s1 s2 = _levenshtein_ratio s2 s1.
Proof.
  destruct (decide (s1 = s2)) as [->|Hne]; [done|].
  rewrite !levenshtein_ratio_spec by congruence. apply edit_ratio_sym.
Qed.

Lemma levenshtein_ratio_range s1 s2 : (0 <= _levenshtein_ratio s1 s2 <= 1)%Q.
Proof. rewrite levenshtein_ratio_eq. apply edit_ratio_range. Qed.

Lemma similarity_sym e1 e2 :
  calculate_email_similarity e1 e2 = calculate_email_similarity e2 e1.
Proof.
  destruct (decide (e1 = e2)) as [->|Hne]; [done|].
  unfold calculate_email_similarity.
  rewrite (decide_False (P := e1 = e2)) by done.
  rewrite (decide_False (P := e2 = e1)) by congruence.
  rewrite (orb_comm (negb (Str.contains_char "@" e2))).
  destruct (_ || _); [done|].
  destruct (Str.split_once "@" (Str.lower e1)) as [u1 d1].
  destruct (Str.split_once "@" (Str.lower e2)) as [u2 d2].
  destruct (decide (d1 ≠ d2)) as [Hd|Hd].
  - by rewrite (decide_True (P := d2 ≠ d1)) by congruence.
  - rewrite (decide_False (P := d2 ≠ d1)) by (intros ?; apply Hd; congruence).
    rewrite (orb_comm (bool_decide (Str.len u2 ≤ 3)%nat)).
    destruct (_ || _).
    + destruct (decide (u1 = u2)) as [->|Hu]; [by rewrite (decide_True (P := u2 = u2))|].
      by rewrite (decide_False (P := u2 = u1)) by congruence.
    + rewrite (orb_comm (Str.startswith u2 u1)).
      by rewrite (levenshtein_ratio_sym u2 u1).
Qed.

Lemma similarity_range e1 e2 : (0 <= calculate_email_similarity e1 e2 <= 1)%Q.
Proof.
  unfold calculate_email_similarity.
  destruct (decide (e1 = e2)); [split; discriminate|].
  destruct (_ || _); [split; discriminate|].
  destruct (Str.split_once "@" (Str.lower e1)) as [u1 d1].
  destruct (Str.split_once "@" (Str.lower e2)) as [u2 d2].
  destruct (decide (d1 ≠ d2)); [split; discriminate|].
  destruct (_ || _).
  - destruct (decide (u1 = u2)); split; discriminate.
  - pose proof (levenshtein_ratio_range u1 u2) as [Hlo Hhi].
    destruct (_ || _); [|done].
    destruct (Qltb _ 1) eqn:Hb.
    + apply Qltb_spec in Hb. unfold prefix_bonus in *. split; lra.
    + split; discriminate.
Qed.

(** The score in words: nothing across domains; an exact match when a
    local part has at most three characters; otherwise the edit ratio,
    raised by the bonus and capped at one when one local part begins
    the other. *)
Lemma similarity_formula e1 e2 u1 d1 u2 d2 :
  Str.contains_char "@" e1 = true → Str.contains_char "@" e2 = true →
  Str.split_once "@" (Str.lower e1) = (u1, d1) →
  Str.split_once "@" (Str.lower e2) = (u2, d2) →
  (d1 ≠ d2 → calculate_email_similarity e1 e2 = 0%Q) ∧
  (d1 = d2 → (Str.len u1 ≤ 3)%nat ∨ (Str.len u2 ≤ 3)%nat →
     calculate_email_similarity e1 e2 = if decide (u1 = u2) then 1%Q else 0%Q) ∧
  (d1 = d2 → (3 < Str.len u1)%nat → (3 < Str.len u2)%nat →
     (calculate_email_similarity e1 e2 ==
        if Str.startswith u1 u2 || Str.startswith u2 u1
        then Qmin 1 (edit_ratio u1 u2 + prefix_bonus)
        else edit_ratio u1 u2)%Q).
Proof.
  intros H1 H2 Hs1 Hs2. unfold calculate_email_similarity.
  destruct (decide (e1 = e2)) as [->|Hne].
  - rewrite Hs1 in Hs2. injection Hs2 as <- <-. split_and!.
    + done.
    + intros _ _. by rewrite decide_True.
    + intros _ _ _. assert (Hp : Str.startswith u1 u1 = true).
      { unfold Str.startswith. apply prefix_correct.
        clear. induction u1 as [|c u IH]; simpl; [done|by rewrite IH]. }
      rewrite Hp. simpl. rewrite edit_ratio_refl. unfold prefix_bonus.
      symmetry. apply Q.min_l. lra.
  - rewrite H1, H2, Hs1, Hs2. simpl. split_and!.
    + intros Hd. by rewrite decide_True.
    + intros -> Hshort. rewrite decide_False by tauto.
      destruct Hshort as [Hs|Hs].
      * by rewrite (bool_decide_eq_true_2 _ Hs).
      * rewrite (bool_decide_eq_true_2 _ Hs). by rewrite orb_true_r.
    + intros -> Hl1 Hl2. rewrite decide_False by tauto.
      rewrite !bool_decide_eq_false_2 by lia. simpl.
      pose proof (levenshtein_ratio_eq u1 u2) as Hr.
      destruct (_ || _); [|done].
      destruct (Qltb _ 1) eqn:Hb.
      * apply Qltb_spec in Hb. rewrite Hr in Hb. rewrite Hr.
        symmetry. apply Q.min_r. lra.
      * apply Qltb_false in Hb. rewrite Hr in Hb. symmetry. by apply Q.min_l.
Qed.
End similarity_facts.

(** C10.  For all strings, the similarity score does not depend on the
    order of its two arguments, and it lies between 0 and 1; the
    arguments need not be well-formed addresses. *)
Theorem similarity_symmetric_and_bounded (a b : string) :
  Dedup.calculate_email_similarity a b = Dedup.calculate_email_similarity b a ∧
  (0 <= Dedup.calculate_email_similarity a b <= 1)%Q.
Proof. split; [apply similarity_sym | apply similarity_range]. Qed.



(** * Properties of the grouping pass *)

Section grouping_facts.
Import Dedup.
Variable thr : Q.
Implicit Types (email other e : string) (l emails pulled : list string)
               (processed : gset string) (g : group) (gs : list group).

Lemma elem_of_all_members x gs : x ∈ all_members gs ↔ ∃ g, x ∈ members g ∧ g ∈ gs.
Proof.
  unfold all_members. induction gs as [|g gs IH].
  - split; [by intros ?%elem_of_nil|by intros (? & _ & ?%elem_of_nil)].
  - rewrite fmap_cons. cbn [concat]. rewrite elem_of_app, IH. split.
    + intros [?|(g' & ? & ?)]; [exists g; split; [done|by left]|].
      exists g'. split; [done|by right].
    + intros (g' & ? & [->|?]%elem_of_cons); [by left|right; eauto].
Qed.

(** What the inner loop adds: new addresses of the scanned list, each
    once, none of them the seed or already processed. *)
Lemma pull_fold email l : ∀ pulled processed,
  ∃ new,
    foldl (pull_step thr email) (pulled, processed) l
      = (pulled ++ new, list_to_set new ∪ processed) ∧
    NoDup new ∧
    ∀ x, x ∈ new → x ∈ l ∧ (x ∉ processed) ∧ x ≠ email.
Proof.
  induction l as [|other l IH]; intros pulled processed; simpl.
  - exists []. rewrite app_nil_r. split_and!; [|constructor|by intros ? ?%elem_of_nil].
    f_equal. set_solver.
  - destruct (bool_decide (other ≠ email) && bool_decide (other ∉ processed)) eqn:Hc.
    + apply andb_true_iff in Hc as [Hne%bool_decide_eq_true Hnp%bool_decide_eq_true].
      destruct (similar thr email other).
      * destruct (IH (pulled ++ [other]) ({[other]} ∪ processed))
          as (new & -> & Hnd & Hnew).
        exists (other :: new). split_and!.
        -- rewrite <- app_assoc. f_equal. set_solver.
        -- constructor; [|done]. intros Hin. apply Hnew in Hin as (_ & Hin & _).
           set_solver.
        -- intros x [->|Hx]%elem_of_cons; [by split_and!; [left|..]|].
           apply Hnew in Hx as (? & ? & ?). split_and!; [by right|set_solver|done].
      * destruct (IH pulled processed) as (new & -> & Hnd & Hnew).
        exists new. split_and!; [done|done|].
        intros x Hx. apply Hnew in Hx as (? & ? & ?). split_and!; [by right|done|done].
    + destruct (IH pulled processed) as (new & -> & Hnd & Hnew).
      exists new. split_and!; [done|done|].
      intros x Hx. apply Hnew in Hx as (? & ? & ?). split_and!; [by right|done|done].
Qed.

Lemma all_members_snoc gs g : all_members (gs ++ [g]) = all_members gs ++ members g.
Proof. unfold all_members. by rewrite fmap_app, concat_app; simpl; rewrite app_nil_r. Qed.

Lemma group_step_ok emails gs processed email :
  email ∈ emails → groups_ok emails gs processed →
  groups_ok emails (group_step thr emails (gs, processed) email).1
                   (group_step thr emails (gs, processed) email).2.
Proof.
  intros Hin (Hnd & Hproc & Hsub). unfold group_step.
  case_bool_decide as Hp; [done|].
  destruct (pull_fold email emails [] ({[email]} ∪ processed)) as (new & -> & Hnew & Hx).
  simpl. unfold groups_ok. rewrite all_members_snoc. unfold members; simpl.
  split_and!.
  - apply NoDup_app. split_and!; [done| |].
    + intros x Hx1 [->|Hx2]%elem_of_cons.
      * apply Hp. by apply Hproc.
      * apply Hx in Hx2 as (_ & Hx2 & _). apply Hx2. apply Hproc in Hx1. set_solver.
    + constructor; [|done]. intros Hx2. apply Hx in Hx2 as (_ & _ & ?). done.
  - intros x. rewrite elem_of_app, elem_of_cons. specialize (Hproc x). set_solver.
  - intros x [?|[->|Hx2]%elem_of_cons]%elem_of_app; [auto|done|].
    by apply Hx in Hx2 as (? & _).
Qed.

Lemma group_fold_ok emails l : ∀ gs processed,
  (∀ x, x ∈ l → x ∈ emails) → groups_ok emails gs processed →
  groups_ok emails (foldl (group_step thr emails) (gs, processed) l).1
                   (foldl (group_step thr emails) (gs, processed) l).2.
Proof.
  induction l as [|email l IH]; intros gs processed Hl Hok; [done|].
  cbn [foldl].
  destruct (group_step thr emails (gs, processed) email) as [gs' processed'] eqn:Hs.
  apply IH; [intros x Hx; apply Hl; by right|].
  pose proof (group_step_ok emails gs processed email (Hl _ (ltac:(left))) Hok) as Hok'.
  by rewrite Hs in Hok'.
Qed.

Lemma group_similar_ok emails :
  NoDup (all_members (group_similar thr emails)) ∧
  ∀ x, x ∈ all_members (group_similar thr emails) → x ∈ emails.
Proof.
  unfold group_similar.
  destruct (group_fold_ok emails emails [] ∅) as (Hnd & _ & Hsub); [done| |done].
  split_and!; [constructor|set_solver|by intros ? ?%elem_of_nil].
Qed.

Lemma min_by_member common best l : min_by common best l ∈ best :: l.
Proof.
  revert best. induction l as [|e l IH]; intros best; cbn [min_by]; [by left|].
  specialize (IH (if key_lt (sort_key common e) (sort_key common best) then e else best)).
  destruct (key_lt _ _); [by right|].
  apply elem_of_cons in IH as [->|IH]; [by left|by do 2 right].
Qed.

Lemma best_email_member common g : best_email common g ∈ members g.
Proof.
  unfold best_email, members. destruct (g.2) as [|e l] eqn:Hg; [by left|].
  apply min_by_member.
Qed.

(** One representative per group: no address twice, all from the input. *)
Lemma representatives_ok common emails :
  NoDup (best_email common <$> group_similar thr emails) ∧
  ∀ x, x ∈ best_email common <$> group_similar thr emails → x ∈ emails.
Proof.
  destruct (group_similar_ok emails) as [Hnd Hsub].
  set (gs := group_similar thr emails) in *. clearbody gs. split.
  - clear Hsub. induction gs as [|g gs IH]; [constructor|].
    change (all_members (g :: gs)) with (members g ++ all_members gs) in Hnd.
    apply NoDup_app in Hnd as (_ & Hdisj & Hnd).
    rewrite fmap_cons. constructor; [|by apply IH].
    intros (g' & Heq & Hg')%list_elem_of_fmap.
    apply (Hdisj (best_email common g)); [apply best_email_member|].
    rewrite Heq. apply elem_of_all_members. exists g'. split; [|done].
    apply best_email_member.
  - intros x (g & -> & Hg)%list_elem_of_fmap. apply Hsub.
    apply elem_of_all_members. exists g. split; [apply best_email_member|done].
Qed.

(** The inner loop pulls nothing in when every other address is
    processed already or is not similar to the seed. *)
Lemma pull_fold_nothing email l : ∀ processed,
  (∀ x, x ∈ l → x = email ∨ x ∈ processed ∨ similar thr email x = false) →
  foldl (pull_step thr email) ([], processed) l = ([], processed).
Proof.
  induction l as [|other l IH]; intros processed Hl; [done|].
  simpl. destruct (Hl other (ltac:(left))) as [->|[Hp|Hs]].
  - rewrite bool_decide_eq_false_2 by tauto. simpl. apply IH.
    intros x Hx. apply Hl. by right.
  - rewrite (bool_decide_eq_false_2 (other ∉ processed)) by tauto.
    rewrite andb_false_r. apply IH. intros x Hx. apply Hl. by right.
  - rewrite Hs. destruct (_ && _); apply IH; intros x Hx; apply Hl; by right.
Qed.

Lemma group_step_alone emails gs processed email :
  email ∉ processed →
  (∀ x, x ∈ emails →
        x = email ∨ x ∈ {[email]} ∪ processed ∨ similar thr email x = false) →
  group_step thr emails (gs, processed) email
    = (gs ++ [(email, [])], {[email]} ∪ processed).
Proof.
  intros Hp Hall. unfold group_step. rewrite bool_decide_eq_false_2 by done.
  by rewrite pull_fold_nothing.
Qed.

(** On a list without repetitions whose addresses are pairwise not
    similar, every address ends alone in its group. *)
Lemma group_fold_singletons emails rest : ∀ pre,
  emails = pre ++ rest → NoDup emails →
  (∀ x y, x ∈ emails → y ∈ emails → x ≠ y → similar thr x y = false) →
  foldl (group_step thr emails) ((λ e, (e, [])) <$> pre, list_to_set pre) rest
    = ((λ e, (e, [])) <$> emails, list_to_set emails).
Proof.
  induction rest as [|email rest IH]; intros pre Hemails Hnd Hdis.
  - rewrite app_nil_r in Hemails. by subst.
  - cbn [foldl].
    assert (Hnp : email ∉ pre).
    { rewrite Hemails in Hnd. apply NoDup_app in Hnd as (_ & Hd & _).
      intros Hin. apply (Hd _ Hin). by left. }
    rewrite group_step_alone.
    + replace ((((λ e : string, (e, @nil string)) <$> pre) ++ [(email, [])])%list)
        with ((λ e : string, (e, @nil string)) <$> (pre ++ [email]))
        by (by rewrite fmap_app).
      replace ({[email]} ∪ list_to_set pre : gset string)
        with (list_to_set (pre ++ [email]) : gset string) by set_solver.
      apply IH; [by rewrite <- app_assoc|done|done].
    + set_solver.
    + intros x Hx. destruct (decide (x = email)) as [->|Hne]; [by left|right].
      destruct (decide (x ∈ pre)) as [Hpre|Hpre]; [left; set_solver|right].
      apply Hdis; [rewrite Hemails; set_solver|done|congruence].
Qed.

Lemma group_similar_singletons emails :
  NoDup emails →
  (∀ x y, x ∈ emails → y ∈ emails → x ≠ y → similar thr x y = false) →
  group_similar thr emails = (λ e, (e, [])) <$> emails.
Proof.
  intros Hnd Hdis. unfold group_similar.
  pose proof (group_fold_singletons emails emails [] eq_refl Hnd Hdis) as Hfold.
  change ((λ e : string, (e, @nil string)) <$> [], list_to_set [] : gset string)
    with (@nil group, ∅ : gset string) in Hfold.
  by rewrite Hfold.
Qed.

Lemma representatives_fixed common emails :
  NoDup emails →
  (∀ x y, x ∈ emails → y ∈ emails → x ≠ y → similar thr x y = false) →
  best_email common <$> group_similar thr emails = emails.
Proof.
  intros Hnd Hdis. rewrite group_similar_singletons by done.
  rewrite <- list_fmap_compose. by rewrite list_fmap_id.
Qed.
End grouping_facts.




(** * Worked examples *)

(** The string helpers at small inputs. *)
Example strip_removes_outer_blanks : Str.strip "  ab c 12 " = "ab c 12"%string.
Proof. reflexivity. Qed.

Example split_once_cuts_at_first_at :
  Str.split_once "@" "a@b@c" = ("a", "b@c")%string.
Proof. reflexivity. Qed.

Example after_last_takes_the_domain : Str.after_last "@" "a@b@c" = "c"%string.
Proof. reflexivity. Qed.

Example quota_is_matched_after_lowering :
  Str.contains "quota" "the Quota exceeded" = false ∧
  Str.contains "quota" (Str.lower "the Quota exceeded") = true.
Proof. split; reflexivity. Qed.

(** [normalize_email]: role prefix, separators and trailing digits go;
    a Gmail address also loses its dots and its [+tag]. *)
Example normalize_email_examples :
  Dedup.normalize_email "Contact.Info-Bob123@Example.com " = "bob@example.com"%string ∧
  Dedup.normalize_email "j.o.h.n+news@googlemail.com" = "john@gmail.com"%string.
Proof. split; vm_compute; reflexivity. Qed.

(** Three edits on seven characters. *)
Example levenshtein_ratio_kitten_sitting :
  (Dedup._levenshtein_ratio "kitten" "sitting" == 4 # 7)%Q.
Proof. vm_compute. reflexivity. Qed.

(** A cache of capacity zero cannot take an entry: [put] pops from the
    empty dictionary. *)
Example cache_of_capacity_zero_rejects_put :
  LRUCache.put "a"%string 1 (LRUCache.init 0) = Raise KeyError.
Proof. reflexivity. Qed.

(** An empty string in the pool defeats the ranking: it wins with no
    recorded error, reads as no winner, and the random choice hands out
    the key with the error. *)
Example empty_key_falls_back_to_random_choice :
  (λ r, r.1.1) <$>
    Scraper.get_next_api_key always_built 2
      (Scraper.set_api_errors (<["k"%string := 1]> ∅) (fresh_pool ["k"; ""]%string))
      (World.start 100)
  = Some (Return "k"%string).
Proof. vm_compute. reflexivity. Qed.

(** The retry counter is shared by the error classes: a rate-limit
    answer that follows a server error is already the second failure,
    so the call moves to the next key after one retry, and the first key
    stays in the pool. *)
Example rate_limit_after_server_error_rotates :
  (λ r, (built_keys (World.log r.2), Scraper.api_keys r.1.2)) <$>
    Scraper.create_youtube_service
      (answering [HttpError 500 "backendError"; HttpError 429 "rateLimitExceeded"]) 10
      (fresh_pool ["k1"; "k2"]%string) (World.start 100)
  = Some (["k1"; "k1"; "k2"]%string, ["k1"; "k2"]%string).
Proof. vm_compute. reflexivity. Qed.


(** * The theorems at concrete inputs *)

Lemma always_built_sane : World.sane always_built.
Proof. split; intros n; simpl; lra. Defined.







(** C7 at capacity 2 and four calls. *)
Lemma lru_cache_contract_witness :
  0 < 2 ∧
  ∃ c, LRUCache.run [LRUCache.Put "a"%string 1%nat; LRUCache.Put "b"%string 2%nat;
                     LRUCache.Get "a"%string; LRUCache.Put "c"%string 3%nat]
                    (LRUCache.init 2) = Return c ∧
       LRUCache.len c ≤ 2.
Proof.
  assert (Hpos : 0 < 2) by lia.
  split; [exact Hpos|].
  destruct (lru_cache_contract (K:=string) (V:=nat) 2
              [LRUCache.Put "a"%string 1%nat; LRUCache.Put "b"%string 2%nat;
               LRUCache.Get "a"%string; LRUCache.Put "c"%string 3%nat] Hpos)
    as (c & Hrun & Hlen & _).
  exists c. split; [exact Hrun | exact Hlen].
Defined.




(** * Properties of the key files *)

Section string_facts.
Local Open Scope string_scope.
Implicit Types (s t : string) (c : ascii).

Lemma rstrip_with_head drop c s :
drop c = false → ∃ r, Str.rstrip_with drop (String c s) = String c r.
Proof.
intros Hd. simpl. destruct (Str.rstrip_with drop s); rewrite ?Hd; eauto.
Qed.

Lemma lstrip_cases s :
Str.lstrip s = "" ∨ ∃ c t, Str.lstrip s = String c t ∧ Str.is_space c = false.
Proof.
induction s as [|a s IH]; simpl; [by left|].
destruct (Str.is_space a) eqn:Ha; [done|]. right. eauto.
Qed.

Lemma strip_head s :
Str.strip s ≠ "" →
∃ c t r, Str.lstrip s = String c t ∧ Str.is_space c = false ∧ Str.strip s = String c r.
Proof.
unfold Str.strip. intros Hne.
destruct (lstrip_cases s) as [Hl|(c & t & Hl & Hc)].
- rewrite Hl in Hne. done.
- rewrite Hl. destruct (rstrip_with_head Str.is_space c t Hc) as [r Hr].
  eauto 10.
Qed.

Lemma rstrip_with_idemp drop s :
Str.rstrip_with drop (Str.rstrip_with drop s) = Str.rstrip_with drop s.
Proof.
induction s as [|c s IH]; simpl; [done|].
destruct (Str.rstrip_with drop s) as [|a r] eqn:Hr.
- destruct (drop c) eqn:Hd; simpl; [done|]. by rewrite Hd.
- simpl in *. by rewrite IH.
Qed.

Lemma strip_idemp s : Str.strip (Str.strip s) = Str.strip s.
Proof.
destruct (decide (Str.strip s = "")) as [He|Hne]; [by rewrite He|].
destruct (strip_head s Hne) as (c & t & r & Hl & Hc & Hs).
unfold Str.strip at 1. rewrite Hs. simpl. rewrite Hc.
rewrite <- Hs. unfold Str.strip. apply rstrip_with_idemp.
Qed.

Lemma contains_char_lstrip c s :
Str.contains_char c (Str.lstrip s) = true → Str.contains_char c s = true.
Proof.
induction s as [|a s IH]; simpl; [done|].
destruct (Str.is_space a); [|done]. intros H. destruct (decide (a = c)); auto.
Qed.

Lemma contains_char_rstrip drop c s :
Str.contains_char c (Str.rstrip_with drop s) = true → Str.contains_char c s = true.
Proof.
induction s as [|a s IH]; simpl; [done|].
destruct (Str.rstrip_with drop s) as [|b r] eqn:Hr.
- destruct (drop a); simpl; [done|]. destruct (decide (a = c)); done.
- simpl in *. destruct (decide (a = c)); [done|]. exact IH.
Qed.

Lemma contains_char_strip c s :
Str.contains_char c s = false → Str.contains_char c (Str.strip s) = false.
Proof.
intros H. destruct (Str.contains_char c (Str.strip s)) eqn:Hc; [|done].
apply contains_char_rstrip, contains_char_lstrip in Hc. congruence.
Qed.

Lemma split_once_fst_free c s : Str.contains_char c (Str.split_once c s).1 = false.
Proof.
induction s as [|a s IH]; simpl; [done|].
destruct (decide (a = c)); [done|].
destruct (Str.split_once c s) as [p q]. simpl in *.
destruct (decide (a = c)); done.
Qed.

Lemma lstrip_split_once c0 s c t :
Str.is_space c0 = false →
Str.lstrip s = String c t → Str.is_space c = false → c ≠ c0 →
∃ t', Str.lstrip (Str.split_once c0 s).1 = String c t'.
Proof.
intros H0. induction s as [|a s IH]; simpl; [done|].
intros Hl Hc Hne. destruct (Str.is_space a) eqn:Ha.
- destruct (decide (a = c0)) as [->|]; [congruence|].
  destruct (Str.split_once c0 s) as [p q]. simpl in *. rewrite Ha. by apply IH.
- simplify_eq. destruct (decide (c = c0)); [done|].
  destruct (Str.split_once c0 _) as [p q]. simpl. rewrite Ha. eauto.
Qed.

Lemma key_line_text line :
APIKeyHandler.is_key_line line = true →
Str.strip (Str.split_once "#" line).1 ≠ "".
Proof.
unfold APIKeyHandler.is_key_line. rewrite andb_true_iff, !negb_true_iff.
intros [Hne Hst]. apply String.eqb_neq in Hne.
destruct (strip_head line Hne) as (c & t & r & Hl & Hc & Hs).
rewrite Hs in Hst. unfold Str.startswith in Hst. simpl in Hst.
assert (c ≠ "#"%char) as Hc'.
{ intros ->. simpl in Hst. destruct r; discriminate Hst. }
destruct (lstrip_split_once "#" line c t eq_refl Hl Hc Hc') as [t' Ht'].
unfold Str.strip. rewrite Ht'.
destruct (rstrip_with_head Str.is_space c t' Hc) as [r' ->]. done.
Qed.

Lemma load_from_file_clean file k :
k ∈ APIKeyHandler._load_from_file file → clean_key k.
Proof.
destruct file as [text|]; simpl; [|by intros ?%elem_of_nil].
intros (line & -> & Hin)%list_elem_of_fmap.
apply list_elem_of_In, filter_In in Hin as [_ Hkey].
split; [by apply key_line_text|]. split.
- apply contains_char_strip, split_once_fst_free.
- apply strip_idemp.
Qed.

Lemma load_keys_clean good_api api k :
k ∈ APIKeyHandler.load_keys good_api api → clean_key k.
Proof.
unfold APIKeyHandler.load_keys.
repeat case_bool_decide; try (by intros ?%elem_of_nil); apply load_from_file_clean.
Qed.
End string_facts.

Section load_facts.
Import Scraper.

Lemma init_counters_keys s keys :
api_keys (foldl APIKeyHandler.init_counters s keys) = api_keys s.
Proof. revert s. induction keys as [|k keys IH]; intros s; simpl; [done|]. by rewrite IH. Qed.

Lemma init_counters_zero s keys k :
k ∈ keys →
getZ (api_usage_count (foldl APIKeyHandler.init_counters s keys)) k = 0 ∧
getZ (daily_quota_usage (foldl APIKeyHandler.init_counters s keys)) k = 0.
Proof.
revert s. induction keys as [|k' keys IH] using rev_ind; intros s Hin.
- by apply elem_of_nil in Hin.
- rewrite foldl_app. simpl. unfold getZ.
  destruct (decide (k = k')) as [<-|Hne].
  + by rewrite !lookup_insert_eq.
  + rewrite !lookup_insert_ne by done.
    apply elem_of_app in Hin as [Hin|Hin%list_elem_of_singleton]; [|done].
    by apply IH.
Qed.
End load_facts.

(** X1.  After [enhanced_load_api_keys] the pool holds exactly the keys
    that [load_keys] read, and the result is [True] exactly when there
    is one.  Every key is clean: not empty, without [#] and without
    blanks at either end; so the empty string is never a key.  Every key
    has its usage count and its daily quota at zero. *)
Theorem key_files_yield_clean_keys (good_api api : option string) (s : Scraper.t) :
  let r := APIKeyHandler.enhanced_load_api_keys good_api api s in
  Scraper.api_keys r.2 = APIKeyHandler.load_keys good_api api ∧
  (r.1 = true ↔ Scraper.api_keys r.2 ≠ []) ∧
  Forall clean_key (Scraper.api_keys r.2) ∧
  (""%string ∉ Scraper.api_keys r.2) ∧
  (∀ k, k ∈ Scraper.api_keys r.2 →
        Scraper.getZ (Scraper.api_usage_count r.2) k = 0 ∧
        Scraper.getZ (Scraper.daily_quota_usage r.2) k = 0).
Proof.
  intros r.
  assert (Hkeys : Scraper.api_keys r.2 = APIKeyHandler.load_keys good_api api).
  { unfold r, APIKeyHandler.enhanced_load_api_keys. simpl.
    case_bool_decide; simpl; [|done]. by rewrite init_counters_keys. }
  assert (Hclean : ∀ k, k ∈ Scraper.api_keys r.2 → clean_key k).
  { rewrite Hkeys. apply load_keys_clean. }
  split_and!.
  - done.
  - rewrite Hkeys. unfold r, APIKeyHandler.enhanced_load_api_keys. simpl.
    case_bool_decide; simpl; [done|]. split; [done|]. intros ?. done.
  - by apply Forall_forall.
  - intros Hin. by destruct (Hclean _ Hin) as [? _].
  - intros k. rewrite Hkeys. unfold r, APIKeyHandler.enhanced_load_api_keys. simpl.
    case_bool_decide; simpl.
    + apply init_counters_zero.
    + intros Hin. exfalso. destruct (APIKeyHandler.load_keys good_api api); [|done].
      by apply elem_of_nil in Hin.
Qed.


(** * Properties of the pacing helpers *)

Section pacing_facts.
Import World.
Variable o : oracle.
Hypothesis Hsane : sane o.

Lemma uniform_range a b w :
(a <= b)%Q → (a <= (uniform o a b w).1)%Q ∧ ((uniform o a b w).1 <= b)%Q.
Proof.
intros Hab. unfold uniform. simpl.
destruct Hsane as [_ Hr]. specialize (Hr (n_random w)).
split; nra.
Qed.

Lemma pymax_spec a b : (a <= Py.max a b)%Q ∧ (b <= Py.max a b)%Q ∧
(Py.max a b == a ∨ Py.max a b == b)%Q.
Proof.
unfold Py.max. destruct (Qltb a b) eqn:Hlt.
- apply Qltb_spec in Hlt. split_and!; [lra|lra|right; reflexivity].
- apply Qltb_false in Hlt. split_and!; [lra|lra|left; reflexivity].
Qed.

End pacing_facts.

(** X2.  [random_delay] sleeps exactly once.  The pause is never shorter
    than a tenth of a second, whatever the settings; with [0 <=
    delay_min <= delay_max] it is at least nine tenths of [delay_min]
    and less than the larger of a tenth of a second and eleven tenths of
    [delay_max], plus two seconds. *)
Theorem random_delay_is_bounded (o : World.oracle) (delay_min delay_max : Q) (w : World.t) :
  World.sane o →
  ∃ d, World.log (Pacing.random_delay o delay_min delay_max w)
         = World.log w ++ [World.EvSleep d] ∧
       (World.now w + d <= World.now (Pacing.random_delay o delay_min delay_max w))%Q ∧
       (1 # 10 <= d)%Q ∧
       ((0 <= delay_min)%Q → (delay_min <= delay_max)%Q →
        ((9 # 10) * delay_min <= d)%Q ∧
        (d < Py.max (1 # 10) ((11 # 10) * delay_max) + 2)%Q).
Proof.
  intros Hsane. pose proof Hsane as [Hlag Hr].
  unfold Pacing.random_delay.
  destruct (World.uniform o delay_min delay_max w) as [base w1] eqn:H1.
  destruct (World.uniform o (- (1 # 10)) (1 # 10) w1) as [u w2] eqn:H2.
  destruct (Py.random o w2) as [r w3] eqn:H3.
  assert (Hlog : World.log w3 = World.log w ∧ World.now w3 = World.now w ∧
                 World.n_sleep w3 = World.n_sleep w).
  { unfold World.uniform in H1, H2. unfold Py.random in H3. by simplify_eq. }
  destruct Hlog as (Hlog & Hnow & Hns).
  assert (Hu : (- (1 # 10) <= u)%Q ∧ (u <= 1 # 10)%Q).
  { pose proof (uniform_range o Hsane (- (1 # 10)) (1 # 10) w1) as Hu.
    rewrite H2 in Hu. apply Hu. lra. }
  assert (Hbase : (delay_min <= delay_max)%Q → (delay_min <= base)%Q ∧ (base <= delay_max)%Q).
  { intros Hle. pose proof (uniform_range o Hsane delay_min delay_max w Hle) as Hb.
    by rewrite H1 in Hb. }
  set (delay := Py.max (1 # 10) (base + u * base)).
  pose proof (pymax_spec (1 # 10) (base + u * base)) as (Hd1 & Hd2 & Hd3).
  pose proof (pymax_spec (1 # 10) ((11 # 10) * delay_max)) as (Hm1 & Hm2 & _).
  fold delay in Hd1, Hd2, Hd3.
  assert (Hbound : (0 <= delay_min)%Q → (delay_min <= delay_max)%Q →
                   ((9 # 10) * delay_min <= delay)%Q ∧
                   (delay <= Py.max (1 # 10) ((11 # 10) * delay_max))%Q).
  { intros H0 Hle. destruct (Hbase Hle) as [Hb1 Hb2]. split; [nra|].
    destruct Hd3 as [->| ->]; [done|]. nra. }
  destruct (Qltb r (1 # 10)) eqn:Hlt.
  - destruct (World.uniform o 1 2 w3) as [extra w4] eqn:H4.
    assert (Hx : (1 <= extra)%Q ∧ (extra < 2)%Q).
    { unfold World.uniform in H4. simplify_eq. specialize (Hr (World.n_random w3)). split; lra. }
    assert (Hw4 : World.log w4 = World.log w ∧ World.now w4 = World.now w ∧
                  World.n_sleep w4 = World.n_sleep w).
    { unfold World.uniform in H4. by simplify_eq. }
    destruct Hw4 as (Hlog4 & Hnow4 & Hns4).
    exists (delay + extra)%Q. unfold World.sleep; simpl. rewrite Hlog4, Hnow4.
    specialize (Hlag (World.n_sleep w4)).
    split_and!; [done|lra|lra|]. intros H0 Hle. destruct (Hbound H0 Hle). split; lra.
  - exists delay. unfold World.sleep; simpl. rewrite Hlog, Hnow.
    specialize (Hlag (World.n_sleep w3)).
    split_and!; [done|lra|lra|]. intros H0 Hle. destruct (Hbound H0 Hle). split; lra.
Qed.

Section split_facts.
Local Open Scope string_scope.
Implicit Types (s t : string) (c : ascii).

Lemma split_clean c s : Str.contains_char c s = false → Py.split c s = [s].
Proof.
induction s as [|a s IH]; simpl; [done|].
destruct (decide (a = c)); [done|]. intros H. by rewrite IH.
Qed.

Lemma split_app c a s :
Str.contains_char c a = false → Py.split c (a ++ String c s) = a :: Py.split c s.
Proof.
induction a as [|x a IH]; simpl.
- intros _. by rewrite decide_True.
- destruct (decide (x = c)); [done|]. intros H. by rewrite IH.
Qed.

Lemma split_length c s :
length (Py.split c s) = S (length (filter (λ a, a = c) (list_ascii_of_string s))).
Proof.
induction s as [|a s IH]; simpl; [done|].
destruct (decide (a = c)) as [->|Hne].
- rewrite filter_cons_True by done. simpl. by rewrite IH.
- rewrite filter_cons_False by done.
  destruct (Py.split c s) eqn:Hs; simpl in *; [done|]. done.
Qed.
End split_facts.

(** X3.  Without proxies [get_proxy] returns [None] and draws nothing.
    Otherwise it draws once, logs nothing, and answers for one line of
    the list: [None] unless the line has one or three colons; for
    [ip:port] the URL [http://ip:port] under both schemes; for
    [ip:port:login:password] the URL [http://login:password@ip:port]
    under both schemes. *)
Theorem get_proxy_parses_the_chosen_line (o : World.oracle) (proxies : list string)
    (w : World.t) :
  Pacing.get_proxy o [] w = (None, w) ∧
  (proxies ≠ [] →
   ∃ proxy, proxy ∈ proxies ∧
     World.n_random (Pacing.get_proxy o proxies w).2 = S (World.n_random w) ∧
     World.log (Pacing.get_proxy o proxies w).2 = World.log w ∧
     (colons proxy ≠ 1%nat → colons proxy ≠ 3%nat →
      (Pacing.get_proxy o proxies w).1 = None) ∧
     (∀ ip port, Str.contains_char ":" ip = false → Str.contains_char ":" port = false →
        proxy = (ip ++ ":" ++ port)%string →
        (Pacing.get_proxy o proxies w).1
          = Some (("http://" ++ ip ++ ":" ++ port)%string,
                  ("http://" ++ ip ++ ":" ++ port)%string)) ∧
     (∀ ip port login password,
        Str.contains_char ":" ip = false → Str.contains_char ":" port = false →
        Str.contains_char ":" login = false → Str.contains_char ":" password = false →
        proxy = (ip ++ ":" ++ port ++ ":" ++ login ++ ":" ++ password)%string →
        (Pacing.get_proxy o proxies w).1
          = Some (("http://" ++ login ++ ":" ++ password ++ "@" ++ ip ++ ":" ++ port)%string,
                  ("http://" ++ login ++ ":" ++ password ++ "@" ++ ip ++ ":" ++ port)%string))).
Proof.
  split; [done|]. intros Hne. destruct proxies as [|p ps]; [done|].
  unfold Pacing.get_proxy.
  pose proof (choice_member o p ps w) as Hin.
  destruct (World.choice o p ps w) as [proxy w1] eqn:Hc.
  assert (Hw1 : World.n_random w1 = S (World.n_random w) ∧ World.log w1 = World.log w).
  { unfold World.choice in Hc. by simplify_eq. }
  destruct Hw1 as [Hn Hl]. simpl in Hin.
  exists proxy. split; [done|].
  split_and!.
  - by destruct (Py.split ":" proxy) as [|? [|? [|? [|? [|? ?]]]]].
  - by destruct (Py.split ":" proxy) as [|? [|? [|? [|? [|? ?]]]]].
  - intros H1 H3. pose proof (split_length ":" proxy) as Hlen. fold (colons proxy) in Hlen.
    destruct (Py.split ":" proxy) as [|? [|? [|? [|? [|? ?]]]]]; simpl in *; try done; lia.
  - intros ip port Hip Hport ->.
    change (ip ++ ":" ++ port)%string with (ip ++ String ":" port)%string.
    rewrite split_app by done. by rewrite split_clean by done.
  - intros ip port login password Hip Hport Hlogin Hpw ->.
    change (ip ++ ":" ++ port ++ ":" ++ login ++ ":" ++ password)%string
      with (ip ++ String ":" (port ++ String ":" (login ++ String ":" password)))%string.
    rewrite !split_app by done. by rewrite split_clean by done.
Qed.

Section returns_facts.
Import World Scraper.

Lemma get_next_api_key_returns (o : oracle) fuel s w :
sane o → ""%string ∉ api_keys s → api_keys s ≠ [] →
∃ k s2 w2, get_next_api_key o (S (S fuel)) s w = Some (Return k, s2, w2).
Proof.
intros Hsane Hkeys Hne.
destruct (decide (available_keys (reset_daily_quota_usage (today w) s) (time w) = []))
  as [Hnil|Hav].
- destruct (get_next_api_key_all_cooling o fuel s w Hsane Hkeys Hne)
    as (d & k & s2 & w2 & Hrun & _); [|eauto].
  intros k Hk. rewrite available_keys_reset in Hnil.
  assert (Hoff : off_cooldown s (time w) k ≠ true).
  { intros Hoff. assert (k ∈ available_keys s (time w)) as Hin by (by apply elem_of_available).
    rewrite Hnil in Hin. by apply elem_of_nil in Hin. }
  rewrite off_cooldown_spec in Hoff. unfold remaining_wait. lra.
- destruct (get_next_api_key_select o (S fuel) s w Hav Hkeys) as (k & _ & _ & Hrun). eauto.
Qed.
End returns_facts.



(** * Properties of the search selection and of the keywords *)

Section dict_facts.
Context {K V : Type} `{EqDecision K}.
Implicit Types (d : Py.dict K V) (k : K) (v : V).

Lemma dict_get_None k d : Py.get k d = None ↔ k ∉ d.*1.
Proof.
induction d as [|[k' v'] d IH]; simpl.
- split; [intros _; apply not_elem_of_nil|done].
- destruct (decide (k' = k)) as [->|Hne].
  + split; [done|]. intros Hni. exfalso. apply Hni. left.
  + rewrite IH, not_elem_of_cons. naive_solver.
Qed.

Lemma dict_get_Some k v d : Py.get k d = Some v → (k, v) ∈ d.
Proof.
induction d as [|[k' v'] d IH]; simpl; [done|].
destruct (decide (k' = k)) as [->|Hne].
- intros [= ->]. left.
- intros Hg. right. by apply IH.
Qed.

Lemma dict_set_keys k v d :
(Py.set k v d).*1 = if decide (k ∈ d.*1) then d.*1 else d.*1 ++ [k].
Proof.
unfold Py.set. induction d as [|[k' v'] d IH].
- done.
- cbn [LRUCache.od_setitem]. rewrite fmap_cons. cbn [fst].
  destruct (decide (k' = k)) as [->|Hne].
  + rewrite decide_True by left. by rewrite fmap_cons.
  + rewrite fmap_cons, IH. cbn [fst]. destruct (decide (k ∈ d.*1)) as [Hin|Hni].
    * rewrite decide_True; [done|by right].
    * rewrite decide_False; [done|]. rewrite not_elem_of_cons. naive_solver.
Qed.

Lemma dict_set_elem k v d k' v' :
(k', v') ∈ Py.set k v d → (k' = k ∧ v' = v) ∨ (k', v') ∈ d.
Proof.
unfold Py.set. induction d as [|[k0 v0] d IH]; simpl.
- intros [= -> ->]%list_elem_of_singleton. by left.
- destruct (decide (k0 = k)) as [->|Hne].
  + intros [[= -> ->]|Hin]%elem_of_cons; [by left|]. right. by right.
  + intros [[= -> ->]|Hin]%elem_of_cons; [right; left|].
    destruct (IH Hin) as [?|?]; [by left|]. right. by right.
Qed.

Lemma dict_set_NoDup k v d : NoDup d.*1 → NoDup (Py.set k v d).*1.
Proof.
intros Hnd. rewrite dict_set_keys. case_decide; [done|].
apply NoDup_app. split_and!; [done| |apply NoDup_singleton].
intros x Hx ->%list_elem_of_singleton. done.
Qed.
End dict_facts.

Section sorted_facts.
Context {A : Type} (key : A → Z).

Lemma insert_desc_perm x l : Py.insert_desc key x l ≡ₚ x :: l.
Proof.
induction l as [|y l IH]; simpl; [done|].
case_bool_decide; [done|]. rewrite IH. apply Permutation_swap.
Qed.

Lemma sorted_desc_perm l : Py.sorted_desc key l ≡ₚ l.
Proof.
induction l as [|x l IH]; simpl; [done|].
rewrite insert_desc_perm. by rewrite IH.
Qed.
End sorted_facts.

Section search_facts.
Import Search.
Implicit Types (v : video) (vs : list video).

Lemma unique_fold vs : ∀ l d,
unique_ok vs d → (∀ v, v ∈ l → v ∈ vs) → unique_ok vs (foldl unique_step d l).
Proof.
induction l as [|v l IH]; intros d Hd Hl; simpl; [done|].
apply IH; [|intros; apply Hl; by right].
assert (Hset : unique_ok vs (Py.set (id v) v d)).
{ destruct Hd as [Hnd Hin]. split; [by apply dict_set_NoDup|].
  intros k v' [[-> ->]|?]%dict_set_elem; [apply Hl; left|eauto]. }
unfold unique_step. destruct (Py.get (id v) d); [case_bool_decide|]; done.
Qed.

Lemma grouped_fold vs : ∀ l d,
grouped_ok vs d → (∀ v, v ∈ l → v ∈ vs) → grouped_ok vs (foldl channel_step d l).
Proof.
induction l as [|v l IH]; intros d Hd Hl; simpl; [done|].
apply IH; [|intros; apply Hl; by right].
destruct Hd as [Hnd Hin]. unfold channel_step.
destruct (Py.get (channel_id v) d) as [g|] eqn:Hg.
- apply dict_get_Some in Hg. split; [by apply dict_set_NoDup|].
  intros k g' [[-> ->]|?]%dict_set_elem; [|eauto].
  split; [by destruct g|]. intros v' [Hv'| ->%list_elem_of_singleton]%elem_of_app.
  + by apply (Hin _ _ Hg).
  + split; [apply Hl; left|done].
- split; [by apply dict_set_NoDup|].
  intros k g' [[-> ->]|?]%dict_set_elem; [|eauto].
  split; [done|]. intros v' ->%list_elem_of_singleton. split; [apply Hl; left|done].
Qed.

Lemma head_sorted_desc (g : list video) :
g ≠ [] → ∃ v, head (Py.sorted_desc page g) = Some v ∧ v ∈ g.
Proof.
intros Hne. pose proof (sorted_desc_perm page g) as Hp.
destruct (Py.sorted_desc page g) as [|v l] eqn:Hs.
- apply Permutation_nil_l in Hp. congruence.
- exists v. split; [done|]. rewrite <- Hp. left.
Qed.

Lemma heads_of_groups vs (d : Py.dict string (list video)) :
(∀ k g, (k, g) ∈ d → g ≠ [] ∧ ∀ v, v ∈ g → v ∈ vs ∧ channel_id v = k) →
let out := omap (λ x, head (Py.sorted_desc page x.2)) d in
channel_id <$> out = d.*1 ∧ ∀ v, v ∈ out → v ∈ vs.
Proof.
induction d as [|[k g] d IH]; intros Hd; simpl; [split; [done|by intros ? ?%elem_of_nil]|].
destruct (Hd k g) as [Hne Hg]; [left|].
destruct (head_sorted_desc g Hne) as (v & -> & Hv).
destruct IH as [IH1 IH2]; [intros; apply Hd; by right|].
destruct (Hg v Hv) as [Hvs Hc]. simpl. split.
- f_equal; [done|exact IH1].
- intros v' [->|Hin]%elem_of_cons; [done|by apply IH2].
Qed.
End search_facts.


Section tag_facts.
Import Tags Scraper.
Implicit Types (m : gmap string Z) (tags : list string) (kw : string).

Lemma lower_ascii_idemp c : Str.lower_ascii (Str.lower_ascii c) = Str.lower_ascii c.
Proof.
destruct c as [[] [] [] [] [] [] [] []]; reflexivity.
Qed.

Lemma lower_idemp s : Str.lower (Str.lower s) = Str.lower s.
Proof. induction s as [|c s IH]; simpl; [done|]. by rewrite lower_ascii_idemp, IH. Qed.

Lemma count_tag_fold kw tags : ∀ m,
getZ (foldl count_tag m tags) kw
= getZ m kw + Z.of_nat (length (filter (λ tag, Str.lower tag = kw) tags)).
Proof.
induction tags as [|tag tags IH]; intros m; simpl; [lia|].
rewrite IH. unfold count_tag, getZ at 1.
destruct (decide (Str.lower tag = kw)) as [<-|Hne].
- rewrite lookup_insert_eq, filter_cons_True by done. simpl. lia.
- rewrite lookup_insert_ne, filter_cons_False by done. done.
Qed.

Lemma count_tags_fold kw (d : Py.dict string (list string)) : ∀ m,
getZ (foldl (λ tag_counts x, foldl count_tag tag_counts x.2) m d) kw
= getZ m kw + Z.of_nat (occurrences kw d).
Proof.
unfold occurrences. induction d as [|[vid tags] d IH]; intros m; [simpl; lia|].
cbn [foldl]. rewrite IH, count_tag_fold, fmap_cons. cbn [concat snd].
rewrite filter_app, length_app. lia.
Qed.
End tag_facts.

(** X6.  A tag is a keyword exactly when it occurs at least twice among
    the tags of all videos, letter case aside (two occurrences on one
    video count), and passes the quality test.  A keyword is in lower
    case, has 3 to 30 characters and is not a number. *)
Theorem keywords_are_repeated_quality_tags (d : Py.dict string (list string)) (kw : string) :
  (kw ∈ Tags._extract_keywords_from_tags d
     ↔ (2 ≤ occurrences kw d)%nat ∧ Tags.quality kw = true) ∧
  (kw ∈ Tags._extract_keywords_from_tags d →
     Str.lower kw = kw ∧ (3 ≤ Str.len kw ≤ 30)%nat ∧ Py.isdigit kw = false).
Proof.
  assert (Hiff : kw ∈ Tags._extract_keywords_from_tags d
                 ↔ (2 ≤ occurrences kw d)%nat ∧ Tags.quality kw = true).
  { unfold Tags._extract_keywords_from_tags. destruct d as [|x d'] eqn:Hd.
    { unfold occurrences. simpl. split; [by intros ?%elem_of_empty|lia]. }
    rewrite <- Hd. clear Hd.
    rewrite elem_of_filter, elem_of_dom.
    pose proof (count_tags_fold kw d ∅) as Hc. fold (Tags.count_tags d) in Hc.
    unfold Scraper.getZ in Hc. rewrite lookup_empty in Hc. simpl in Hc.
    split.
    - intros [Hq [n Hn]]. apply map_lookup_filter_Some in Hn as [Hn Hgt].
      rewrite Hn in Hc. simpl in *. split; [lia|done].
    - intros [Hocc Hq]. split; [done|].
      destruct (Tags.count_tags d !! kw) as [n|] eqn:Hn; simpl in Hc; [|lia].
      exists n. apply map_lookup_filter_Some. split; [done|]. simpl. lia. }
  split; [done|]. intros [Hocc Hq]%Hiff. split; [|split].
  - unfold occurrences in Hocc.
    destruct (filter (λ tag, Str.lower tag = kw) (concat d.*2)) as [|t l] eqn:Hf;
      [simpl in Hocc; lia|].
    assert (Ht : t ∈ filter (λ tag, Str.lower tag = kw) (concat d.*2)) by (rewrite Hf; left).
    apply list_elem_of_filter in Ht as [<- _]. apply lower_idemp.
  - unfold Tags.quality in Hq. rewrite !andb_true_iff in Hq.
    destruct Hq as [[[_ Hlen] _] _]. by apply bool_decide_eq_true in Hlen.
  - unfold Tags.quality in Hq. rewrite !andb_true_iff in Hq.
    destruct Hq as [[_ Hdig] _]. by apply negb_true_iff in Hdig.
Qed.


(** * Rotation of the pool *)

Section rotation_facts.
Import World Scraper.
Variable o : oracle.

Lemma filter_suffix {A} (P : A → Prop) `{∀ x, Decision (P x)} (l1 l2 : list A) :
(∀ x, x ∈ l1 → ¬ P x) → (∀ x, x ∈ l2 → P x) → filter P (l1 ++ l2) = l2.
Proof.
intros H1 H2. rewrite filter_app.
replace (filter P l1) with (@nil A).
- simpl. induction l2 as [|x l2 IH]; [done|].
  rewrite filter_cons_True by (apply H2; left). f_equal. apply IH.
  intros y Hy. apply H2. by right.
- symmetry. induction l1 as [|x l1 IH]; [done|].
  rewrite filter_cons_False by (apply H1; left). apply IH.
  intros y Hy. apply H1. by right.
Qed.

Lemma in_round_step fuel t e u used k rest s w :
in_round t e u used (k :: rest) s → time w = t →
∃ s', get_next_api_key o (S fuel) s w = Some (Return k, s', emit (EvSelect k t) w) ∧
      in_round t e u (used ++ [k]) rest s'.
Proof.
intros (Hkeys & Hnd & Hne & Hcd & Herr & [q Hq] & Hused & Hrest) Ht.
set (s1 := reset_daily_quota_usage (today w) s).
assert (Hq1 : ∃ q1, ∀ k', k' ∈ used ++ k :: rest → getZ (daily_quota_usage s1) k' = q1).
{ unfold s1, reset_daily_quota_usage. case_decide; [|eauto].
  exists 0. intros k' _. simpl. apply getZ_zero_map. }
destruct Hq1 as [q1 Hq1].
assert (Hav : available_keys s1 (time w) = k :: rest).
{ unfold s1. rewrite available_keys_reset. unfold available_keys. rewrite Hkeys, Ht.
  apply filter_suffix.
  - intros x Hx. destruct (Hused x Hx) as [Hl _].
    rewrite off_cooldown_spec, Hl. lra.
  - intros x Hx. destruct (Hrest x Hx) as [Hl _]. by apply off_cooldown_spec. }
assert (Hscore : ∀ x y, x ∈ k :: rest → y ∈ k :: rest → ¬ score_lt s1 x y).
{ intros x y Hx Hy Hlt.
  assert (Hxe : getZ (api_errors s1) x = e).
  { unfold s1, reset_daily_quota_usage. case_decide; simpl; apply Herr, elem_of_app; by right. }
  assert (Hye : getZ (api_errors s1) y = e).
  { unfold s1, reset_daily_quota_usage. case_decide; simpl; apply Herr, elem_of_app; by right. }
  assert (Hxu : getZ (api_usage_count s1) x = u).
  { unfold s1, reset_daily_quota_usage. case_decide; simpl; by apply Hrest. }
  assert (Hyu : getZ (api_usage_count s1) y = u).
  { unfold s1, reset_daily_quota_usage. case_decide; simpl; by apply Hrest. }
  assert (Hr : quota_ratio s1 x = quota_ratio s1 y).
  { unfold quota_ratio. rewrite !Hq1; [done|apply elem_of_app; by right..]. }
  destruct Hlt as [?|[[_ ?]|(_ & _ & ?)]]; [lia| |lia]. rewrite Hr in *. lra. }
assert (Hne' : ""%string ∉ api_keys s) by (by rewrite Hkeys).
destruct (get_next_api_key_select o fuel s w) as (k' & Hbest & Hin & Hrun);
  [by fold s1; rewrite Hav|done|].
fold s1 in Hbest, Hin, Hrun. rewrite Hav in Hbest, Hin.
assert (k' = k) as ->.
{ destruct (select_best_spec s1 (k :: rest)) as (i & k'' & Hb & Hi & _ & Hlt); [done|].
  assert (k'' = k') as -> by congruence. destruct i as [|i]; [simpl in Hi; congruence|].
  exfalso. apply (Hscore k' k); [done|left|]. apply (Hlt 0%nat); [lia|done]. }
rewrite Ht in Hrun. eexists. split; [exact Hrun|].
assert (Hk1 : api_keys s1 = api_keys s) by apply reset_api_keys.
assert (Hl1 : api_last_used s1 = api_last_used s) by apply reset_api_last_used.
assert (Hc1 : min_api_cooldown s1 = min_api_cooldown s) by apply reset_min_api_cooldown.
assert (He1 : api_errors s1 = api_errors s).
{ unfold s1, reset_daily_quota_usage. by case_decide. }
assert (Hu1 : api_usage_count s1 = api_usage_count s).
{ unfold s1, reset_daily_quota_usage. by case_decide. }
assert (Hknot : (k ∉ used) ∧ (k ∉ rest)).
{ apply NoDup_app in Hnd as (_ & Hdis & Hnd2). apply NoDup_cons in Hnd2 as [? _].
  split; [|done]. intros Hku. apply (Hdis k Hku). left. }
destruct Hknot as [Hku Hkr].
unfold in_round, mark_used. simpl. rewrite <- !app_assoc. simpl.
rewrite Hk1, Hl1, Hc1, He1, Hu1. split_and!; try done.
- exists q1. intros k0 Hk0. by apply Hq1.
- intros k0 [Hk0| ->%list_elem_of_singleton]%elem_of_app.
  + assert (k0 ≠ k) by (intros ->; done). unfold getQ, getZ.
    rewrite !lookup_insert_ne by done. by apply Hused.
  + unfold getQ, getZ. rewrite !lookup_insert_eq. simpl. split; [done|].
    destruct (Hrest k) as [_ Hu]; [left|]. unfold getZ in Hu. rewrite Hu. done.
- intros k0 Hk0. assert (k0 ≠ k) by (intros ->; done). unfold getQ, getZ.
  rewrite !lookup_insert_ne by done. apply Hrest. by right.
Qed.

Lemma in_round_many fuel t e u : ∀ rest used s w,
in_round t e u used rest s → time w = t →
∃ s' w', select_many o (S fuel) (length rest) s w = Some (rest, s', w') ∧
  in_round t e u (used ++ rest) [] s' ∧
  now w' = now w ∧ n_sleep w' = n_sleep w ∧
  log w' = log w ++ ((λ k, EvSelect k t) <$> rest).
Proof.
induction rest as [|k rest IH]; intros used s w Hin Ht.
- exists s, w. rewrite !app_nil_r. done.
- destruct (in_round_step fuel t e u used k rest s w Hin Ht) as (s1 & Hrun & Hin1).
  destruct (IH (used ++ [k]) s1 (emit (EvSelect k t) w) Hin1 Ht)
    as (s2 & w2 & Hmany & Hin2 & Hnow & Hsl & Hlog).
  exists s2, w2. cbn [select_many length]. rewrite Hrun, Hmany.
  rewrite <- app_assoc in Hin2. simpl in *.
  split_and!; [done|done|done|done|]. by rewrite Hlog, <- app_assoc.
Qed.
End rotation_facts.

(** X7.  On a pool of distinct, non-empty keys that all have the same
    errors, uses and quota and are off cooldown, as many calls of
    [get_next_api_key] as there are keys hand out every key once, in
    list order, without sleeping, and leave every key with one more use
    and the current time as its last use. *)
Theorem level_pool_is_served_round_robin (o : World.oracle) (fuel : nat) (e u q : Z)
    (s : Scraper.t) (w : World.t) :
  NoDup (Scraper.api_keys s) → ""%string ∉ Scraper.api_keys s →
  (0 < Scraper.min_api_cooldown s)%Q →
  (∀ k, k ∈ Scraper.api_keys s →
        Scraper.getZ (Scraper.api_errors s) k = e ∧
        Scraper.getZ (Scraper.api_usage_count s) k = u ∧
        Scraper.getZ (Scraper.daily_quota_usage s) k = q ∧
        (Scraper.getQ (Scraper.api_last_used s) k + Scraper.min_api_cooldown s
         <= World.time w)%Q) →
  ∃ s' w',
    select_many o (S fuel) (length (Scraper.api_keys s)) s w
      = Some (Scraper.api_keys s, s', w') ∧
    World.now w' = World.now w ∧ World.n_sleep w' = World.n_sleep w ∧
    (∀ k, k ∈ Scraper.api_keys s →
          Scraper.getZ (Scraper.api_usage_count s') k = u + 1 ∧
          Scraper.getQ (Scraper.api_last_used s') k = World.time w).
Proof.
  intros Hnd Hne Hcd Hlevel.
  destruct (in_round_many o fuel (World.time w) e u (Scraper.api_keys s) [] s w)
    as (s' & w' & Hrun & Hin & Hnow & Hsl & _); [|done|].
  { unfold in_round. simpl. split_and!; try done.
    - intros k Hk. by apply Hlevel.
    - exists q. intros k Hk. by apply Hlevel.
    - by intros k ?%elem_of_nil.
    - intros k Hk. destruct (Hlevel k Hk) as (_ & ? & _ & ?). done. }
  exists s', w'. split_and!; [done..|].
  intros k Hk. destruct Hin as (_ & _ & _ & _ & _ & _ & Hused & _).
  destruct (Hused k Hk) as [? ?]. done.
Qed.


(** * Properties of the text files and of the result store *)

Section file_facts.
Local Open Scope string_scope.
Implicit Types (s t e : string) (c : ascii).

Lemma append_cons c s t : String c s ++ t = String c (s ++ t).
Proof. reflexivity. Qed.

Lemma append_nil_l t : "" ++ t = t.
Proof. reflexivity. Qed.

Lemma append_assoc s t r : (s ++ t) ++ r = s ++ (t ++ r).
Proof. induction s as [|c s IH]; [done|]. by rewrite !append_cons, IH. Qed.

Lemma lines_app_line e rest :
no_newline e → File.lines (e ++ String File.NL rest) = (e ++ String File.NL "") :: File.lines rest.
Proof.
intros [Hn Hc]. induction e as [|c e IH].
- rewrite !append_nil_l. simpl. done.
- rewrite !append_cons. simpl in Hn, Hc. cbn [File.lines].
  destruct (decide (c = File.NL)); [done|]. destruct (decide (c = File.CR)); [done|].
  by rewrite IH.
Qed.

Lemma lines_written (l : list string) :
Forall no_newline l →
File.lines (File.written ((λ e, e ++ String File.NL "") <$> l))
= (λ e, e ++ String File.NL "") <$> l.
Proof.
induction 1 as [|e l He Hl IH]; [done|].
rewrite fmap_cons. cbn [File.written foldr]. fold (File.written ((λ e, e ++ String File.NL "") <$> l)).
rewrite append_assoc, append_cons, append_nil_l. rewrite lines_app_line by done. by rewrite IH.
Qed.

Lemma rstrip_with_snoc drop s c :
drop c = true → Str.rstrip_with drop (s ++ String c "") = Str.rstrip_with drop s.
Proof.
intros Hd. induction s as [|a s IH].
- rewrite append_nil_l. simpl. by rewrite Hd.
- rewrite append_cons. simpl. by rewrite IH.
Qed.

Lemma lstrip_snoc s c :
Str.is_space c = true →
Str.lstrip (s ++ String c "") = if decide (Str.lstrip s = "") then "" else Str.lstrip s ++ String c "".
Proof.
intros Hc. induction s as [|a s IH].
- rewrite append_nil_l. simpl. by rewrite Hc.
- rewrite append_cons. simpl. destruct (Str.is_space a); [done|]. done.
Qed.

Lemma strip_snoc s c : Str.is_space c = true → Str.strip (s ++ String c "") = Str.strip s.
Proof.
intros Hc. unfold Str.strip. rewrite lstrip_snoc by done.
case_decide as Hl; [by rewrite Hl|]. by apply rstrip_with_snoc.
Qed.

Lemma lines_shape text l :
l ∈ File.lines text → ∃ body, no_newline body ∧ (l = body ∨ l = body ++ String File.NL "").
Proof.
revert l. induction text as [|c text IH]; intros l; simpl; [by intros ?%elem_of_nil|].
assert (Hnl : ∀ l, l ∈ String File.NL "" :: File.lines text →
              ∃ body, no_newline body ∧ (l = body ∨ l = body ++ String File.NL "")).
{ intros l' [->|Hin]%elem_of_cons; [|by apply IH]. exists "". split; [done|by right]. }
destruct (decide (c = File.NL)); [apply Hnl|].
destruct (decide (c = File.CR)).
- destruct text as [|c' text']; [apply (Hnl l)|].
  destruct (decide (c' = File.NL)) as [->|]; [|apply Hnl].
  intros [->|Hin]%elem_of_cons; [exists ""; split; [done|by right]|].
  apply IH. simpl. by right.
- destruct (File.lines text) as [|l0 ls] eqn:Hls.
  + intros ->%list_elem_of_singleton. exists (String c ""). split; [|by left].
    split; simpl; by rewrite decide_False.
  + intros [->|Hin]%elem_of_cons; [|apply IH; by right].
    destruct (IH l0) as (body & [Hb1 Hb2] & Hl0); [left|].
    exists (String c body). split.
    * split; simpl; by rewrite decide_False.
    * destruct Hl0 as [->| ->]; [by left|by right].
Qed.

Lemma strip_fixed_head e :
Str.strip e = e → e ≠ "" → Str.lstrip e = e ∧ Str.rstrip_with Str.is_space e = e.
Proof.
intros He Hne.
assert (Hs : Str.strip e ≠ "") by (by rewrite He).
destruct (strip_head e Hs) as (c & t & r & Hl & Hc & Hr).
rewrite He in Hr. subst e. simpl in Hl. rewrite Hc in Hl.
split; [simpl; by rewrite Hc|]. unfold Str.strip in He. simpl in He. rewrite Hc in He. done.
Qed.

Lemma read_emails_line text e : e ∈ Store.read_emails text → email_line e.
Proof.
unfold Store.read_emails. intros Hin. apply list_elem_of_In, filter_In in Hin as [Hin Hok].
apply list_elem_of_In, list_elem_of_fmap in Hin as (l & -> & Hl).
apply andb_true_iff in Hok as [Hne Hst]. apply negb_true_iff in Hne, Hst.
apply String.eqb_neq in Hne.
split_and!; [done|done|apply strip_idemp|].
destruct (lines_shape text l Hl) as (body & [Hb1 Hb2] & Hshape).
assert (Hstrip : Str.strip l = Str.strip body).
{ destruct Hshape as [->| ->]; [done|]. by apply strip_snoc. }
rewrite Hstrip. split; by apply contains_char_strip.
Qed.

Lemma strip_email_line e : email_line e → Str.strip (e ++ String File.NL "") = e.
Proof. intros (_ & _ & He & _). by rewrite strip_snoc. Qed.

Lemma read_written (l : list string) :
Forall email_line l → Store.read_emails (email_lines l) = l.
Proof.
intros Hl. unfold Store.read_emails, email_lines. rewrite lines_written.
2:{ eapply Forall_impl; [exact Hl|]. by intros e (_ & _ & _ & ?). }
induction Hl as [|e l He Hl IH]; [done|].
rewrite !fmap_cons. rewrite strip_email_line by done. cbn [List.filter].
destruct He as (Hne & Hst & _ & _). rewrite Hst.
apply String.eqb_neq in Hne. rewrite Hne. simpl. by rewrite IH.
Qed.
End file_facts.

Section store_facts.
Import Store.
Local Open Scope string_scope.
Implicit Types (st : Store.t) (l : list string) (seen : gset string).

Lemma fresh_spec l : ∀ seen,
NoDup (fresh seen l) ∧ ∀ e, e ∈ fresh seen l ↔ e ∈ l ∧ e ∉ seen.
Proof.
induction l as [|x l IH]; intros seen; simpl.
- split; [apply NoDup_nil_2|]. intros e. split; [by intros ?%elem_of_nil|].
  by intros [?%elem_of_nil _].
- destruct (decide (x ∈ seen)) as [Hx|Hx].
  + destruct (IH seen) as [Hnd Hin]. split; [done|]. intros e. rewrite Hin, elem_of_cons.
    split; [naive_solver|]. intros [[->|?] ?]; done.
  + destruct (IH ({[x]} ∪ seen)) as [Hnd Hin]. split.
    * apply NoDup_cons. split; [|done]. rewrite Hin. set_solver.
    * intros e. rewrite !elem_of_cons, Hin. split.
      -- intros [->|[? ?]]; [by split; [left|]|]. split; [by right|set_solver].
      -- intros [[->|?] ?]; [by left|]. destruct (decide (e = x)); [by left|].
         right. split; [done|set_solver].
Qed.

Lemma fresh_NoDup l : NoDup l → fresh ∅ l = l.
Proof.
assert (H : ∀ seen, NoDup l → (∀ e, e ∈ l → e ∉ seen) → fresh seen l = l); [|by intros; apply H; set_solver].
induction l as [|x l IH]; intros seen Hnd Hdis; simpl; [done|].
apply NoDup_cons in Hnd as [Hx Hnd].
rewrite decide_False by (apply Hdis; left). f_equal. apply IH; [done|].
intros e He. assert (e ≠ x) by (by intros ->).
assert (e ∉ seen) by (apply Hdis; by right). set_solver.
Qed.

Lemma seen_fold l : ∀ acc seen,
foldl seen_step (acc, seen) l = ((acc ++ fresh seen l)%list, list_to_set l ∪ seen).
Proof.
induction l as [|x l IH]; intros acc seen; simpl.
- rewrite app_nil_r. f_equal. set_solver.
- unfold seen_step at 2. simpl. destruct (decide (x ∈ seen)) as [Hx|Hx].
  + rewrite IH. f_equal. set_solver.
  + rewrite IH, <- app_assoc. f_equal. set_solver.
Qed.

Lemma without_repeats_fresh l : without_repeats l = fresh ∅ l.
Proof. unfold without_repeats. by rewrite seen_fold. Qed.

Lemma email_lines_cons e l : email_lines (e :: l) = e ++ String File.NL (email_lines l).
Proof.
unfold email_lines. rewrite fmap_cons. cbn [File.written foldr].
by rewrite append_assoc, append_cons, append_nil_l.
Qed.

Lemma append_nil_r s : s ++ "" = s.
Proof. induction s as [|c s IH]; [done|]. by rewrite append_cons, IH. Qed.

Lemma count_domain_fold d l : ∀ m,
Scraper.getZ (foldl count_domain m l) d = (Scraper.getZ m d + at_domain d l)%Z.
Proof.
unfold at_domain. induction l as [|e l IH]; intros m; simpl; [lia|].
rewrite IH. unfold count_domain, Scraper.getZ at 1.
destruct (decide (Str.after_last "@" e = d)) as [<-|Hne].
- rewrite lookup_insert_eq, filter_cons_True by done. simpl. lia.
- rewrite lookup_insert_ne, filter_cons_False by done. done.
Qed.

Lemma save_new_fold l : ∀ st txt,
emails_txt st = Some txt →
foldl save_new st l =
  {| parsed_emails := list_to_set l ∪ parsed_emails st;
     email_domains := foldl count_domain (email_domains st) (fresh (parsed_emails st) l);
     emails_txt := Some (txt ++ email_lines (fresh (parsed_emails st) l));
     emails_detailed_txt := emails_detailed_txt st |}.
Proof.
induction l as [|e l IH]; intros st txt Htxt; simpl.
- destruct st; simpl in *. rewrite Htxt. unfold email_lines. simpl.
  rewrite append_nil_r. f_equal. set_solver.
- unfold save_new at 2. destruct (decide (e ∈ parsed_emails st)) as [He|He].
  + rewrite (IH st txt Htxt). f_equal. set_solver.
  + erewrite IH; [|simpl; by rewrite Htxt]. simpl.
    rewrite email_lines_cons, !append_assoc, append_cons, append_nil_l.
    f_equal. set_solver.
Qed.

Lemma save_detail_fold title id l : ∀ st,
parsed_emails (foldl (save_detail title id) st l) = parsed_emails st ∧
email_domains (foldl (save_detail title id) st l) = email_domains st ∧
emails_txt (foldl (save_detail title id) st l) = emails_txt st.
Proof.
induction l as [|e l IH]; intros st; simpl; [done|].
destruct (IH (save_detail title id st e)) as (-> & -> & ->).
unfold save_detail. by case_decide.
Qed.
End store_facts.

(** X8.  [_save_emails] appends to [emails.txt] one line for each
    address that is new: not in [parsed_emails], and once even when
    [emails] lists it twice, in the order of [emails].  It records all
    addresses in [parsed_emails] and counts each new address at its
    domain.  A second call with the same addresses leaves the file as it
    is. *)
Theorem save_emails_writes_each_new_address_once (emails : list string)
    (channel_title channel_id : string) (st : Store.t) :
  let st' := Store._save_emails emails channel_title channel_id st in
  let new := fresh (Store.parsed_emails st) emails in
  Store.emails_txt st' = Some (default ""%string (Store.emails_txt st) ++ email_lines new)%string ∧
  NoDup new ∧ (∀ e, e ∈ new ↔ e ∈ emails ∧ e ∉ Store.parsed_emails st) ∧
  Store.parsed_emails st' = list_to_set emails ∪ Store.parsed_emails st ∧
  (∀ d, Scraper.getZ (Store.email_domains st') d
        = Scraper.getZ (Store.email_domains st) d + at_domain d new) ∧
  Store.emails_txt (Store._save_emails emails channel_title channel_id st')
    = Store.emails_txt st'.
Proof.
  intros st' new.
  assert (Hst' : Store.emails_txt st' = Some (default ""%string (Store.emails_txt st) ++ email_lines new)%string
                 ∧ Store.parsed_emails st' = list_to_set emails ∪ Store.parsed_emails st
                 ∧ Store.email_domains st' = foldl Store.count_domain (Store.email_domains st) new).
  { unfold st', Store._save_emails.
    match goal with |- context [foldl (Store.save_detail _ _) ?x _] =>
      destruct (save_detail_fold channel_title channel_id emails x) as (-> & -> & ->) end.
    simpl. erewrite save_new_fold; [|reflexivity]. simpl.
    by rewrite append_nil_r. }
  destruct Hst' as (Htxt & Hparsed & Hdom).
  destruct (fresh_spec emails (Store.parsed_emails st)) as [Hnd Hin].
  split_and!; [done|done|done|done| |].
  - intros d. rewrite Hdom. apply count_domain_fold.
  - unfold Store._save_emails at 1.
    match goal with |- context [foldl (Store.save_detail _ _) ?x _] =>
      destruct (save_detail_fold channel_title channel_id emails x) as (_ & _ & ->) end.
    simpl. erewrite save_new_fold; [|reflexivity]. simpl.
    assert (Hnone : fresh (Store.parsed_emails st') emails = []).
    { destruct (fresh_spec emails (Store.parsed_emails st')) as [_ Hin'].
      destruct (fresh (Store.parsed_emails st') emails) as [|e l] eqn:Hf; [done|].
      exfalso. destruct (Hin' e) as [H1 _]. destruct H1 as [He Hne]; [left|].
      apply Hne. rewrite Hparsed. set_solver. }
    rewrite Hnone. unfold email_lines. simpl. rewrite !append_nil_r.
    rewrite Htxt. done.
Qed.

(** X9.  On an address file with at least one address,
    [remove_email_duplicates] rewrites the file with a list of distinct
    addresses taken from it, which reads back as it was written, and
    rebuilds [parsed_emails] and the domain counts from that list.
    Without the similarity filter the list is the addresses of the file
    in order without repeats, none is lost, and a second run changes
    nothing. *)
Theorem dedup_rewrites_the_file (filter_similar_emails : bool) (thr : Q) (st : Store.t)
    (text : string) :
  Store.emails_txt st = Some text → Store.read_emails text ≠ [] →
  let st' := Store.remove_email_duplicates filter_similar_emails thr st in
  ∃ unique,
    Store.emails_txt st' = Some (email_lines unique) ∧
    Store.read_emails (email_lines unique) = unique ∧
    Store.parsed_emails st' = list_to_set unique ∧
    NoDup unique ∧ (∀ e, e ∈ unique → e ∈ Store.read_emails text) ∧
    (∀ d, Scraper.getZ (Store.email_domains st') d = at_domain d unique) ∧
    (filter_similar_emails = false →
       unique = fresh ∅ (Store.read_emails text) ∧
       (∀ e, e ∈ Store.read_emails text → e ∈ unique) ∧
       Store.remove_email_duplicates false thr st' = st').
Proof.
  intros Htxt Hne st'.
  set (emails := Store.read_emails text) in *.
  set (unique := if filter_similar_emails then Dedup.remove_email_duplicates thr emails
                 else Store.without_repeats emails).
  assert (Hst' : st' = {| Store.parsed_emails := list_to_set unique;
                          Store.email_domains := foldl Store.count_domain ∅ unique;
                          Store.emails_txt := Some (email_lines unique);
                          Store.emails_detailed_txt := Store.emails_detailed_txt st |}).
  { unfold st', Store.remove_email_duplicates. rewrite Htxt. fold emails.
    destruct emails; [done|]. done. }
  assert (Hsub : NoDup unique ∧ ∀ e, e ∈ unique → e ∈ emails).
  { unfold unique. destruct filter_similar_emails.
    - apply representatives_ok.
    - rewrite without_repeats_fresh. destruct (fresh_spec emails ∅) as [Hnd Hin].
      split; [done|]. intros e He. by apply Hin. }
  destruct Hsub as [Hnd Hsub].
  assert (Hlines : Forall email_line unique).
  { apply Forall_forall. intros e He. apply (read_emails_line text). by apply Hsub. }
  exists unique. rewrite Hst'. simpl. split_and!; try done.
  - by apply read_written.
  - intros d. rewrite count_domain_fold. unfold Scraper.getZ. rewrite lookup_empty. simpl. lia.
  - intros ->. unfold unique in *. rewrite without_repeats_fresh in *.
    split; [done|]. split.
    + intros e He. destruct (fresh_spec emails ∅) as [_ Hin]. apply Hin. set_solver.
    + unfold Store.remove_email_duplicates. simpl. rewrite read_written by done.
      destruct (fresh ∅ emails) as [|e0 l0] eqn:Hf.
      { exfalso. destruct emails as [|e l]; [done|]. simpl in Hf.
        rewrite decide_False in Hf by set_solver. done. }
      rewrite without_repeats_fresh, fresh_NoDup by done. done.
Qed.

Section restart_facts.
Import Store.

Lemma save_emails_spec emails channel_title channel_id st :
let st' := _save_emails emails channel_title channel_id st in
emails_txt st'
  = Some (default ""%string (emails_txt st) ++ email_lines (fresh (parsed_emails st) emails))%string ∧
parsed_emails st' = list_to_set emails ∪ parsed_emails st.
Proof.
intros st'. unfold st', _save_emails.
match goal with |- context [foldl (save_detail _ _) ?x _] =>
  destruct (save_detail_fold channel_title channel_id emails x) as (-> & _ & ->) end.
simpl. erewrite save_new_fold; [|reflexivity]. simpl.
by rewrite append_nil_r.
Qed.

Lemma email_lines_app l k : email_lines (l ++ k) = (email_lines l ++ email_lines k)%string.
Proof.
induction l as [|e l IH]; [done|].
rewrite <-app_comm_cons, !email_lines_cons, IH.
by rewrite append_assoc, append_cons.
Qed.

Lemma load_fold l (s : gset string) :
foldl (λ parsed email, {[email]} ∪ parsed) s l = list_to_set l ∪ s.
Proof.
revert s. induction l as [|e l IH]; intros s; simpl; [set_solver|].
rewrite IH. set_solver.
Qed.
End restart_facts.

(** X25.  What [_save_emails] leaves in [emails.txt] is what a new
    process loads.  When the file holds the known addresses, one on a
    line, and [parsed_emails] is their set, then after well-formed
    addresses were saved the file reads as the known addresses followed
    by the new ones, and [_load_existing_emails] on a store that knows
    nothing gives the [parsed_emails] of the store that saved. *)
Theorem saved_addresses_survive_a_restart (known emails : list string)
    (channel_title channel_id : string) (st : Store.t) :
  Forall email_line known → Forall email_line emails →
  default ""%string (Store.emails_txt st) = email_lines known →
  Store.parsed_emails st = list_to_set known →
  let st' := Store._save_emails emails channel_title channel_id st in
  Store.parsed_emails (Store._load_existing_emails (restart st')) = Store.parsed_emails st' ∧
  Store.read_emails (default ""%string (Store.emails_txt st'))
    = known ++ fresh (list_to_set known) emails.
Proof.
  intros Hknown Hemails Hfile Hset st'.
  destruct (save_emails_spec emails channel_title channel_id st) as [Htxt Hparsed].
  fold st' in Htxt, Hparsed. rewrite Hfile, Hset in Htxt. rewrite Hset in Hparsed.
  set (new := fresh (list_to_set known) emails) in *.
  destruct (fresh_spec emails (list_to_set known)) as [_ Hin]. fold new in Hin.
  assert (Hnew : Forall email_line new).
  { apply Forall_forall. intros e He. apply Hin in He as [He _].
    rewrite Forall_forall in Hemails. by apply Hemails. }
  assert (Hread : Store.read_emails (email_lines known ++ email_lines new)%string = known ++ new).
  { rewrite <-email_lines_app. apply read_written. by apply Forall_app. }
  split.
  - unfold Store._load_existing_emails, restart. cbn [Store.emails_txt Store.parsed_emails].
    rewrite Htxt. cbn [Store.parsed_emails]. rewrite Hread, load_fold, Hparsed.
    apply set_eq. intros e. rewrite !elem_of_union, !elem_of_list_to_set, elem_of_app, Hin.
    rewrite elem_of_list_to_set.
    destruct (decide (e ∈ known)); set_solver.
  - rewrite Htxt. exact Hread.
Qed.


(** * Properties of the contact filter *)

Section contacts_facts.
Import Dedup Contacts.
Variable thr : Q.

Lemma similar_sym a b : similar thr a b = similar thr b a.
Proof. unfold similar. by rewrite similarity_sym. Qed.

Lemma filter_raised emails e l :
foldl (filter_step thr emails) (Raise e) l = Raise e.
Proof. induction l as [|x l IH]; [done|]. exact IH. Qed.

Lemma pull_fold_something email l processed b :
b ∈ l → b ≠ email → b ∉ processed → similar thr email b = true →
(foldl (pull_step thr email) ([], processed) l).1 ≠ [].
Proof.
intros Hb Hne Hnp Hsim.
assert (Hgen : ∀ pulled processed',
          (pulled ≠ [] ∨ b ∉ processed') →
          (foldl (pull_step thr email) (pulled, processed') l).1 ≠ []).
{ clear Hnp. induction l as [|x l IH]; intros pulled processed' Hor.
  - by apply elem_of_nil in Hb.
  - cbn [foldl]. unfold pull_step at 2.
    assert (Hkeep : ∀ p q, p ≠ [] → (foldl (pull_step thr email) (p, q) l).1 ≠ []).
    { clear. intros p q Hp. destruct (pull_fold thr email l p q) as (new & -> & _).
      simpl. intros Hnil. apply app_eq_nil in Hnil as [? _]. done. }
    destruct Hor as [Hp|Hnp].
    { repeat case_match; apply Hkeep; try done.
      intros Hnil. apply app_eq_nil in Hnil as [? _]. done. }
    apply elem_of_cons in Hb as [<-|Hb].
    + rewrite bool_decide_eq_true_2 by done. rewrite bool_decide_eq_true_2 by done.
      cbn [andb]. rewrite Hsim. apply Hkeep.
      intros Hnil. apply app_eq_nil in Hnil as [_ ?]. done.
    + destruct (bool_decide (x ≠ email) && bool_decide (x ∉ processed')) eqn:Hc.
      * destruct (similar thr email x) eqn:Hs.
        -- apply Hkeep. intros Hnil. apply app_eq_nil in Hnil as [_ ?]. done.
        -- apply IH; [done|by right].
      * apply IH; [done|by right]. }
apply Hgen. by right.
Qed.

Lemma filter_raises emails a b : ∀ rest unique used,
a ∈ emails → b ∈ emails → a ≠ b → similar thr a b = true →
a ∈ rest → a ∉ used → b ∉ used →
foldl (filter_step thr emails) (Return (unique, used)) rest = Raise no_common_domains.
Proof.
intros rest unique used Ha Hb Hab Hsim. revert unique used.
induction rest as [|x rest IH]; intros unique used Har Hau Hbu.
- by apply elem_of_nil in Har.
- cbn [foldl]. unfold filter_step at 2.
  case_bool_decide as Hx.
  + apply IH; [|done|done].
    apply elem_of_cons in Har as [->|?]; [done|done].
  + destruct (pull_fold thr x emails [] ({[x]} ∪ used)) as (new & Hfold & _ & _).
    rewrite Hfold. cbn [app].
    destruct new as [|n new]; [|apply filter_raised].
    assert (Hxa : x ≠ a).
    { intros ->. apply (pull_fold_something a emails ({[a]} ∪ used) b); try done.
      - set_solver.
      - by rewrite Hfold. }
    assert (Hxb : x ≠ b).
    { intros ->. apply (pull_fold_something b emails ({[b]} ∪ used) a); try done.
      - set_solver.
      - by rewrite similar_sym.
      - by rewrite Hfold. }
    apply IH.
    * apply elem_of_cons in Har as [->|?]; [done|done].
    * set_solver.
    * set_solver.
Qed.

Lemma filter_keeps emails :
(∀ a b, a ∈ emails → b ∈ emails → a ≠ b → similar thr a b = false) →
∀ rest unique used,
  (∀ x, x ∈ rest → x ∈ emails) →
  foldl (filter_step thr emails) (Return (unique, used)) rest
    = Return (unique ++ fresh used rest, list_to_set rest ∪ used).
Proof.
intros Hno rest. induction rest as [|x rest IH]; intros unique used Hsub.
- simpl. rewrite app_nil_r. f_equal. f_equal. set_solver.
- cbn [foldl fresh]. unfold filter_step at 2.
  assert (Hx : x ∈ emails) by (apply Hsub; left).
  assert (Hrest : ∀ y, y ∈ rest → y ∈ emails) by (intros y Hy; apply Hsub; by right).
  case_bool_decide as Hu.
  + rewrite decide_True by done. rewrite IH by done. f_equal. f_equal. set_solver.
  + rewrite decide_False by done.
    rewrite pull_fold_nothing.
    2:{ intros y Hy. destruct (decide (y = x)) as [->|Hne]; [by left|].
        right. right. by apply Hno. }
    rewrite IH by done. rewrite <-app_assoc. f_equal. f_equal. set_solver.
Qed.

Lemma fresh_short (l : list string) : (length l ≤ 1)%nat → fresh ∅ l = l.
Proof.
destruct l as [|x [|y l]]; simpl; [done| |lia]. intros _.
rewrite decide_False by set_solver. done.
Qed.
End contacts_facts.


(** [_filter_similar_emails] on two addresses that differ in a digit at
    the end: the call raises, and the channel's addresses are not
    saved. *)
Example similar_pair_is_not_saved :
  Dedup.similar (85 # 100) "john.smith@x.com" "john.smith1@x.com" = true ∧
  Contacts._filter_similar_emails (85 # 100) ["john.smith@x.com"; "john.smith1@x.com"]%string
    = Raise Contacts.no_common_domains ∧
  Contacts.save_found (85 # 100) true "email" ["john.smith@x.com"; "john.smith1@x.com"]%string
    "t" "c" mail_store = mail_store.
Proof. vm_compute. done. Qed.


(** * More on the bounded cache *)

Section retention_facts.
Context {K V : Type} `{EqDecision K}.
Import LRUCache.
Implicit Types (d pre post : list (K * V)) (c : LRUCache.t K V) (key k : K) (value v : V)
(O : list K).

Lemma filter_ne_id k d : k ∉ d.*1 → filter (λ kv, kv.1 ≠ k) d = d.
Proof.
induction d as [|[k' v'] d IH]; [done|]. rewrite fmap_cons, not_elem_of_cons. simpl.
intros [Hne Hni]. rewrite filter_cons_True by (simpl; congruence). by rewrite IH.
Qed.

Lemma od_getitem_mid key value pre post :
key ∉ pre.*1 → od_getitem key (pre ++ (key, value) :: post) = Return value.
Proof.
induction pre as [|[k' v'] pre IH]; simpl.
- intros _. by rewrite decide_True.
- rewrite not_elem_of_cons. intros [Hne Hni]. rewrite decide_False by done. by apply IH.
Qed.

Lemma split_NoDup key value pre post :
NoDup (pre ++ (key, value) :: post).*1 → (key ∉ pre.*1) ∧ (key ∉ post.*1) ∧ NoDup post.*1.
Proof.
rewrite fmap_app, fmap_cons. simpl. intros Hnd.
apply NoDup_app in Hnd as (_ & Hdis & Hnd). apply NoDup_cons in Hnd as [Hpost Hnd].
split_and!; [|done|done]. intros Hin. apply (Hdis key Hin). left.
Qed.

(** Moving [k] to the most recent end keeps [key] in the cache. *)
Lemma holds_promote key value O k v pre post :
NoDup (pre ++ (key, value) :: post).*1 →
(∀ x, x ∈ post.*1 → x ∈ O) → (k ≠ key → k ∈ O) →
(k = key → v = value) →
∃ pre' post',
  filter (λ kv, kv.1 ≠ k) (pre ++ (key, value) :: post) ++ [(k, v)]
    = pre' ++ (key, value) :: post' ∧
  ∀ x, x ∈ post'.*1 → x ∈ O.
Proof.
intros Hnd Hpost Hk Hv. destruct (split_NoDup _ _ _ _ Hnd) as (Hpre & Hpo & _).
rewrite filter_app. destruct (decide (k = key)) as [->|Hne].
- rewrite (Hv eq_refl). rewrite filter_cons_False by (simpl; tauto).
  rewrite !filter_ne_id by done.
  exists (pre ++ post), []. split; [by rewrite <- app_assoc|]. by intros x ?%elem_of_nil.
- rewrite filter_cons_True by (simpl; congruence).
  exists (filter (λ kv, kv.1 ≠ k) pre), (filter (λ kv, kv.1 ≠ k) post ++ [(k, v)]).
  split; [by rewrite <- app_assoc|].
  intros x. rewrite fmap_app, elem_of_app. simpl.
  intros [Hx| ->%list_elem_of_singleton]; [|by apply Hk].
  apply Hpost. apply list_elem_of_fmap in Hx as (kv & -> & Hkv%list_elem_of_filter).
  apply list_elem_of_fmap_2. apply Hkv.
Qed.

Lemma holds_step C key value O (o : op K V) c :
0 < C → lru_inv C c → holds key value O c →
(∀ v, o ≠ Put key v) → (op_key o ≠ key → op_key o ∈ O) →
Z.of_nat (length O) < C → NoDup O → key ∉ O →
∃ c', run_op o c = Return c' ∧ lru_inv C c' ∧ holds key value O c'.
Proof.
intros HC Hinv (pre & post & Hcache & Hpost) Hput Hin HO HndO HkO.
pose proof Hinv as (Hmax & Hnd & Hlen). unfold keys in Hnd. rewrite Hcache in Hnd.
destruct (split_NoDup _ _ _ _ Hnd) as (Hpre & Hpo & Hndpost).
destruct o as [k v|k]; simpl in *.
- assert (Hne : k ≠ key) by (intros ->; by apply (Hput v)).
  destruct (put_inv C k v c HC Hinv) as (c' & Hrun & Hinv'). exists c'.
  split; [done|]. split; [done|].
  destruct (contains k c) eqn:Hc.
  + rewrite put_present in Hrun by done. simplify_eq. unfold holds. simpl. rewrite Hcache.
    apply holds_promote; auto. congruence.
  + rewrite put_absent in Hrun by (done || lia). simplify_eq. unfold holds. simpl.
    case_bool_decide as Hfull.
    * rewrite Hcache. destruct pre as [|p pre].
      { exfalso. unfold len in Hfull. rewrite Hcache in Hfull. simpl in Hfull.
        assert (Hk : k ∉ post.*1).
        { intros Hk. assert (contains k c = true); [|congruence].
          apply od_contains_spec. rewrite Hcache. simpl. by right. }
        assert (Hsub : (k :: post.*1) ⊆+ O).
        { apply NoDup_submseteq; [by apply NoDup_cons|].
          intros x [->|Hx]%elem_of_cons; [by apply Hin|by apply Hpost]. }
        apply submseteq_length in Hsub. simpl in Hsub. rewrite length_fmap in Hsub. lia. }
      simpl. exists pre, (post ++ [(k, v)]). split; [by rewrite <- app_assoc|].
      intros x. rewrite fmap_app, elem_of_app. simpl.
      intros [Hx| ->%list_elem_of_singleton]; [by apply Hpost|by apply Hin].
    * rewrite Hcache. exists pre, (post ++ [(k, v)]). split; [by rewrite <- app_assoc|].
      intros x. rewrite fmap_app, elem_of_app. simpl.
      intros [Hx| ->%list_elem_of_singleton]; [by apply Hpost|by apply Hin].
- destruct (get_inv C k None c Hinv) as (r & c' & Hrun & Hinv'). rewrite Hrun.
  exists c'. split; [done|]. split; [done|].
  unfold get in Hrun. destruct (od_contains k (cache c)) eqn:Hc.
  + pose proof Hc as [v Hv]%od_contains_spec%od_getitem_Some.
    unfold od_move_to_end in Hrun. rewrite Hv in Hrun.
    rewrite od_getitem_snoc in Hrun by apply keys_filter_ne. simplify_eq.
    unfold holds. simpl. rewrite Hcache. apply holds_promote; auto.
    intros ->. rewrite Hcache, od_getitem_mid in Hv by done. congruence.
  + simplify_eq. by exists pre, post.
Qed.

Lemma holds_run C key value O : ∀ (ops : list (op K V)) c,
0 < C → lru_inv C c → holds key value O c →
(∀ v, Put key v ∉ ops) → (∀ o, o ∈ ops → op_key o ≠ key → op_key o ∈ O) →
Z.of_nat (length O) < C → NoDup O → key ∉ O →
∃ c', run ops c = Return c' ∧ lru_inv C c' ∧ holds key value O c'.
Proof.
induction ops as [|o ops IH]; intros c HC Hinv Hh Hput Hin HO Hnd HkO; simpl.
- by exists c.
- destruct (holds_step C key value O o c) as (c1 & -> & Hinv1 & Hh1); try done.
  + intros v ->. apply (Hput v). left.
  + apply Hin. left.
  + apply IH; try done.
    * intros v Hv. apply (Hput v). by right.
    * intros o' Ho'. apply Hin. by right.
Qed.
End retention_facts.

(** X10.  In a cache of capacity [C], an entry that was put survives
    every sequence of calls that does not put its key again and touches
    fewer than [C] other keys: the calls raise nothing and a [get] of
    the key afterwards returns the value. *)
Theorem lru_keeps_recently_put_entries {K V : Type} `{EqDecision K} (C : Z)
    (c : LRUCache.t K V) (key : K) (value : V) (ops : list (LRUCache.op K V)) :
  0 < C → lru_inv C c →
  (∀ v, LRUCache.Put key v ∉ ops) →
  Z.of_nat (length (other_keys key ops)) < C →
  ∃ c1 c2 c3,
    LRUCache.put key value c = Return c1 ∧
    LRUCache.run ops c1 = Return c2 ∧
    LRUCache.get key None c2 = Return (Some value, c3).
Proof.
  intros HC Hinv Hput Hfew.
  destruct (put_inv C key value c HC Hinv) as (c1 & Hc1 & Hinv1).
  assert (Hh1 : holds key value (other_keys key ops) c1).
  { destruct (LRUCache.contains key c) eqn:Hc.
    - rewrite put_present in Hc1 by done. simplify_eq.
      eexists _, []. split; [done|]. by intros k ?%elem_of_nil.
    - destruct Hinv as (Hm & _). rewrite put_absent in Hc1 by (done || lia). simplify_eq.
      eexists _, []. split; [done|]. by intros k ?%elem_of_nil. }
  destruct (holds_run C key value (other_keys key ops) ops c1) as (c2 & Hc2 & Hinv2 & Hh2);
    try done.
  - intros o Ho Hne. unfold other_keys. apply elem_of_remove_dups, list_elem_of_filter.
    split; [done|]. by apply list_elem_of_fmap_2.
  - apply NoDup_remove_dups.
  - unfold other_keys. rewrite elem_of_remove_dups, list_elem_of_filter. tauto.
  - exists c1, c2. destruct Hh2 as (pre & post & Hcache & _).
    destruct Hinv2 as (_ & Hnd & _). unfold LRUCache.keys in Hnd. rewrite Hcache in Hnd.
    destruct (split_NoDup _ _ _ _ Hnd) as (Hpre & _).
    unfold LRUCache.get.
    assert (Hc : LRUCache.od_contains key (LRUCache.cache c2) = true).
    { apply od_contains_spec. rewrite Hcache, fmap_app, fmap_cons. apply elem_of_app. right. left. }
    assert (Hg : LRUCache.od_getitem key (LRUCache.cache c2) = Return value).
    { rewrite Hcache. by apply od_getitem_mid. }
    eexists. split; [done|]. split; [done|].
    rewrite Hc. unfold LRUCache.od_move_to_end. rewrite Hg.
    rewrite od_getitem_snoc by apply keys_filter_ne. done.
Qed.

(** X11.  For a key that the cache does not hold: [get] returns the
    default and leaves the cache as it is; [put] on a cache that is not
    full appends the entry; [put] on a full cache drops the entry at the
    least recently used end, that one only, and appends the new entry. *)
Theorem lru_evicts_the_least_recently_used {K V : Type} `{EqDecision K} (C : Z)
    (c : LRUCache.t K V) (key : K) (value : V) (dflt : option V) :
  0 < C → lru_inv C c → LRUCache.contains key c = false →
  LRUCache.get key dflt c = Return (dflt, c) ∧
  (LRUCache.len c < C →
     LRUCache.put key value c
       = Return (LRUCache.mk (LRUCache.cache c ++ [(key, value)]) C)) ∧
  (LRUCache.len c = C →
     ∃ k0 v0 rest,
       LRUCache.cache c = (k0, v0) :: rest ∧
       LRUCache.put key value c = Return (LRUCache.mk (rest ++ [(key, value)]) C) ∧
       k0 ∉ (rest ++ [(key, value)]).*1).
Proof.
  intros HC (Hm & Hnd & Hlen) Hc. split_and!.
  - unfold LRUCache.get. unfold LRUCache.contains in Hc. by rewrite Hc.
  - intros Hlt. rewrite put_absent by (done || lia). rewrite Hm.
    by rewrite bool_decide_false by lia.
  - intros Hfull. rewrite put_absent by (done || lia). rewrite Hm.
    rewrite bool_decide_true by lia.
    destruct (LRUCache.cache c) as [|[k0 v0] rest] eqn:Hcache.
    { unfold LRUCache.len in Hfull. rewrite Hcache in Hfull. simpl in Hfull. lia. }
    exists k0, v0, rest. split; [done|]. split; [done|].
    unfold LRUCache.keys in Hnd. rewrite Hcache in Hnd. simpl in Hnd.
    apply NoDup_cons in Hnd as [Hk0 _].
    rewrite fmap_app, elem_of_app. simpl. intros [?|Hk%list_elem_of_singleton]; [done|].
    subst k0. assert (LRUCache.contains key c = true); [|congruence].
    apply od_contains_spec. rewrite Hcache. simpl. left.
Qed.


(** * Properties of the token bucket *)

Section limiter_facts.
Import World RateLimiter.
Variable o : oracle.
Hypothesis Hsane : sane o.
Implicit Types (r : RateLimiter.t) (w : World.t).

Lemma pymin_spec a b : (Py.min a b <= a)%Q ∧ (Py.min a b <= b)%Q ∧
(Py.min a b == a ∨ Py.min a b == b)%Q.
Proof.
unfold Py.min. destruct (Qltb b a) eqn:Hlt.
- apply Qltb_spec in Hlt. split_and!; [lra|lra|right; reflexivity].
- apply Qltb_false in Hlt. split_and!; [lra|lra|left; reflexivity].
Qed.

Lemma rate_nonneg r : bucket_ok r → (0 <= rate r)%Q.
Proof.
intros (Htw & H0 & Hmax). unfold rate.
apply Qle_shift_div_l; [done|]. lra.
Qed.

Lemma refill_ok t r :
bucket_ok r →
∃ r', refill t r = Return r' ∧ bucket_ok r' ∧
  max_requests r' = max_requests r ∧ time_window r' = time_window r ∧
  (∀ T, budget r' T <= budget r T)%Q ∧
  ((last_refill r' = last_refill r ∧ tokens r' = tokens r ∧ (t <= last_refill r)%Q) ∨
   (last_refill r' = t ∧ (last_refill r < t)%Q ∧
    (tokens r' == Py.min (max_requests r) (budget r t))%Q)).
Proof.
intros Hok. pose proof Hok as (Htw & H0 & Hmax). unfold refill.
destruct (Qltb 0 (t - last_refill r)) eqn:Hel.
- apply Qltb_spec in Hel.
  destruct (Qeq_bool (time_window r) 0) eqn:Hz.
  { apply Qeq_bool_iff in Hz. lra. }
  eexists. split; [done|]. simpl.
  pose proof (rate_nonneg r Hok) as Hr. unfold rate in Hr.
  set (nt := ((t - last_refill r) * (max_requests r / time_window r))%Q) in *.
  assert (0 <= nt)%Q by (unfold nt; nra).
  pose proof (pymin_spec (max_requests r) (tokens r + nt)) as (Hm1 & Hm2 & Hm3).
  split_and!.
  + unfold bucket_ok. simpl. split_and!; [done| |done].
    destruct Hm3 as [->| ->]; lra.
  + done.
  + done.
  + intros T. unfold budget, rate. simpl. fold nt in Hm2 |- *.
    unfold nt in *. nra.
  + right. split_and!; [done|lra|]. unfold budget, rate. reflexivity.
- apply Qltb_false in Hel. exists r. split_and!; try done.
  + intros T. lra.
  + left. split_and!; [done|done|lra].
Qed.

Lemma sleep_now d w : (0 <= d)%Q → (now w + d <= now (sleep o d w))%Q.
Proof. intros Hd. destruct Hsane as [Hlag _]. specialize (Hlag (n_sleep w)). simpl. lra. Qed.

Lemma acquire_loop_ok fuel block timeout start : ∀ r w res r' w',
bucket_ok r → (last_refill r <= now w)%Q →
acquire_loop o fuel block timeout start r w = Some (res, r', w') →
∃ g, res = Return g ∧ bucket_ok r' ∧
  max_requests r' = max_requests r ∧ time_window r' = time_window r ∧
  (∀ T, budget r' T + (if g then 1 else 0) <= budget r T)%Q ∧
  (now w <= now w')%Q ∧ (last_refill r' <= now w')%Q.
Proof.
induction fuel as [|fuel IH]; intros r w res r' w' Hok Hlast Hrun; [done|].
cbn [acquire_loop] in Hrun.
destruct (refill_ok (time w) r Hok) as (r1 & Hre & Hok1 & Hm1 & Ht1 & Hb1 & Hcase).
rewrite Hre in Hrun.
assert (Hlast1 : (last_refill r1 <= now w)%Q).
{ destruct Hcase as [(-> & _ & _)|(-> & _ & _)]; [done|]. unfold time. lra. }
destruct (Qle_bool 1 (tokens r1)) eqn:Hone.
- apply Qle_bool_iff in Hone. simplify_eq. exists true.
  destruct Hok1 as (Htw & H0 & Hmax).
  split_and!; try done.
  + unfold bucket_ok, take; simpl. split_and!; [done|lra|lra].
  + intros T. specialize (Hb1 T). unfold budget, rate, take in *. simpl in *. lra.
  + lra.
- destruct block; simpl in Hrun.
  2:{ simplify_eq. exists false. split_and!; try done.
      - intros T. specialize (Hb1 T). lra.
      - lra. }
  destruct (match timeout with Some t => Qltb t (time w - start) | None => false end).
  { simplify_eq. exists false. split_and!; try done.
    - intros T. specialize (Hb1 T). lra.
    - lra. }
  pose proof (sleep_now (1 # 10) w) as Hs.
  destruct (IH r1 (sleep o (1 # 10) w) res r' w' Hok1) as
    (g & -> & Hok' & Hm' & Ht' & Hb' & Hnow' & Hlast'); [lra|done|].
  exists g. split_and!; try done; try congruence.
  + intros T. specialize (Hb1 T). specialize (Hb' T). lra.
  + lra.
Qed.

Lemma budget_nonneg r T : bucket_ok r → (last_refill r <= T)%Q → (0 <= budget r T)%Q.
Proof.
intros Hok HT. pose proof (rate_nonneg r Hok). destruct Hok as (_ & H0 & _).
unfold budget. nra.
Qed.

Lemma play_ok fuel : ∀ steps r w n r' w',
bucket_ok r → (last_refill r <= now w)%Q →
(∀ d, Pause d ∈ steps → (0 <= d)%Q) →
play o fuel steps r w = Some (n, r', w') →
bucket_ok r' ∧ (last_refill r' <= now w')%Q ∧ (now w <= now w')%Q ∧
max_requests r' = max_requests r ∧ time_window r' = time_window r ∧
0 ≤ n ∧ (∀ T, budget r' T + inject_Z n <= budget r T)%Q.
Proof.
induction steps as [|[d|block timeout] steps IH]; intros r w n r' w' Hok Hlast Hp Hrun;
  cbn [play] in Hrun.
- simplify_eq. split_and!; try done; [lra|]. intros T. unfold inject_Z. lra.
- pose proof (Hp d (list_elem_of_here _ _)) as Hd.
  pose proof (sleep_now d w Hd) as Hs.
  destruct (IH r (sleep o d w) n r' w') as (H1 & H2 & H3 & H4 & H5 & H6 & H7);
    [done|lra|intros d' Hd'; apply Hp; by right|done|].
  split_and!; try done. lra.
- destruct (acquire o fuel block timeout r w) as [[[[g|e] r1] w1]|] eqn:Hacq; try done.
  destruct (play o fuel steps r1 w1) as [[[n1 r2] w2]|] eqn:Hrest; [|done].
  simplify_eq.
  destruct (acquire_loop_ok fuel block timeout (time w) r w _ _ _ Hok Hlast Hacq)
    as (g' & [= <-] & Hok1 & Hm1 & Ht1 & Hb1 & Hnow1 & Hlast1).
  destruct (IH r1 w1 n1 r' w') as (H1 & H2 & H3 & H4 & H5 & H6 & H7);
    [done|done|intros d' Hd'; apply Hp; by right|done|].
  split_and!; try done; try congruence; [lra|destruct g; lia|].
  intros T. specialize (Hb1 T). specialize (H7 T).
  rewrite inject_Z_plus.
  destruct g; [change (inject_Z 1) with 1%Q|change (inject_Z 0) with 0%Q]; lra.
Qed.

Lemma acquire_loop_S fuel block timeout start r w :
acquire_loop o (S fuel) block timeout start r w =
match refill (time w) r with
| Raise e => Some (Raise e, r, w)
| Return r =>
    if Qle_bool 1 (tokens r) then Some (Return true, take r, w)
    else if negb block then Some (Return false, r, w)
    else
      if match timeout with
         | Some t => Qltb t (time w - start)%Q
         | None => false
         end
      then Some (Return false, r, w)
      else acquire_loop o fuel block timeout start r (sleep o (1 # 10) w)
end.
Proof. reflexivity. Qed.

Lemma acquire_loop_grants n : ∀ k start r w,
bucket_ok r → (1 <= max_requests r)%Q → (last_refill r <= now w)%Q →
(1 - budget r (now w) <= inject_Z (Z.of_nat n) * ((1 # 10) * rate r))%Q →
∃ r' w', acquire_loop o (S n + k) true None start r w = Some (Return true, r', w') ∧
         (n_sleep w' ≤ n_sleep w + n)%nat.
Proof.
induction n as [|n IH]; intros k start r w Hok Hcap Hlast Hneed.
- change (1 + k)%nat with (S k). rewrite acquire_loop_S.
  destruct (refill_ok (time w) r Hok) as (r1 & -> & Hok1 & Hm1 & Ht1 & Hb1 & Hcase).
  assert (Hone : (1 <= tokens r1)%Q).
  { change (inject_Z (Z.of_nat 0)) with 0%Q in Hneed.
    destruct Hcase as [(Hl & Htok & Hle)|(Hl & Hlt & Htok)].
    - rewrite Htok. unfold budget in Hneed.
      assert (Hz : (now w - last_refill r == 0)%Q) by (unfold time in Hle; lra).
      rewrite Hz in Hneed. lra.
    - rewrite Htok. destruct (pymin_spec (max_requests r) (budget r (time w))) as (_ & _ & [->| ->]);
        [done|]. unfold time. lra. }
  apply Qle_bool_iff in Hone. rewrite Hone. eexists _, _. split; [done|]. lia.
- change (S (S n) + k)%nat with (S (S n + k)). rewrite acquire_loop_S.
  destruct (refill_ok (time w) r Hok) as (r1 & -> & Hok1 & Hm1 & Ht1 & Hb1 & Hcase).
  destruct (Qle_bool 1 (tokens r1)) eqn:Hone.
  { eexists _, _. split; [done|]. lia. }
  cbn [negb].
  assert (Hlt1 : (tokens r1 < 1)%Q).
  { apply Qnot_le_lt. intros Hle. apply Qle_bool_iff in Hle. congruence. }
  pose proof (sleep_now (1 # 10) w) as Hs.
  pose proof (rate_nonneg r Hok) as Hrate.
  assert (Hrate1 : rate r1 = rate r) by (unfold rate; by rewrite Hm1, Ht1).
  destruct (IH k start r1 (sleep o (1 # 10) w)) as (r' & w' & Hrun & Hsl).
  + done.
  + by rewrite Hm1.
  + destruct Hcase as [(-> & _ & _)|(-> & _ & _)]; unfold time in *; lra.
  + assert (Hstep : (budget r (now w) + (1 # 10) * rate r <= budget r1 (now (sleep o (1 # 10) w)))%Q).
    { unfold budget at 2. rewrite Hrate1.
      destruct Hcase as [(Hl & Htok & Hle)|(Hl & Hlt & Htok)].
      - rewrite Hl, Htok. unfold budget, time in *.
        assert (Hz : (now w - last_refill r == 0)%Q) by lra.
        rewrite Hz. nra.
      - rewrite Hl, Htok. unfold time in *.
        destruct (pymin_spec (max_requests r) (budget r (now w))) as (_ & _ & [Hm| ->]).
        + rewrite Htok, Hm in Hlt1. lra.
        + nra. }
    rewrite Hrate1. rewrite Nat2Z.inj_succ, <- Z.add_1_r, inject_Z_plus in Hneed.
    change (inject_Z 1) with 1%Q in Hneed. lra.
  + rewrite Hrun. eexists _, _. split; [done|]. simpl in Hsl. lia.
Qed.

Lemma acquire_loop_starves fuel : ∀ start r w,
bucket_ok r → (max_requests r < 1)%Q →
acquire_loop o fuel true None start r w = None.
Proof.
induction fuel as [|fuel IH]; intros start r w Hok Hcap; [done|].
rewrite acquire_loop_S.
destruct (refill_ok (time w) r Hok) as (r1 & -> & Hok1 & Hm1 & Ht1 & _ & _).
destruct (Qle_bool 1 (tokens r1)) eqn:Hone.
{ apply Qle_bool_iff in Hone. destruct Hok1 as (_ & _ & Hmax). rewrite Hm1 in Hmax. lra. }
cbn [negb]. apply IH; [done|]. by rewrite Hm1.
Qed.

Lemma acquire_grants r w k :
bucket_ok r → (1 <= max_requests r)%Q → (last_refill r <= now w)%Q →
∃ r' w', acquire o (S (wait_bound r) + k) true None r w = Some (Return true, r', w') ∧
         (n_sleep w' ≤ n_sleep w + wait_bound r)%nat.
Proof.
intros Hok Hcap Hlast. unfold acquire. apply acquire_loop_grants; try done.
pose proof (budget_nonneg r (now w) Hok Hlast) as Hb.
pose proof Hok as (Htw & _ & _).
assert (Hx : (0 <= 10 * time_window r / max_requests r)%Q).
{ apply Qle_shift_div_l; lra. }
assert (HN : (10 * time_window r / max_requests r
              <= inject_Z (Z.of_nat (wait_bound r)))%Q).
{ unfold wait_bound. rewrite Z2Nat.id.
  - apply Qle_ceiling.
  - apply Qceiling_resp_le in Hx. exact Hx. }
assert (Hfield : (10 * time_window r / max_requests r * ((1 # 10) * rate r) == 1)%Q).
{ unfold rate. field. split; lra. }
pose proof (rate_nonneg r Hok) as Hrate.
assert (1 <= inject_Z (Z.of_nat (wait_bound r)) * ((1 # 10) * rate r))%Q; [|lra].
rewrite <- Hfield. apply Qmult_le_compat_r; [done|]. lra.
Qed.
End limiter_facts.

(** X12.  However calls of [acquire] and pauses follow each other, the
    tokens granted never exceed the tokens held at the start plus the
    refill rate times the time since the last refill, and so never
    [max_requests] plus that; the bucket stays well formed. *)
Theorem limiter_never_grants_beyond_its_budget (o : World.oracle) (fuel : nat)
    (steps : list limiter_step) (r r' : RateLimiter.t) (w w' : World.t) (n : Z) :
  World.sane o → bucket_ok r → (RateLimiter.last_refill r <= World.now w)%Q →
  (∀ d, Pause d ∈ steps → (0 <= d)%Q) →
  play o fuel steps r w = Some (n, r', w') →
  bucket_ok r' ∧
  (inject_Z n <= RateLimiter.tokens r
                 + (World.now w' - RateLimiter.last_refill r) * rate r)%Q ∧
  (inject_Z n <= RateLimiter.max_requests r
                 + (World.now w' - RateLimiter.last_refill r) * rate r)%Q.
Proof.
  intros Hsane Hok Hlast Hp Hrun.
  destruct (play_ok o Hsane fuel steps r w n r' w' Hok Hlast Hp Hrun)
    as (Hok' & Hlast' & Hnow & _ & _ & _ & Hb).
  specialize (Hb (World.now w')).
  pose proof (budget_nonneg r' (World.now w') Hok' Hlast') as Hnn.
  destruct Hok as (_ & _ & Hmax). unfold budget in Hb, Hnn.
  split; [done|]. split; lra.
Qed.



(** * Properties of the client cache *)

Section client_facts.
Import World CachedDiscovery.
Variable md5 : string → string.
Variable o : oracle.
Implicit Types (c : CachedDiscovery.t) (w : World.t).

Lemma dict_get_set {K V} `{EqDecision K} (k : K) (v : V) (d : Py.dict K V) :
Py.get k (Py.set k v d) = Some v.
Proof.
unfold Py.set. induction d as [|[k' v'] d IH]; simpl.
- by rewrite decide_True.
- destruct (decide (k' = k)) as [->|Hne]; simpl.
  + by rewrite decide_True.
  + by rewrite decide_False.
Qed.

Lemma dict_get_set_ne {K V} `{EqDecision K} (k k' : K) (v : V) (d : Py.dict K V) :
k ≠ k' → Py.get k' (Py.set k v d) = Py.get k' d.
Proof.
intros Hne. unfold Py.set. induction d as [|[k0 v0] d IH]; simpl.
- by rewrite decide_False.
- destruct (decide (k0 = k)) as [->|Hne0]; simpl.
  + by rewrite !decide_False.
  + destruct (decide (k0 = k')); [done|]. exact IH.
Qed.

Lemma tail_keys_NoDup {K V} (d : Py.dict K V) : NoDup d.*1 → NoDup (tail d).*1.
Proof. destruct d as [|x d]; [done|]. simpl. by intros [_ ?]%NoDup_cons. Qed.

Lemma get_hit service_name version api_key c w svc :
Py.get (_make_cache_key md5 service_name version api_key) (cache c) = Some svc →
get md5 o service_name version api_key c w = (Return svc, c, w).
Proof. intros Hg. unfold get. by rewrite Hg. Qed.

Lemma get_miss service_name version api_key c w :
Py.get (_make_cache_key md5 service_name version api_key) (cache c) = None →
get md5 o service_name version api_key c w =
  match build o (n_build w) api_key with
  | Built =>
      (Return {| developerKey := api_key |},
       {| cache := Py.set (_make_cache_key md5 service_name version api_key)
                     {| developerKey := api_key |}
                     (if bool_decide (max_size c ≤ Z.of_nat (length (cache c)))
                      then tail (cache c) else cache c);
          max_size := max_size c |},
       (call_build o api_key w).2)
  | Failed e => (Raise e, c, (call_build o api_key w).2)
  end.
Proof.
intros Hg. unfold get. rewrite Hg. unfold call_build. simpl.
by destruct (build o (n_build w) api_key).
Qed.
End client_facts.

(** X14.  [get] keeps the cache well formed (distinct keys, no more than
    [max_size] entries) and keeps [max_size].  A hit returns the cached
    client without a call and leaves the cache as it is.  A miss calls
    [build] once: on success the client bound to the key is returned and
    stored at the end, after the oldest entry was dropped when the cache
    was full; on failure the exception is raised and the cache is left
    as it is. *)
Theorem client_cache_serves_hits_without_a_call (md5 : string → string) (o : World.oracle)
    (service_name version api_key : string) (c : CachedDiscovery.t) (w : World.t) :
  clients_ok c → 1 ≤ CachedDiscovery.max_size c →
  let cache_key := CachedDiscovery._make_cache_key md5 service_name version api_key in
  let out := CachedDiscovery.get md5 o service_name version api_key c w in
  clients_ok out.1.2 ∧
  CachedDiscovery.max_size out.1.2 = CachedDiscovery.max_size c ∧
  (∀ svc, Py.get cache_key (CachedDiscovery.cache c) = Some svc →
          out = (Return svc, c, w)) ∧
  (Py.get cache_key (CachedDiscovery.cache c) = None →
   World.log out.2 = World.log w ++ [World.EvBuild api_key] ∧
   match World.build o (World.n_build w) api_key with
   | World.Built =>
       out.1.1 = Return {| CachedDiscovery.developerKey := api_key |} ∧
       Py.get cache_key (CachedDiscovery.cache out.1.2)
         = Some {| CachedDiscovery.developerKey := api_key |} ∧
       (Z.of_nat (length (CachedDiscovery.cache c)) < CachedDiscovery.max_size c →
        CachedDiscovery.cache out.1.2
          = CachedDiscovery.cache c
              ++ [(cache_key, {| CachedDiscovery.developerKey := api_key |})]) ∧
       (Z.of_nat (length (CachedDiscovery.cache c)) = CachedDiscovery.max_size c →
        CachedDiscovery.cache out.1.2
          = tail (CachedDiscovery.cache c)
              ++ [(cache_key, {| CachedDiscovery.developerKey := api_key |})])
   | World.Failed e => out.1.1 = Raise e ∧ out.1.2 = c
   end).
Proof.
  intros [Hnd Hlen] Hcap cache_key out.
  destruct (Py.get cache_key (CachedDiscovery.cache c)) as [svc|] eqn:Hg.
  - assert (Hout : out = (Return svc, c, w)) by (by apply get_hit).
    rewrite Hout. simpl. split_and!; [by split|done| |done].
    intros svc' [= ->]. done.
  - assert (Hni : cache_key ∉ (CachedDiscovery.cache c).*1) by (by apply dict_get_None).
    pose proof (get_miss md5 o service_name version api_key c w Hg) as Hout.
    fold out cache_key in Hout.
    destruct (World.build o (World.n_build w) api_key) as [|e] eqn:Hb; rewrite Hout; simpl.
    + set (svc := {| CachedDiscovery.developerKey := api_key |}).
      assert (Hfresh : ∀ d, cache_key ∉ d.*1 → Py.set cache_key svc d = d ++ [(cache_key, svc)]).
      { intros d Hd. unfold Py.set. by apply od_setitem_fresh. }
      assert (Htail : cache_key ∉ (tail (CachedDiscovery.cache c)).*1).
      { intros Hin. apply Hni. destruct (CachedDiscovery.cache c); [done|]. by right. }
      split; [|split; [done|split; [by intros svc' [=]|]]].
      * unfold clients_ok. simpl. case_bool_decide.
        -- rewrite Hfresh by done. split.
           ++ rewrite fmap_app. apply NoDup_app. split_and!; [by apply tail_keys_NoDup| |apply NoDup_singleton].
              intros x Hx ->%list_elem_of_singleton. done.
           ++ rewrite length_app. simpl. destruct (CachedDiscovery.cache c); simpl in *; lia.
        -- rewrite Hfresh by done. split.
           ++ rewrite fmap_app. apply NoDup_app. split_and!; [done| |apply NoDup_singleton].
              intros x Hx ->%list_elem_of_singleton. done.
           ++ rewrite length_app. simpl. lia.
      * intros _. split_and!; try done.
        -- apply dict_get_set.
        -- intros Hlt. rewrite bool_decide_false by lia. by apply Hfresh.
        -- intros Heq. rewrite bool_decide_true by lia. by apply Hfresh.
    + split_and!; [by split|done|by intros svc' [=]|done].
Qed.

(** X15.  Two keys with the same first four and the same last four
    characters have one cache key: after a miss for the first key that
    built its client, [get] for the second key returns the client bound
    to the first key, without a call. *)
Theorem keys_with_one_mask_share_a_client (md5 : string → string) (o : World.oracle)
    (service_name version k1 k2 : string) (c : CachedDiscovery.t) (w : World.t) :
  Py.take 4 k1 = Py.take 4 k2 → Py.last 4 k1 = Py.last 4 k2 →
  Py.get (CachedDiscovery._make_cache_key md5 service_name version k1)
         (CachedDiscovery.cache c) = None →
  World.build o (World.n_build w) k1 = World.Built →
  ∃ c1 w1,
    CachedDiscovery.get md5 o service_name version k1 c w
      = (Return {| CachedDiscovery.developerKey := k1 |}, c1, w1) ∧
    CachedDiscovery.get md5 o service_name version k2 c1 w1
      = (Return {| CachedDiscovery.developerKey := k1 |}, c1, w1).
Proof.
  intros Htake Hlast Hg Hb.
  assert (Hkey : CachedDiscovery._make_cache_key md5 service_name version k2
                 = CachedDiscovery._make_cache_key md5 service_name version k1).
  { unfold CachedDiscovery._make_cache_key. by rewrite Htake, Hlast. }
  rewrite (get_miss md5 o service_name version k1 c w Hg), Hb.
  eexists _, _. split; [done|]. apply get_hit. simpl. rewrite Hkey. apply dict_get_set.
Qed.


(** * Properties of the quota database *)

Section ledger2_facts.
Import World Ledger.

Lemma plain_fold day acc (h : list entry) :
foldl (λ u e, Validator.add_if_today day u (plain e)) acc h = acc + units_on day (plain <$> h).
Proof.
rewrite <-foldl_add_if_today. revert acc.
induction h as [|e h IH]; intros acc; [done|]. simpl. apply IH.
Qed.

Lemma get_used_quota_spec api_key w db :
get_used_quota api_key w db =
  match Py.get api_key db with
  | Some info => units_on (today w) (plain <$> history info)
  | None => 0
  end.
Proof.
unfold get_used_quota. destruct (Py.get api_key db); [|done].
rewrite plain_fold. lia.
Qed.

Lemma units_on_cons day e h :
units_on day (e :: h) =
  (if decide (stamped_on day e) then Validator.units_used e else 0) + units_on day h.
Proof.
unfold units_on. destruct (decide (stamped_on day e)).
- by rewrite filter_cons_True.
- rewrite filter_cons_False by done. lia.
Qed.

Lemma add_entry_fold d (m : gmap Z Z) (h : list entry) :
default 0 (foldl add_entry m h !! d) = default 0 (m !! d) + units_on d (plain <$> h).
Proof.
revert m. induction h as [|e h IH]; intros m.
- unfold units_on. simpl. lia.
- cbn [foldl]. rewrite IH, fmap_cons, units_on_cons.
  unfold add_entry. destruct (timestamp e) as [ts|] eqn:Ht.
  + destruct (decide (date_of ts = d)) as [<-|Hne].
    * rewrite lookup_insert_eq. cbn [default].
      rewrite decide_True; [simpl; lia|]. exists ts. by simpl.
    * rewrite lookup_insert_ne by done.
      rewrite decide_False; [lia|]. intros (ts' & Hts & Hd). simpl in Hts. congruence.
  + rewrite decide_False; [lia|]. intros (ts' & Hts & Hd). simpl in Hts. congruence.
Qed.

Lemma add_entry_absent d (m : gmap Z Z) (h : list entry) :
foldl add_entry m h !! d = None ↔
m !! d = None ∧ ∀ e, e ∈ h → ¬ stamped_on d (plain e).
Proof.
revert m. induction h as [|e h IH]; intros m.
- simpl. split; [intros ?; split; [done|]; by intros e ?%elem_of_nil|by intros [? _]].
- cbn [foldl]. rewrite IH. unfold add_entry.
  destruct (timestamp e) as [ts|] eqn:Ht.
  + destruct (decide (date_of ts = d)) as [<-|Hne].
    * rewrite lookup_insert_eq. split; [by intros [? _]|].
      intros [_ Hall]. exfalso. apply (Hall e); [left|]. exists ts. by simpl.
    * rewrite lookup_insert_ne by done. split.
      -- intros [Hm Hall]. split; [done|]. intros e' [->|Hin]%elem_of_cons; [|by apply Hall].
         intros (ts' & Hts & Hd). simpl in Hts. congruence.
      -- intros [Hm Hall]. split; [done|]. intros e' Hin. apply Hall. by right.
  + split.
    * intros [Hm Hall]. split; [done|]. intros e' [->|Hin]%elem_of_cons; [|by apply Hall].
      intros (ts' & Hts & Hd). simpl in Hts. congruence.
    * intros [Hm Hall]. split; [done|]. intros e' Hin. apply Hall. by right.
Qed.

Lemma daily_fold d (m : gmap Z Z) (db : t) :
default 0 (foldl (λ daily_usage x, foldl add_entry daily_usage (history x.2)) m db !! d)
= default 0 (m !! d) + total (recorded_on d <$> db).
Proof.
revert m. induction db as [|x db IH]; intros m.
- simpl. lia.
- cbn [foldl]. rewrite IH, add_entry_fold, fmap_cons. unfold total at 2.
  cbn [foldr]. fold (total (recorded_on d <$> db)). unfold recorded_on at 2. lia.
Qed.

Lemma daily_absent d (m : gmap Z Z) (db : t) :
foldl (λ daily_usage x, foldl add_entry daily_usage (history x.2)) m db !! d = None ↔
m !! d = None ∧ ∀ x e, x ∈ db → e ∈ history x.2 → ¬ stamped_on d (plain e).
Proof.
revert m. induction db as [|x db IH]; intros m.
- simpl. split; [intros ?; split; [done|]; by intros x e ?%elem_of_nil|by intros [? _]].
- cbn [foldl]. rewrite IH, add_entry_absent. split.
  + intros [[Hm Hx] Hall]. split; [done|].
    intros x' e [->|Hin]%elem_of_cons; [by apply Hx|by apply Hall].
  + intros [Hm Hall]. split; [split; [done|]|].
    * intros e. apply Hall. left.
    * intros x' e Hin. apply Hall. by right.
Qed.

Lemma used_is_recorded w (db : t) :
NoDup db.*1 →
∀ x, x ∈ db → get_used_quota x.1 w db = recorded_on (today w) x.
Proof.
intros Hnd [k info] Hin. rewrite get_used_quota_spec. simpl.
destruct (Py.get k db) as [info'|] eqn:Hg.
- apply dict_get_Some in Hg.
  assert (info' = info) as ->; [|done].
  clear w. induction db as [|[k0 v0] db IH]; [by apply elem_of_nil in Hin|].
  rewrite fmap_cons in Hnd. apply NoDup_cons in Hnd as [Hni Hnd]. simpl in Hni.
  apply elem_of_cons in Hin as [[= <- <-]|Hin]; apply elem_of_cons in Hg as [[= ->]|Hg].
  + done.
  + exfalso. apply Hni. apply list_elem_of_fmap. by exists (k, info').
  + subst. exfalso. apply Hni. apply list_elem_of_fmap. by exists (k0, info).
  + by apply IH.
- apply dict_get_None in Hg. exfalso. apply Hg. apply list_elem_of_fmap. by exists (k, info).
Qed.
End ledger2_facts.

(** X16.  For a database with one record per key, what
    [get_daily_quota_usage] reports for today is the sum of
    [get_used_quota] over the keys; and a date is absent from the report
    exactly when no history entry is stamped with it. *)
Theorem daily_usage_adds_up_the_keys (db : Ledger.t) :
  NoDup db.*1 →
  (∀ w, default 0 (Ledger.get_daily_quota_usage db !! World.today w)
        = total ((λ x, Ledger.get_used_quota x.1 w db) <$> db)) ∧
  (∀ d, Ledger.get_daily_quota_usage db !! d = None ↔
        ∀ x e, x ∈ db → e ∈ Ledger.history x.2 → ¬ stamped_on d (Ledger.plain e)).
Proof.
  intros Hnd. split.
  - intros w. unfold Ledger.get_daily_quota_usage. rewrite daily_fold, lookup_empty. simpl.
    rewrite Z.add_0_l. f_equal. apply Forall_fmap_ext, Forall_forall.
    intros x Hx. symmetry. by apply used_is_recorded.
  - intros d. unfold Ledger.get_daily_quota_usage. rewrite daily_absent, lookup_empty.
    naive_solver.
Qed.

Section optimal_facts.
Import World Ledger.

Lemma head_insert_sorted x l :
head (insert_sorted x l) =
  match head l with
  | Some y => if cand_le x y then Some x else Some y
  | None => Some x
  end.
Proof. destruct l as [|y l]; [done|]. simpl. by destruct (cand_le x y). Qed.

Lemma cand_le_true a b : cand_le a b = true → cand_remaining b ≤ cand_remaining a.
Proof.
unfold cand_le. intros [H|[H _]%andb_prop]%orb_prop.
- apply bool_decide_eq_true in H. lia.
- apply bool_decide_eq_true in H. lia.
Qed.

Lemma cand_le_false a b : cand_le a b = false → cand_remaining a ≤ cand_remaining b.
Proof.
unfold cand_le. intros [H _]%orb_false_elim.
apply bool_decide_eq_false in H. lia.
Qed.

Lemma cand_le_spec a b :
cand_le a b = true ↔
cand_remaining b < cand_remaining a ∨
(cand_remaining a = cand_remaining b ∧
 ((avg_response_time a < avg_response_time b)%Q ∨
  ((avg_response_time a == avg_response_time b)%Q ∧
   cand_usage_count a ≤ cand_usage_count b))).
Proof.
unfold cand_le.
rewrite orb_true_iff, andb_true_iff, orb_true_iff, andb_true_iff.
rewrite !bool_decide_eq_true, Qltb_spec, Qeq_bool_iff. done.
Qed.

Lemma cand_le_refl a : cand_le a a = true.
Proof. apply cand_le_spec. right. split; [done|]. right. split; [reflexivity|lia]. Qed.

Lemma cand_le_total a b : cand_le a b = false → cand_le b a = true.
Proof.
intros Hf. apply cand_le_spec.
assert (¬ (cand_le a b = true)) as Hn by (by rewrite Hf).
rewrite cand_le_spec in Hn.
destruct (Z.lt_trichotomy (cand_remaining a) (cand_remaining b)) as [?|[Heq|?]];
  [by left| |exfalso; apply Hn; by left].
right. split; [done|].
destruct (Q_dec (avg_response_time a) (avg_response_time b)) as [[Hlt|Hgt]|Heqq].
- exfalso. apply Hn. right. split; [done|]. by left.
- by left.
- right. split; [by symmetry|].
  destruct (Z.le_gt_cases (cand_usage_count b) (cand_usage_count a)); [done|].
  exfalso. apply Hn. right. split; [done|]. right. split; [done|lia].
Qed.

Lemma cand_le_trans a b c : cand_le a b = true → cand_le b c = true → cand_le a c = true.
Proof.
rewrite !cand_le_spec.
intros [?|[Hab [Hq|[Hq Hu]]]] [?|[Hbc [Hq'|[Hq' Hu']]]];
  try (left; lia); right; (split; [lia|]).
- left. lra.
- left. lra.
- left. lra.
- right. split; [lra|lia].
Qed.

Lemma head_sorted l :
l ≠ [] →
∃ c, head (sorted l) = Some c ∧ c ∈ l ∧ ∀ c', c' ∈ l → cand_le c c' = true.
Proof.
induction l as [|x l IH]; [done|]. intros _.
unfold sorted. cbn [foldr]. fold (sorted l). rewrite head_insert_sorted.
destruct l as [|y l].
- simpl. exists x. split; [done|]. split; [left|].
  intros c' ->%list_elem_of_singleton. apply cand_le_refl.
- destruct IH as (c & -> & Hc & Hmax); [done|].
  destruct (cand_le x c) eqn:Hle.
  + exists x. split; [done|]. split; [left|].
    intros c' [->|Hin]%elem_of_cons; [apply cand_le_refl|].
    eapply cand_le_trans; [done|]. by apply Hmax.
  + exists c. split; [done|]. split; [by right|].
    intros c' [->|Hin]%elem_of_cons; [by apply cand_le_total|by apply Hmax].
Qed.

Lemma valid_candidate_spec w db x c :
valid_candidate w db x = Some c →
key c = x.1 ∧ status (top x.2) = Some "valid"%string ∧
cand_remaining c = get_estimated_remaining_quota x.1 w db ∧ 100 ≤ cand_remaining c.
Proof.
unfold valid_candidate. case_bool_decide as Hs; [|done].
case_bool_decide as Hr; [done|]. intros [= <-]. simpl. split_and!; [done..|lia].
Qed.

Lemma reset_candidate_spec w x c :
reset_candidate w x = Some c →
key c = x.1 ∧ status (top x.2) = Some "quota_exceeded"%string ∧
cand_remaining c = Validator.YT_API_QUOTA_LIMIT ∧
∃ ts, last_checked (top x.2) = Some ts ∧ date_of ts < today w.
Proof.
unfold reset_candidate. case_bool_decide as Hs; [|done].
destruct (last_checked (top x.2)) as [ts|]; [|done].
case_bool_decide as Hd; [|done]. intros [= <-]. simpl. split_and!; [done..|]. by exists ts.
Qed.
End optimal_facts.



Section estimate_facts.
Import World Ledger.

Lemma update_keeps_estimate api_key qi w db r :
(estimated_remaining qi = Some r ∨
 (estimated_remaining qi = None ∧
  ∃ info, Py.get api_key db = Some info ∧ estimated_remaining (top info) = Some r)) →
∃ info', Py.get api_key (update_quota_info api_key qi w db) = Some info' ∧
         estimated_remaining (top info') = Some r.
Proof.
intros H. unfold update_quota_info. rewrite dict_get_set. eexists. split; [done|].
cbn [top update estimated_remaining].
destruct H as [->|(-> & info & -> & Hr)]; [done|]. done.
Qed.

Lemma record_all_keeps_estimate api_key later db r info :
Forall (λ q, estimated_remaining q.1 = None) later →
Py.get api_key db = Some info → estimated_remaining (top info) = Some r →
∃ info', Py.get api_key (record_all api_key later db) = Some info' ∧
         estimated_remaining (top info') = Some r.
Proof.
intros Hall. revert db info. induction Hall as [|[qi w] later Hq Hall IH]; intros db info Hg Hr.
- by exists info.
- unfold record_all. cbn [foldl]. fold (record_all api_key later).
  destruct (update_keeps_estimate api_key qi w db r) as (info' & Hg' & Hr').
  { right. split; [done|]. by exists info. }
  by eapply IH.
Qed.
End estimate_facts.

(** X18.  Once an outcome with an estimate has been recorded for a key,
    [get_estimated_remaining_quota] reports that estimate at any later
    time, on later days too, as long as the outcomes recorded after it
    carry no estimate. *)
Theorem remaining_estimate_is_kept_until_replaced
    (api_key : string) (quota_info : Ledger.fields) (r : Z) (w : World.t) (db : Ledger.t)
    (later : list (Ledger.fields * World.t)) (w' : World.t) :
  Ledger.estimated_remaining quota_info = Some r →
  Forall (λ q, Ledger.estimated_remaining q.1 = None) later →
  Ledger.get_estimated_remaining_quota api_key w'
    (record_all api_key later (Ledger.update_quota_info api_key quota_info w db)) = r.
Proof.
  intros Hr Hall.
  destruct (update_keeps_estimate api_key quota_info w db r) as (info & Hg & Hi); [by left|].
  destruct (record_all_keeps_estimate api_key later _ r info Hall Hg Hi) as (info' & Hg' & Hi').
  unfold Ledger.get_estimated_remaining_quota. by rewrite Hg', Hi'.
Qed.

Section history_facts.
Import World Ledger.

Lemma last_n_short {A} n (l : list A) : (length l ≤ n)%nat → Validator.last_n n l = l.
Proof. intros H. unfold Validator.last_n. by replace (length l - n)%nat with 0%nat by lia. Qed.

Lemma last_n_length {A} n (l : list A) : length (Validator.last_n n l) = (length l `min` n)%nat.
Proof. unfold Validator.last_n. rewrite length_drop. lia. Qed.

Lemma last_n_snoc {A} n (l : list A) x :
(0 < n)%nat →
Validator.last_n n (Validator.last_n n l ++ [x]) = Validator.last_n n (l ++ [x]).
Proof.
intros Hn. destruct (decide (length l ≤ n)%nat) as [Hle|Hgt].
- by rewrite (last_n_short n l).
- unfold Validator.last_n at 1 3. rewrite !length_app, last_n_length. simpl.
  replace (length l `min` n + 1 - n)%nat with 1%nat by lia.
  unfold Validator.last_n.
  rewrite drop_app_le by (rewrite length_drop; lia).
  rewrite drop_drop.
  rewrite drop_app_le by lia. f_equal. f_equal. lia.
Qed.

Lemma last_n_app_last_n {A} n (l k : list A) :
(0 < n)%nat →
Validator.last_n n (Validator.last_n n l ++ k) = Validator.last_n n (l ++ k).
Proof.
intros Hn. revert l. induction k as [|x k IH]; intros l.
- rewrite !app_nil_r. apply last_n_short. rewrite last_n_length. lia.
- rewrite !(cons_middle x), !app_assoc.
  rewrite <-(IH (Validator.last_n n l ++ [x])), <-(IH (l ++ [x])).
  by rewrite last_n_snoc.
Qed.

Lemma capped_is_last_n {A} n (h : list A) :
(if bool_decide (n < length h)%nat then Validator.last_n n h else h) = Validator.last_n n h.
Proof. case_bool_decide; [done|]. symmetry. apply last_n_short. lia. Qed.

Lemma update_history api_key qi w db :
history_of api_key (update_quota_info api_key qi w db)
  = Validator.last_n 50 (history_of api_key db ++ [history_entry (qi, w)]) ∧
count_of api_key (update_quota_info api_key qi w db) = count_of api_key db + 1.
Proof.
unfold history_of, count_of, get_quota_info, update_quota_info.
rewrite dict_get_set. cbn [from_option history usage_count].
rewrite capped_is_last_n.
destruct (Py.get api_key db) as [info|]; simpl; done.
Qed.

Lemma record_all_cons api_key q later db :
record_all api_key (q :: later) db
  = record_all api_key later (update_quota_info api_key q.1 q.2 db).
Proof. done. Qed.

Lemma record_all_history api_key later db :
(length (history_of api_key db) ≤ 50)%nat →
history_of api_key (record_all api_key later db)
  = Validator.last_n 50 (history_of api_key db ++ (history_entry <$> later)) ∧
count_of api_key (record_all api_key later db)
  = count_of api_key db + Z.of_nat (length later).
Proof.
revert db. induction later as [|[qi w] later IH]; intros db Hlen.
- simpl. rewrite app_nil_r, last_n_short by done. split; [done|lia].
- rewrite record_all_cons. cbn [fst snd].
  destruct (update_history api_key qi w db) as [Hh Hc].
  destruct (IH (update_quota_info api_key qi w db)) as [IHh IHc].
  { rewrite Hh, last_n_length. lia. }
  rewrite IHh, IHc, Hh, Hc. split; [|rewrite length_cons; lia].
  rewrite fmap_cons. cbn [fst snd].
  (* last_n (last_n (h ++ [e]) ++ rest) = last_n (h ++ e :: rest) *)
  rewrite last_n_app_last_n by lia. by rewrite <-app_assoc.
Qed.
End history_facts.

(** X19.  Recording outcomes for a key whose history has at most 50
    entries leaves the last 50 entries of the old history followed by
    one entry per outcome, in order, so never more than 50;
    [usage_count] grows by the number of outcomes; the records of other
    keys stay as they are. *)
Theorem history_keeps_the_last_fifty_outcomes
    (api_key : string) (later : list (Ledger.fields * World.t)) (db : Ledger.t) :
  (length (history_of api_key db) ≤ 50)%nat →
  history_of api_key (record_all api_key later db)
    = Validator.last_n 50 (history_of api_key db ++ (history_entry <$> later)) ∧
  (length (history_of api_key (record_all api_key later db)) ≤ 50)%nat ∧
  count_of api_key (record_all api_key later db)
    = count_of api_key db + Z.of_nat (length later) ∧
  (∀ k, k ≠ api_key →
     Ledger.get_quota_info k (record_all api_key later db) = Ledger.get_quota_info k db).
Proof.
  intros Hlen. destruct (record_all_history api_key later db Hlen) as [Hh Hc].
  split; [done|]. split; [rewrite Hh, last_n_length; lia|]. split; [done|].
  intros k Hk. clear Hlen Hh Hc. revert db.
  induction later as [|[qi w] later IH]; intros db; [done|].
  rewrite record_all_cons, IH. cbn [fst snd].
  unfold Ledger.get_quota_info, Ledger.update_quota_info. by rewrite dict_get_set_ne.
Qed.


(** * Properties of the analytics *)

Section analytics_facts.
Import World Analytics.

Lemma bump_counted event_type units c :
counted (bump event_type units c) = counted c + 1 ∧
total_units (bump event_type units c) = total_units c + units.
Proof.
unfold bump, counted.
destruct (String.eqb event_type "valid_request"); [simpl; lia|].
destruct (String.eqb event_type "quota_exceeded"); [simpl; lia|].
destruct (Str.startswith event_type "invalid_key"); simpl; lia.
Qed.

Lemma record_events_cons e evs a :
record_events (e :: evs) a
  = record_events evs (update_analytics e.1.1.1 e.1.1.2 e.1.2 e.2 a).
Proof. done. Qed.

(** What one table of counters holds after the events, for the table
  keyed by [slot]. *)
Lemma table_fold (slot : World.t → Z) (table : t → gmap Z counters)
  (Hstep : ∀ k ty u w a,
     table (update_analytics k ty u w a)
     = <[slot w := bump ty u (default zero (table a !! slot w))]> (table a))
  evs a d :
counted (default zero (table (record_events evs a) !! d))
  = counted (default zero (table a !! d))
    + Z.of_nat (length (filter (λ e, slot e.2 = d) evs)) ∧
total_units (default zero (table (record_events evs a) !! d))
  = total_units (default zero (table a !! d))
    + total ((λ e, e.1.2) <$> filter (λ e, slot e.2 = d) evs) ∧
(table (record_events evs a) !! d = None ↔
 table a !! d = None ∧ filter (λ e, slot e.2 = d) evs = []).
Proof.
unfold usage_event in *.
revert a. induction evs as [|[[[k ty] u] w] evs IH]; intros a.
- simpl. split; [lia|]. split; [lia|]. naive_solver.
- rewrite record_events_cons. cbn [fst snd].
  destruct (IH (update_analytics k ty u w a)) as (IH1 & IH2 & IH3).
  rewrite IH1, IH2, IH3, Hstep. clear IH IH1 IH2 IH3.
  destruct (decide (slot w = d)) as [<-|Hne].
  + rewrite filter_cons_True by done. rewrite lookup_insert_eq.
    change (default zero (Some ?c)) with c.
    destruct (bump_counted ty u (default zero (table a !! slot w))) as [-> ->].
    rewrite fmap_cons, length_cons.
    change (total (?x :: ?l)) with (x + total l). cbn [fst snd].
    split; [lia|]. split; [lia|]. split; [by intros [? _]|by intros [_ ?]].
  + rewrite filter_cons_False by done. rewrite lookup_insert_ne by done. done.
Qed.

Lemma history_fold evs a :
quota_history (record_events evs a)
  = (if evs is [] then quota_history a
     else Validator.last_n 1000 (quota_history a ++ (quota_entry_of <$> evs))).
Proof.
revert a. induction evs as [|[[[k ty] u] w] evs IH]; intros a; [done|].
rewrite record_events_cons. cbn [fst snd].
rewrite IH. destruct evs as [|e evs].
- cbn [update_analytics quota_history]. unfold max_quota_history.
  by rewrite capped_is_last_n.
- cbn [update_analytics quota_history]. unfold max_quota_history.
  rewrite capped_is_last_n, last_n_app_last_n by lia.
  by rewrite <-app_assoc.
Qed.
End analytics_facts.

(** X20.  After any sequence of events recorded into empty analytics,
    the counters of a day have counted each event of that day in exactly
    one of the four categories, [total_units] is the sum of the units of
    these events, and a day without events has no counters; the same
    holds by the hour; and [quota_history] holds the last 1000 events in
    order. *)
Theorem analytics_count_each_event_once (evs : list usage_event) (day hour : Z) :
  let a := record_events evs Analytics.empty in
  let daily := default Analytics.zero (Analytics.daily_usage a !! day) in
  let hourly := default Analytics.zero (Analytics.hourly_usage a !! hour) in
  counted daily = Z.of_nat (length (events_on day evs)) ∧
  Analytics.total_units daily = total ((λ e, e.1.2) <$> events_on day evs) ∧
  (Analytics.daily_usage a !! day = None ↔ events_on day evs = []) ∧
  counted hourly = Z.of_nat (length (events_in hour evs)) ∧
  Analytics.total_units hourly = total ((λ e, e.1.2) <$> events_in hour evs) ∧
  (Analytics.hourly_usage a !! hour = None ↔ events_in hour evs = []) ∧
  Analytics.quota_history a = Validator.last_n 1000 (quota_entry_of <$> evs).
Proof.
  intros a daily hourly. subst a daily hourly. unfold usage_event in *.
  destruct (table_fold World.today Analytics.daily_usage (λ _ _ _ _ _, eq_refl)
              evs Analytics.empty day) as (D1 & D2 & D3).
  destruct (table_fold (λ w, Analytics.hour_of (World.time w)) Analytics.hourly_usage
              (λ _ _ _ _ _, eq_refl) evs Analytics.empty hour) as (H1 & H2 & H3).
  unfold events_on, events_in. rewrite D1, D2, D3, H1, H2, H3.
  cbn [Analytics.empty Analytics.daily_usage Analytics.hourly_usage].
  rewrite !lookup_empty. cbn [default]. unfold counted, Analytics.zero. simpl.
  split; [reflexivity|]. split; [reflexivity|]. split; [naive_solver|].
  split; [reflexivity|]. split; [reflexivity|]. split; [naive_solver|].
  rewrite history_fold. destruct evs; [done|]. done.
Qed.


(** * Properties of the validator *)

Section run_facts.
Import World Checker.
Variable md5 : string → string.
Variable o : oracle.
Hypothesis Hsane : sane o.
Hypothesis Hsettles : ∀ n key, asks_to_retry (build o n key) = false.

Lemma record_untouched api_key qi ev u w s :
untouched s (record api_key qi ev u w s) ∧
rate_limiter (record api_key qi ev u w s) = rate_limiter s.
Proof. done. Qed.

Lemma on_exception_settles api_key e w s :
asks_to_retry (Failed e) = false →
∃ v s', on_exception api_key e w s = (Some v, s') ∧ v.1.1 = false ∧
        untouched s s' ∧ rate_limiter s' = rate_limiter s.
Proof.
intros Hno. unfold on_exception.
destruct e as [|msg|msg|code reason|msg];
  try (eexists _, _; split; [reflexivity|]; split; [done|]; apply record_untouched).
simpl in Hno.
destruct (Str.contains "quota" (Str.lower reason)).
{ eexists _, _; split; [reflexivity|]; split; [done|]; apply record_untouched. }
destruct (bool_decide (code = 400) || bool_decide (code = 403)).
{ eexists _, _; split; [reflexivity|]; split; [done|]; apply record_untouched. }
simpl in Hno. apply orb_false_elim in Hno as [-> ->].
eexists _, _; split; [reflexivity|]; split; [done|]; apply record_untouched.
Qed.

Lemma get_from_service c w api_key got dc w' :
CachedDiscovery.get md5 o "youtube" "v3" api_key c w = (got, dc, w') →
now w' = now w ∧ ∀ e, got = Raise e → asks_to_retry (Failed e) = false.
Proof.
unfold CachedDiscovery.get.
destruct (Py.get _ (CachedDiscovery.cache c)) as [svc|].
- intros [= <- <- <-]. done.
- unfold call_build. pose proof (Hsettles (n_build w) api_key) as Hs.
  destruct (build o (n_build w) api_key) as [|e0].
  + intros [= <- <- <-]. done.
  + intros [= <- <- <-]. split; [done|]. by intros e [= <-].
Qed.

Lemma validate_returns k api_key s w :
ready s w →
∃ v s' w',
  validate_api_key md5 o (S (S (wait_bound (rate_limiter s)) + k)) api_key s w
    = Some (Return v, s', w') ∧
  untouched s s' ∧ ready s' w' ∧
  wait_bound (rate_limiter s') = wait_bound (rate_limiter s).
Proof.
intros (Hc & Hp & Hd & Hok & Hcap & Hlast).
destruct (acquire_grants o Hsane (rate_limiter s) w k Hok Hcap Hlast)
  as (rl & w1 & Hacq & _).
destruct (acquire_loop_ok o Hsane _ _ _ _ _ _ _ _ _ Hok Hlast Hacq)
  as (g & _ & Hok1 & Hm1 & Ht1 & _ & Hnow1 & Hlast1).
assert (Hwb : wait_bound rl = wait_bound (rate_limiter s)).
{ unfold wait_bound. by rewrite Hm1, Ht1. }
cbn [validate_api_key]. rewrite Hc, Hp, Hacq.
cbn [rate_limiter set_rate_limiter discovery_cache].
destruct (CachedDiscovery.get md5 o "youtube" "v3" api_key (discovery_cache s) w1)
  as [[got dc] w2] eqn:Hget.
destruct (get_from_service _ _ _ _ _ _ Hget) as [Hnow2 Hgot].
assert (Hready : ∀ s' w', untouched s s' → rate_limiter s' = rl → now w' = now w1 →
                          ready s' w').
{ intros s' w' (_ & _ & _ & _ & _ & _ & _ & _ & Hc' & Hp' & Hd') Hrl Hw'.
  unfold ready. rewrite Hc', Hp', Hd', Hrl, Hw', Hm1. done. }
destruct got as [svc|e].
- unfold call_build. pose proof (Hsettles (n_build w2) (CachedDiscovery.developerKey svc)) as Hs.
  destruct (build o (n_build w2) (CachedDiscovery.developerKey svc)) as [|e].
  + eexists _, _, _. split; [reflexivity|]. split; [done|]. split; [|done].
    apply Hready; [done|done|]. simpl. done.
  + edestruct (on_exception_settles api_key e) as (v & s' & Hon & _ & Hun & Hrl); [done|].
    rewrite Hon. eexists _, _, _. split; [reflexivity|]. split; [exact Hun|].
    split; [|by rewrite Hrl]. apply Hready; [exact Hun|by rewrite Hrl|]. simpl. done.
- edestruct (on_exception_settles api_key e) as (v & s' & Hon & _ & Hun & Hrl);
    [by apply Hgot|].
  rewrite Hon. eexists _, _, _. split; [reflexivity|]. split; [exact Hun|].
  split; [|by rewrite Hrl]. apply Hready; [exact Hun|by rewrite Hrl|done].
Qed.

Lemma file_key_spec api_key (v : verdict) s :
let s' := file_key api_key v s in
(∃ a b c, a ++ b ++ c = [api_key] ∧
   valid_keys s' = valid_keys s ++ a ∧ invalid_keys s' = invalid_keys s ++ b ∧
   quota_exceeded_keys s' = quota_exceeded_keys s ++ c) ∧
api_file s' = api_file s ∧ output_file s' = output_file s ∧
api_keys s' = api_keys s ∧ cancel_validation s' = cancel_validation s ∧
paused s' = paused s ∧ delay_between s' = delay_between s ∧
rate_limiter s' = rate_limiter s.
Proof.
destruct v as [[is_valid error_type] qi]. unfold file_key.
destruct is_valid; [|destruct (String.eqb error_type "quota_exceeded")]; simpl.
- split; [|done]. exists [api_key], [], []. by rewrite !app_nil_r.
- split; [|done]. exists [], [], [api_key]. by rewrite !app_nil_r.
- split; [|done]. exists [], [api_key], []. by rewrite !app_nil_r.
Qed.

Lemma validate_from_returns k keys : ∀ i s w,
ready s w →
∃ s' w' a b c,
  validate_from md5 o (S (S (wait_bound (rate_limiter s)) + k)) i keys s w
    = Some (true, s', w') ∧
  a ++ b ++ c ≡ₚ keys ∧
  valid_keys s' = valid_keys s ++ a ∧ invalid_keys s' = invalid_keys s ++ b ∧
  quota_exceeded_keys s' = quota_exceeded_keys s ++ c ∧
  api_file s' = api_file s ∧ output_file s' = output_file s ∧
  api_keys s' = api_keys s ∧
  (keys ≠ [] → processed_keys s' = Z.of_nat (i + length keys)).
Proof.
induction keys as [|api_key keys IH]; intros i s w Hready.
- exists s, w, [], [], []. rewrite !app_nil_r. done.
- cbn [validate_from]. pose proof Hready as (Hc & _).
  rewrite Hc.
  destruct (validate_returns k api_key s w Hready)
    as (v & s1 & w1 & -> & Hun & Hready1 & Hwb).
  destruct Hun as (Hf1 & Ho1 & Hk1 & Hv1 & Hi1 & Hq1 & _ & _ & Hc1 & Hp1 & Hd1).
  destruct (file_key_spec api_key v s1)
    as ((a0 & b0 & c0 & Hone & Hv2 & Hi2 & Hq2) & Hf2 & Ho2 & Hk2 & Hc2 & Hp2 & Hd2 & Hr2).
  set (s2 := set_processed_keys (Z.of_nat i + 1) (file_key api_key v s1)).
  set (w2 := if bool_decide (Z.of_nat i < Z.of_nat (length (api_keys s2)) - 1)
                && negb (cancel_validation s2)
             then sleep o (delay_between s2) w1 else w1).
  assert (Hready2 : ready s2 w2).
  { destruct Hready1 as (Hc' & Hp' & Hd' & Hok' & Hcap' & Hlast').
    unfold ready, s2. cbn [cancel_validation paused delay_between rate_limiter
                            set_processed_keys].
    rewrite Hc2, Hp2, Hd2, Hr2. split_and!; try done.
    unfold w2. destruct (_ && _); [|done].
    pose proof (sleep_now o Hsane (delay_between s2) w1) as Hs.
    unfold s2 in Hs. cbn [delay_between set_processed_keys] in Hs. rewrite Hd2 in Hs.
    specialize (Hs Hd'). unfold s2. cbn [delay_between set_processed_keys].
    rewrite Hd2. lra. }
  assert (Hwb2 : wait_bound (rate_limiter s2) = wait_bound (rate_limiter s)).
  { unfold s2. cbn [rate_limiter set_processed_keys]. by rewrite Hr2. }
  destruct (IH (S i) s2 w2 Hready2) as (s' & w' & a & b & c & Hrun & Hperm & Hv & Hi & Hq
                                         & Hf & Ho & Hk & Hproc).
  rewrite Hwb2 in Hrun. exists s', w', (a0 ++ a), (b0 ++ b), (c0 ++ c).
  split; [exact Hrun|].
  unfold s2 in Hv, Hi, Hq, Hf, Ho, Hk.
  cbn [valid_keys invalid_keys quota_exceeded_keys api_file output_file api_keys
       set_processed_keys] in Hv, Hi, Hq, Hf, Ho, Hk.
  split.
  { rewrite <-Hperm. change (api_key :: a ++ b ++ c) with ([api_key] ++ (a ++ b ++ c)).
    rewrite <-Hone. clear. 
    rewrite <-!app_assoc. apply Permutation_app_head.
    rewrite (Permutation_app_swap_app a b0). apply Permutation_app_head.
    rewrite (app_assoc a b), (Permutation_app_swap_app (a ++ b) c0).
    by rewrite <-!app_assoc. }
  rewrite Hv, Hi, Hq, Hf, Ho, Hk, Hv2, Hi2, Hq2, Hf2, Ho2, Hk2, Hv1, Hi1, Hq1, Hf1, Ho1, Hk1.
  rewrite <-!app_assoc. split_and!; try done.
  intros _. destruct keys as [|k' keys'].
  + simpl in Hrun. injection Hrun as <- _. unfold s2. simpl. lia.
  + rewrite Hproc by done. rewrite !length_cons. lia.
Qed.
End run_facts.

Section mask_facts.
Import World Checker.
Variable md5 : string → string.
Variable o : oracle.
Hypothesis Hsane : sane o.

Lemma built_keys_app l l' : built_keys (l ++ l') = built_keys l ++ built_keys l'.
Proof.
induction l as [|e l IH]; [done|]. destruct e; simpl; by rewrite IH.
Qed.

Lemma acquire_frame fuel block timeout start : ∀ r w res r' w',
RateLimiter.acquire_loop o fuel block timeout start r w = Some (res, r', w') →
n_build w' = n_build w ∧ built_keys (log w') = built_keys (log w).
Proof.
induction fuel as [|fuel IH]; intros r w res r' w' Hrun; [done|].
rewrite acquire_loop_S in Hrun.
destruct (RateLimiter.refill (time w) r) as [r1|e]; [|by simplify_eq].
destruct (Qle_bool 1 (RateLimiter.tokens r1)); [by simplify_eq|].
destruct (negb block); [by simplify_eq|].
destruct (match timeout with Some t => _ | None => _ end); [by simplify_eq|].
apply IH in Hrun as [-> ->]. simpl. rewrite built_keys_app. simpl.
by rewrite app_nil_r.
Qed.

(** A validation that finds the service accepting the key the client
  is bound to. *)
Lemma validate_accepted k api_key bound s w :
ready s w →
(∀ n, build o n bound = Built) →
(Py.get (CachedDiscovery._make_cache_key md5 "youtube" "v3" api_key)
        (CachedDiscovery.cache (discovery_cache s))
   = Some {| CachedDiscovery.developerKey := bound |} ∨
 (Py.get (CachedDiscovery._make_cache_key md5 "youtube" "v3" api_key)
         (CachedDiscovery.cache (discovery_cache s)) = None ∧ bound = api_key)) →
∃ qi s' w',
  validate_api_key md5 o (S (S (wait_bound (rate_limiter s)) + k)) api_key s w
    = Some (Return (true, "valid"%string, qi), s', w') ∧
  ready s' w' ∧ wait_bound (rate_limiter s') = wait_bound (rate_limiter s) ∧
  Py.get (CachedDiscovery._make_cache_key md5 "youtube" "v3" api_key)
         (CachedDiscovery.cache (discovery_cache s'))
    = Some {| CachedDiscovery.developerKey := bound |} ∧
  built_keys (log w')
    = built_keys (log w)
      ++ match Py.get (CachedDiscovery._make_cache_key md5 "youtube" "v3" api_key)
                      (CachedDiscovery.cache (discovery_cache s)) with
         | Some _ => [bound]
         | None => [bound; bound]
         end.
Proof.
intros (Hc & Hp & Hd & Hok & Hcap & Hlast) Hb Hcache.
destruct (acquire_grants o Hsane (rate_limiter s) w k Hok Hcap Hlast)
  as (rl & w1 & Hacq & _).
destruct (acquire_loop_ok o Hsane _ _ _ _ _ _ _ _ _ Hok Hlast Hacq)
  as (g & _ & Hok1 & Hm1 & Ht1 & _ & Hnow1 & Hlast1).
destruct (acquire_frame _ _ _ _ _ _ _ _ _ Hacq) as [Hn1 Hlog1].
assert (Hwb : wait_bound rl = wait_bound (rate_limiter s)).
{ unfold wait_bound. by rewrite Hm1, Ht1. }
cbn [validate_api_key]. rewrite Hc, Hp, Hacq.
cbn [rate_limiter set_rate_limiter discovery_cache].
destruct Hcache as [Hhit|[Hmiss ->]].
- rewrite (get_hit md5 o _ _ _ _ _ _ Hhit).
  cbn [CachedDiscovery.developerKey]. unfold call_build. rewrite Hb.
  eexists _, _, _. split; [reflexivity|]. split; [|split; [exact Hwb|split; [exact Hhit|]]].
  + unfold ready. simpl. rewrite Hm1. done.
  + rewrite Hhit. simpl. by rewrite built_keys_app, Hlog1.
- rewrite (get_miss md5 o _ _ _ _ _ Hmiss), Hb.
  cbn [CachedDiscovery.developerKey]. unfold call_build. rewrite Hb.
  eexists _, _, _. split; [reflexivity|].
  split; [|split; [exact Hwb|split; [apply dict_get_set|]]].
  + unfold ready. simpl. rewrite Hm1. done.
  + rewrite Hmiss. simpl. by rewrite !built_keys_app, Hlog1, <-app_assoc.
Qed.
End mask_facts.

(** X22.  When two keys have the same first four and the same last four
    characters and the service accepts the first, validating the first
    key and then the second one reports both as valid, and the second
    key is never sent to the service: the three calls made all carry the
    first key. *)
Theorem same_mask_key_is_judged_by_the_first_key
    (md5 : string → string) (o : World.oracle) (k1 k2 : string) (s : Checker.t)
    (w : World.t) (k : nat) :
  World.sane o → ready s w →
  Py.take 4 k1 = Py.take 4 k2 → Py.last 4 k1 = Py.last 4 k2 →
  Py.get (CachedDiscovery._make_cache_key md5 "youtube" "v3" k1)
         (CachedDiscovery.cache (Checker.discovery_cache s)) = None →
  (∀ n, World.build o n k1 = World.Built) →
  let fuel := S (S (wait_bound (Checker.rate_limiter s)) + k) in
  ∃ qi1 s1 w1 qi2 s2 w2,
    Checker.validate_api_key md5 o fuel k1 s w
      = Some (Return (true, "valid"%string, qi1), s1, w1) ∧
    Checker.validate_api_key md5 o fuel k2 s1 w1
      = Some (Return (true, "valid"%string, qi2), s2, w2) ∧
    built_keys (World.log w2) = built_keys (World.log w) ++ [k1; k1; k1].
Proof.
  intros Hsane Hready Htake Hlast Hmiss Hb fuel.
  assert (Hkey : CachedDiscovery._make_cache_key md5 "youtube" "v3" k2
                 = CachedDiscovery._make_cache_key md5 "youtube" "v3" k1).
  { unfold CachedDiscovery._make_cache_key. by rewrite Htake, Hlast. }
  destruct (validate_accepted md5 o Hsane k k1 k1 s w Hready Hb)
    as (qi1 & s1 & w1 & Hrun1 & Hready1 & Hwb1 & Hc1 & Hlog1); [by right|].
  rewrite Hmiss in Hlog1. rewrite <-Hkey in Hc1.
  destruct (validate_accepted md5 o Hsane k k2 k1 s1 w1 Hready1 Hb)
    as (qi2 & s2 & w2 & Hrun2 & _ & _ & _ & Hlog2); [by left|].
  rewrite Hc1 in Hlog2.
  rewrite Hwb1 in Hrun2.
  exists qi1, s1, w1, qi2, s2, w2. split; [exact Hrun1|]. split; [exact Hrun2|].
  by rewrite Hlog2, Hlog1, <-app_assoc.
Qed.

(** X21.  Sequential validation ([validate_all_keys] without the thread
    pool) by a validator that is ready, over a key file with at least
    one key and with a service that never answers 429 or 5xx, ends.
    Afterwards every loaded key is in exactly one of the three lists,
    [processed_keys] is the number of keys, the result tells whether
    some key is valid, and the output file is what [save_valid_keys]
    writes when some key is valid and is left as it was otherwise. *)
Theorem sequential_validation_files_every_key
    (md5 : string → string) (o : World.oracle) (strftime : Q → string) (str : Z → string)
    (text : string) (s : Checker.t) (w : World.t) (k : nat) :
  World.sane o → (∀ n key, asks_to_retry (World.build o n key) = false) →
  ready s w → Checker.api_file s = Some text → Checker.key_lines text ≠ [] →
  ∃ s' w',
    Checker.validate_all_keys md5 o strftime str
      (S (S (wait_bound (Checker.rate_limiter s)) + k)) s w
      = Some (negb (bool_decide (Checker.valid_keys s' = [])), s', w') ∧
    Checker.api_keys s' = Checker.key_lines text ∧
    filed s' ≡ₚ Checker.key_lines text ∧
    Checker.processed_keys s' = Z.of_nat (length (Checker.key_lines text)) ∧
    Checker.output_file s'
      = (if bool_decide (Checker.valid_keys s' = []) then Checker.output_file s
         else Checker.output_file (Checker.save_valid_keys strftime str s' w')).
Proof.
  intros Hsane Hsettles Hready Hfile Hkeys.
  unfold Checker.validate_all_keys, Checker.load_api_keys. rewrite Hfile.
  cbn [Checker.api_keys Checker.set_api_keys].
  rewrite bool_decide_eq_false_2 by done.
  set (s0 := Checker.set_quota_exceeded_keys [] _).
  assert (Hready0 : ready s0 w) by exact Hready.
  destruct (validate_from_returns md5 o Hsane Hsettles k (Checker.api_keys s0) 0 s0 w Hready0)
    as (s1 & w1 & a & b & c & Hrun & Hperm & Hv & Hi & Hq & Hf & Ho & Hk & Hproc).
  change (Checker.rate_limiter s0) with (Checker.rate_limiter s) in Hrun.
  rewrite Hrun. cbn [andb].
  change (Checker.api_keys s0) with (Checker.key_lines text) in *.
  change (Checker.valid_keys s0) with (@nil string) in Hv.
  change (Checker.invalid_keys s0) with (@nil string) in Hi.
  change (Checker.quota_exceeded_keys s0) with (@nil string) in Hq.
  change (Checker.output_file s0) with (Checker.output_file s) in Ho.
  rewrite !app_nil_l in *.
  assert (Hfiled : filed s1 ≡ₚ Checker.key_lines text).
  { unfold filed. by rewrite Hv, Hi, Hq. }
  specialize (Hproc Hkeys). clear Hv Hi Hq Hperm.
  destruct (Checker.valid_keys s1) as [|v0 vs] eqn:Hvs.
  - exists s1, w1. rewrite Hvs. rewrite bool_decide_eq_true_2 by done.
    done.
  - exists (Checker.save_valid_keys strftime str s1 w1), w1.
    cbn [Checker.save_valid_keys Checker.valid_keys Checker.set_output_file].
    rewrite Hvs. rewrite bool_decide_eq_false_2 by done.
    split; [done|]. split; [done|]. split; [exact Hfiled|]. split; [done|].
    reflexivity.
Qed.

Section saved_facts.
Import World Checker.
Local Open Scope string_scope.

Lemma no_newline_app s t : no_newline s → no_newline t → no_newline (s ++ t).
Proof.
intros [Hs1 Hs2] [Ht1 Ht2]. unfold no_newline.
induction s as [|c s IH]; [done|]. rewrite append_cons. simpl in *.
destruct (decide (c = File.NL)); [done|]. destruct (decide (c = File.CR)); [done|].
by apply IH.
Qed.

Lemma comment_line_skipped rest :
APIKeyHandler.is_key_line (String "#" rest) = false.
Proof.
unfold APIKeyHandler.is_key_line, Str.strip.
change (Str.lstrip (String "#" rest)) with (String "#" rest).
destruct (rstrip_with_head Str.is_space "#" rest) as [r ->]; [done|]. 
simpl. by destruct r.
Qed.

Lemma split_once_app c k rest :
Str.contains_char c k = false → (Str.split_once c (k ++ String c rest)).1 = k.
Proof.
intros Hk. induction k as [|a k IH].
- rewrite append_nil_l. simpl. by rewrite decide_True.
- rewrite append_cons. simpl in *. destruct (decide (a = c)); [done|].
  specialize (IH Hk). destruct (Str.split_once c (k ++ String c rest)). simpl in *.
  by rewrite IH.
Qed.

Lemma contains_char_app c s t :
Str.contains_char c (s ++ t) = Str.contains_char c s || Str.contains_char c t.
Proof.
induction s as [|a s IH]; [done|]. rewrite append_cons. simpl.
destruct (decide (a = c)); [done|]. exact IH.
Qed.

Lemma key_line_kept k rest :
clean_key k → APIKeyHandler.is_key_line (k ++ rest) = true.
Proof.
intros (Hne & Hhash & Hstrip).
destruct (strip_fixed_head k Hstrip Hne) as [Hl _].
destruct k as [|c k]; [done|]. simpl in Hl, Hhash.
destruct (Str.is_space c) eqn:Hc.
{ exfalso. pose proof (lstrip_cases k) as [H|(c' & t & H & Hc')].
  - rewrite H in Hl. done.
  - assert (Hlen : ∀ s, (String.length (Str.lstrip s) ≤ String.length s)%nat).
    { clear. induction s as [|a s IH]; simpl; [done|]. destruct (Str.is_space a); simpl; lia. }
    specialize (Hlen k). rewrite Hl in Hlen. simpl in Hlen. lia. }
destruct (decide (c = "#"%char)) as [->|Hch]; [done|].
unfold APIKeyHandler.is_key_line, Str.strip. rewrite append_cons. simpl Str.lstrip.
rewrite Hc. destruct (rstrip_with_head Str.is_space c (k ++ rest) Hc) as [r ->].
unfold Str.startswith. cbn [String.eqb String.prefix negb andb].
destruct (ascii_dec "#" c) as [<-|?]; done.
Qed.

Lemma key_read_back k post :
clean_key k →
Str.strip (Str.split_once "#" (k ++ String " " (String " " (String "#" post)))).1 = k.
Proof.
intros Hk. pose proof Hk as (Hne & Hhash & Hstrip).
replace (k ++ String " " (String " " (String "#" post)))
  with ((k ++ "  ") ++ String "#" post) by (by rewrite append_assoc).
rewrite split_once_app.
- replace (k ++ "  ") with ((k ++ " ") ++ " ") by (by rewrite append_assoc).
  by rewrite !strip_snoc.
- rewrite contains_char_app, Hhash. done.
Qed.

Lemma load_lines (l : list string) :
Forall no_newline l →
APIKeyHandler._load_from_file (Some (File.written ((λ e, e ++ String File.NL "") <$> l)))
= (λ line, Str.strip (Str.split_once "#" line).1)
    <$> List.filter APIKeyHandler.is_key_line ((λ e, e ++ String File.NL "") <$> l).
Proof. intros Hl. unfold APIKeyHandler._load_from_file. by rewrite lines_written. Qed.

Lemma key_lines_read_back (post : string → string) (ks : list string) :
Forall clean_key ks →
(λ line, Str.strip (Str.split_once "#" line).1)
  <$> List.filter APIKeyHandler.is_key_line
        ((λ e, e ++ String File.NL "")
           <$> ((λ k, k ++ String " " (String " " (String "#" (post k)))) <$> ks))
= ks.
Proof.
induction 1 as [|k ks Hk Hks IH]; [done|].
rewrite !fmap_cons. cbn [List.filter].
rewrite append_assoc, key_line_kept by done.
rewrite fmap_cons, IH. f_equal.
rewrite !append_cons. by apply key_read_back.
Qed.

Lemma insert_desc_sorted {A} (key : A → Z) x l :
StronglySorted (λ a b, (key b ≤ key a)%Z) l →
StronglySorted (λ a b, (key b ≤ key a)%Z) (Py.insert_desc key x l).
Proof.
induction 1 as [|y l Hl IH Hy]; simpl.
- repeat constructor.
- case_bool_decide as Hle.
  + constructor; [by constructor|]. constructor; [done|].
    eapply Forall_impl; [exact Hy|]. simpl. intros z Hz. lia.
  + constructor; [done|].
    rewrite (insert_desc_perm key x l). constructor; [lia|done].
Qed.

Lemma sorted_desc_sorted {A} (key : A → Z) l :
StronglySorted (λ a b, (key b ≤ key a)%Z) (Py.sorted_desc key l).
Proof.
induction l as [|x l IH]; simpl; [constructor|]. by apply insert_desc_sorted.
Qed.

Lemma comment_skipped h :
Str.startswith h "#" = true → APIKeyHandler.is_key_line (h ++ String File.NL "") = false.
Proof.
destruct h as [|c h]; [done|]. unfold Str.startswith. cbn [String.prefix].
destruct (ascii_dec "#" c) as [<-|?]; [|done]. intros _.
rewrite append_cons. apply comment_line_skipped.
Qed.
End saved_facts.

(** X23.  What [save_valid_keys] writes is read back by
    [APIKeyHandler._load_from_file] as the valid keys in the order of
    their estimated remaining quota, the largest first, provided that
    the keys are clean and without a line break and that dates and
    numbers are printed without a line break. *)
Theorem saved_keys_are_read_back (strftime : Q → string) (str : Z → string)
    (s : Checker.t) (w : World.t) :
  (∀ t, no_newline (strftime t)) → (∀ n, no_newline (str n)) →
  Forall line_key (Checker.valid_keys s) →
  let left := λ k, Ledger.get_estimated_remaining_quota k w (Checker.quota_database s) in
  let keys := APIKeyHandler._load_from_file
                (Checker.output_file (Checker.save_valid_keys strftime str s w)) in
  keys = Py.sorted_desc left (Checker.valid_keys s) ∧
  keys ≡ₚ Checker.valid_keys s ∧
  StronglySorted (λ a b, left b ≤ left a) keys.
Proof.
  intros Htime Hstr Hkeys left keys.
  assert (keys = Py.sorted_desc left (Checker.valid_keys s)) as ->;
    [|split; [done|]; split; [apply sorted_desc_perm|apply sorted_desc_sorted]].
  unfold keys, Checker.save_valid_keys. cbn [Checker.output_file Checker.set_output_file].
  fold left.
  set (h1 := "# Валидные YouTube API ключи"%string).
  set (h2 := ("# Проверены: " ++ strftime (World.time w))%string).
  assert (Hh1 : no_newline h1) by done.
  assert (Hh2 : no_newline h2).
  { apply no_newline_app; [done|apply Htime]. }
  destruct (Checker.valid_keys s) as [|k0 ks] eqn:Hvs.
  - set (h3 := "# Валидные ключи не найдены"%string).
    change (File.written _)
      with (File.written ((λ e, e ++ String File.NL "")%string <$> [h1; h2; h3])).
    rewrite load_lines
      by (constructor; [exact Hh1|]; constructor; [exact Hh2|]; constructor; [done|constructor]).
    rewrite !fmap_cons. cbn [List.filter].
    by rewrite !comment_skipped.
  - rewrite <-Hvs in *. clear Hvs k0 ks.
    set (sorted := Py.sorted_desc left (Checker.valid_keys s)).
    assert (Hsorted : Forall line_key sorted).
    { apply Forall_forall. intros k Hk. rewrite Forall_forall in Hkeys. apply Hkeys.
      unfold sorted in Hk. by rewrite sorted_desc_perm in Hk. }
    set (post := λ k, (" Осталось ~" ++ str (left k) ++ " единиц квоты")%string).
    set (body := λ k, (k ++ String " " (String " " (String "#" (post k))))%string).
    assert (Hbody : Checker.key_line str s w <$> sorted
                    = (λ e, e ++ String File.NL "")%string <$> (body <$> sorted)).
    { rewrite <-list_fmap_compose. apply list_fmap_ext. intros _ k _.
      unfold Checker.key_line, body, post, compose. fold left.
      rewrite append_assoc, !append_cons, !append_assoc. reflexivity. }
    rewrite Hbody.
    change (File.written _)
      with (File.written ((λ e, e ++ String File.NL "")%string
                            <$> (h1 :: h2 :: (body <$> sorted)))).
    rewrite load_lines.
    2:{ constructor; [exact Hh1|]. constructor; [exact Hh2|].
        apply Forall_fmap. eapply Forall_impl; [exact Hsorted|].
        intros k [_ Hk]. unfold compose, body, post.
        apply no_newline_app; [done|].
        change (no_newline ("  # Осталось ~" ++ (str (left k) ++ " единиц квоты"))%string).
        apply no_newline_app; [done|]. apply no_newline_app; [apply Hstr|done]. }
    rewrite !fmap_cons. cbn [List.filter].
    rewrite !comment_skipped by done.
    apply key_lines_read_back.
    eapply Forall_impl; [exact Hsorted|]. by intros k [? _].
Qed.

(** X24.  After [stop_validation], a sequential [validate_all_keys] over
    a key file with at least one key reads the keys and returns [False]
    at once, whatever the fuel: no call, no sleep, the three lists
    empty, the output file and the quota database as they were.  The
    stop flag stays set, so the next run does the same. *)
Theorem stopped_validator_validates_nothing
    (md5 : string → string) (o : World.oracle) (strftime : Q → string) (str : Z → string)
    (fuel : nat) (text : string) (s : Checker.t) (w : World.t) :
  Checker.api_file s = Some text → Checker.key_lines text ≠ [] →
  ∃ s',
    Checker.validate_all_keys md5 o strftime str fuel (Checker.stop_validation s) w
      = Some (false, s', w) ∧
    Checker.cancel_validation s' = true ∧
    filed s' = [] ∧
    Checker.api_keys s' = Checker.key_lines text ∧
    Checker.processed_keys s' = Checker.processed_keys s ∧
    Checker.output_file s' = Checker.output_file s ∧
    Checker.quota_database s' = Checker.quota_database s.
Proof.
  intros Hfile Hkeys.
  unfold Checker.validate_all_keys, Checker.load_api_keys, Checker.stop_validation.
  cbn [Checker.api_file Checker.set_cancel_validation]. rewrite Hfile.
  cbn [Checker.api_keys Checker.set_api_keys].
  rewrite bool_decide_eq_false_2 by done.
  cbn [Checker.api_keys Checker.set_api_keys Checker.set_total_keys Checker.set_valid_keys
       Checker.set_invalid_keys Checker.set_quota_exceeded_keys].
  destruct (Checker.key_lines text) as [|k0 ks] eqn:Hk; [done|].
  cbn [Checker.validate_from Checker.cancel_validation].
  eexists. split; [reflexivity|]. done.
Qed.

Section own_output_facts.
Import World Checker.
Local Open Scope string_scope.

Lemma rstrip_app drop s t :
Str.rstrip_with drop t ≠ "" →
Str.rstrip_with drop (s ++ t) = s ++ Str.rstrip_with drop t.
Proof.
intros Ht. induction s as [|a s IH]; [done|].
rewrite !append_cons. simpl. rewrite IH.
destruct (s ++ Str.rstrip_with drop t) eqn:Hs; [|done].
destruct s; [|done]. rewrite append_nil_l in Hs. done.
Qed.

Lemma length_app s t : String.length (s ++ t) = (String.length s + String.length t)%nat.
Proof. induction s as [|a s IH]; [done|]. rewrite append_cons. simpl. by rewrite IH. Qed.

Lemma loaded_head k :
loaded_key k → ∃ c k', k = String c k' ∧ Str.is_space c = false ∧ c ≠ "#"%char.
Proof.
intros (_ & Hlen & Hl & Hs). destruct k as [|c k']; [simpl in Hlen; lia|].
exists c, k'. split; [done|]. split.
- simpl in Hl. destruct (Str.is_space c) eqn:Hc; [|done].
  exfalso. assert (Hlen' : ∀ s, (String.length (Str.lstrip s) ≤ String.length s)%nat).
  { clear. induction s as [|a s IH]; simpl; [done|]. destruct (Str.is_space a); simpl; lia. }
  specialize (Hlen' k'). rewrite Hl in Hlen'. simpl in Hlen'. lia.
- intros ->. unfold Str.startswith in Hs. simpl in Hs. by destruct k'.
Qed.

(** A line of the output file as [load_api_keys] takes it. *)
Lemma own_line_kept k mid tail :
loaded_key k → Str.rstrip_with Str.is_space tail = tail → tail ≠ "" →
let line := k ++ mid ++ tail in
Str.strip (line ++ String File.NL "") = line ∧
negb (String.eqb line "") && negb (Str.startswith line "#")
  && bool_decide (30 ≤ Str.len line)%nat = true.
Proof.
intros Hk Htail Hne line.
destruct (loaded_head k Hk) as (c & k' & -> & Hc & Hhash).
destruct Hk as (_ & Hlen & _ & _).
assert (Hstrip : Str.strip line = line).
{ unfold Str.strip, line. rewrite append_cons. cbn [Str.lstrip]. rewrite Hc.
  rewrite <-append_cons, <-append_assoc, rstrip_app by (by rewrite Htail).
  by rewrite Htail. }
split; [by rewrite strip_snoc|].
unfold line. rewrite append_cons. unfold Str.startswith, Str.len.
cbn [String.eqb String.prefix negb andb].
destruct (ascii_dec "#" c) as [<-|_]; [done|]. cbn [negb andb].
apply bool_decide_eq_true. rewrite <-append_cons, length_app.
unfold Str.len in Hlen. lia.
Qed.
Lemma comment_rejected h :
Str.startswith h "#" = true →
negb (String.eqb (Str.strip (h ++ String File.NL "")) "")
  && negb (Str.startswith (Str.strip (h ++ String File.NL "")) "#")
  && bool_decide (30 ≤ Str.len (Str.strip (h ++ String File.NL "")))%nat = false.
Proof.
destruct h as [|c h]; [done|]. unfold Str.startswith at 1. cbn [String.prefix].
destruct (ascii_dec "#" c) as [<-|?]; [|done]. intros _.
rewrite strip_snoc by done. unfold Str.strip.
change (Str.lstrip (String "#" h)) with (String "#" h).
destruct (rstrip_with_head Str.is_space "#" h) as [r ->]; [done|].
unfold Str.startswith. cbn [String.eqb String.prefix negb andb].
destruct (ascii_dec "#" "#") as [_|Hn]; [|done]. by destruct r.
Qed.

Lemma own_lines_kept (mid : string → string) tail ks :
Forall loaded_key ks → Str.rstrip_with Str.is_space tail = tail → tail ≠ "" →
List.filter (λ line, negb (String.eqb line "") && negb (Str.startswith line "#")
                     && bool_decide (30 ≤ Str.len line)%nat)
  (Str.strip <$> ((λ e, e ++ String File.NL "") <$> ((λ k, k ++ mid k ++ tail) <$> ks)))
= (λ k, k ++ mid k ++ tail) <$> ks.
Proof.
intros Hks Htail Hne. induction Hks as [|k ks Hk Hks IH]; [done|].
rewrite !fmap_cons. cbn [List.filter].
destruct (own_line_kept k (mid k) tail Hk Htail Hne) as [-> ->]. by rewrite IH.
Qed.
End own_output_facts.

(** X26.  The validator pointed at the file that [save_valid_keys]
    wrote loads each key line whole: every key it loads is a valid key
    followed by two blanks and the comment that was written after it,
    so none of them is a key that was saved.  This needs keys as the
    validator loads them (30 characters or more, so that a line is
    long enough whatever its comment), and dates and numbers printed
    without a line break. *)
Theorem validator_reads_its_own_output_with_the_comments
    (strftime : Q → string) (str : Z → string) (s : Checker.t) (w : World.t) :
  (∀ t, no_newline (strftime t)) → (∀ n, no_newline (str n)) →
  Forall loaded_key (Checker.valid_keys s) → Checker.valid_keys s ≠ [] →
  let left := λ k, Ledger.get_estimated_remaining_quota k w (Checker.quota_database s) in
  let s' := Checker.save_valid_keys strftime str s w in
  let again := Checker.load_api_keys (Checker.set_api_file (Checker.output_file s') s') in
  ∃ comment : string → string,
    again.1 = true ∧
    Checker.api_keys again.2
      = (λ k, k ++ "  #" ++ comment k)%string <$> Py.sorted_desc left (Checker.valid_keys s).
Proof.
  intros Htime Hstr Hkeys Hne left s' again.
  set (sorted := Py.sorted_desc left (Checker.valid_keys s)).
  assert (Hperm : sorted ≡ₚ Checker.valid_keys s) by apply sorted_desc_perm.
  assert (Hsorted : Forall loaded_key sorted) by (by rewrite Hperm).
  assert (Hsne : sorted ≠ []).
  { intros Hnil. rewrite Hnil in Hperm. symmetry in Hperm.
    by apply Permutation_nil_r in Hperm. }
  set (mid := λ k, ("  # Осталось ~" ++ str (left k))%string).
  set (tail := " единиц квоты"%string).
  set (h1 := "# Валидные YouTube API ключи"%string).
  set (h2 := ("# Проверены: " ++ strftime (World.time w))%string).
  assert (Hfile : Checker.output_file s'
                  = Some (File.written ((λ e, e ++ String File.NL "")%string
                            <$> (h1 :: h2 :: ((λ k, k ++ mid k ++ tail)%string <$> sorted))))).
  { unfold s', Checker.save_valid_keys. cbn [Checker.output_file Checker.set_output_file].
    fold left. destruct (Checker.valid_keys s) as [|k0 ks] eqn:Hvs; [done|].
    fold sorted. f_equal. rewrite !fmap_cons.
    change (File.written ?l) with (foldr String.append ""%string l).
    cbn [app foldr]. f_equal. f_equal. f_equal.
    rewrite <-list_fmap_compose. apply list_fmap_ext. intros _ k _.
    unfold Checker.key_line, compose, mid, tail. fold left.
    rewrite !append_assoc. reflexivity. }
  assert (Hlines : Checker.key_lines
            (File.written ((λ e, e ++ String File.NL "")%string
               <$> (h1 :: h2 :: ((λ k, k ++ mid k ++ tail)%string <$> sorted))))
          = (λ k, k ++ mid k ++ tail)%string <$> sorted).
  { unfold Checker.key_lines. rewrite lines_written.
    2:{ constructor; [done|]. constructor; [apply no_newline_app; [done|apply Htime]|].
        apply Forall_fmap. eapply Forall_impl; [exact Hsorted|].
        intros k (Hk & _). unfold compose, mid, tail.
        apply no_newline_app; [done|]. apply no_newline_app; [|done].
        apply no_newline_app; [done|apply Hstr]. }
    rewrite !fmap_cons. cbn [List.filter].
    rewrite !comment_rejected by done.
    by apply own_lines_kept. }
  exists (λ k, (" Осталось ~" ++ str (left k) ++ " единиц квоты")%string).
  unfold again, Checker.load_api_keys.
  cbn [Checker.api_file Checker.set_api_file]. rewrite Hfile.
  cbn [Checker.api_keys Checker.set_api_keys]. rewrite Hlines.
  rewrite bool_decide_eq_false_2.
  2:{ intros Hnil. apply fmap_nil_inv in Hnil. done. }
  split; [done|]. cbn [snd Checker.api_keys Checker.set_total_keys Checker.set_api_keys].
  apply list_fmap_ext. intros _ k _. unfold mid, tail.
  rewrite !append_assoc. reflexivity.
Qed.


(** * The properties at concrete inputs *)

(** X2 at one and two seconds. *)
Lemma random_delay_is_bounded_witness :
  World.sane always_built ∧
  ∃ d, World.log (Pacing.random_delay always_built 1 2 (World.start 100))
         = World.log (World.start 100) ++ [World.EvSleep d] ∧
       (1 # 10 <= d)%Q.
Proof.
  split; [exact always_built_sane|].
  destruct (random_delay_is_bounded always_built 1 2 (World.start 100) always_built_sane)
    as (d & Hlog & _ & Hd & _).
  exists d. split; [exact Hlog | exact Hd].
Defined.


(** X7 at [two_keys]. *)
Lemma level_pool_is_served_round_robin_witness :
  NoDup (Scraper.api_keys two_keys) ∧ (""%string ∉ Scraper.api_keys two_keys) ∧
  (0 < Scraper.min_api_cooldown two_keys)%Q ∧
  ∃ s' w',
    select_many always_built 1 (length (Scraper.api_keys two_keys)) two_keys (World.start 100)
      = Some (Scraper.api_keys two_keys, s', w').
Proof.
  assert (Hnd : NoDup (Scraper.api_keys two_keys)).
  { apply NoDup_cons. split; [by intros [?|?%elem_of_nil]%elem_of_cons|].
    apply NoDup_cons. split; [by intros ?%elem_of_nil|apply NoDup_nil_2]. }
  assert (Hk : ""%string ∉ Scraper.api_keys two_keys).
  { by intros [?|[?|?%elem_of_nil]%elem_of_cons]%elem_of_cons. }
  assert (Hcd : (0 < Scraper.min_api_cooldown two_keys)%Q) by (vm_compute; reflexivity).
  assert (Hlevel : ∀ k, k ∈ Scraper.api_keys two_keys →
            Scraper.getZ (Scraper.api_errors two_keys) k = 0 ∧
            Scraper.getZ (Scraper.api_usage_count two_keys) k = 0 ∧
            Scraper.getZ (Scraper.daily_quota_usage two_keys) k = 0 ∧
            (Scraper.getQ (Scraper.api_last_used two_keys) k
             + Scraper.min_api_cooldown two_keys <= World.time (World.start 100))%Q).
  { intros k Hin. apply elem_of_cons in Hin as [->|Hin].
    { split; [reflexivity|]. split; [reflexivity|]. split; [reflexivity|].
      vm_compute. discriminate. }
    apply elem_of_cons in Hin as [->|Hin]; [|by apply elem_of_nil in Hin].
    split; [reflexivity|]. split; [reflexivity|]. split; [reflexivity|].
    vm_compute. discriminate. }
  split; [exact Hnd|]. split; [exact Hk|]. split; [exact Hcd|].
  destruct (level_pool_is_served_round_robin always_built 0 0 0 0 two_keys (World.start 100)
              Hnd Hk Hcd Hlevel) as (s' & w' & Hrun & _).
  exists s', w'. exact Hrun.
Defined.

(** X9 at [mail_store]. *)
Lemma dedup_rewrites_the_file_witness :
  Store.emails_txt mail_store = Some "a@x.com
b@y.com
a@x.com
"%string ∧
  Store.read_emails "a@x.com
b@y.com
a@x.com
" ≠ [] ∧
  ∃ unique,
    Store.emails_txt (Store.remove_email_duplicates false 1 mail_store)
      = Some (email_lines unique) ∧
    NoDup unique.
Proof.
  assert (Hne : Store.read_emails "a@x.com
b@y.com
a@x.com
" ≠ []) by (vm_compute; discriminate).
  split; [reflexivity|]. split; [exact Hne|].
  destruct (dedup_rewrites_the_file false 1 mail_store _ eq_refl Hne)
    as (unique & Htxt & _ & _ & Hnd & _).
  exists unique. split; [exact Htxt | exact Hnd].
Defined.

(** X10 on an empty cache of two entries: the entry put first is still
    there after another key was put and the first one read. *)
Lemma lru_keeps_recently_put_entries_witness :
  0 < 2 ∧ lru_inv 2 (LRUCache.init (K:=string) (V:=nat) 2) ∧
  ∃ c1 c2 c3,
    LRUCache.put "a"%string 1%nat (LRUCache.init 2) = Return c1 ∧
    LRUCache.run [LRUCache.Put "b"%string 2%nat; LRUCache.Get "a"%string] c1 = Return c2 ∧
    LRUCache.get "a"%string None c2 = Return (Some 1%nat, c3).
Proof.
  assert (Hpos : 0 < 2) by lia.
  assert (Hinv : lru_inv 2 (LRUCache.init (K:=string) (V:=nat) 2)).
  { split; [reflexivity|]. split; [apply NoDup_nil_2|]. vm_compute. discriminate. }
  assert (Hput : ∀ v, LRUCache.Put "a"%string v
                      ∉ [LRUCache.Put "b"%string 2%nat; LRUCache.Get "a"%string]).
  { intros v [H|[H|H%elem_of_nil]%elem_of_cons]%elem_of_cons; [discriminate|discriminate|done]. }
  assert (Hfew : Z.of_nat (length (other_keys "a"%string
                   [LRUCache.Put "b"%string 2%nat; LRUCache.Get "a"%string])) < 2).
  { vm_compute. reflexivity. }
  split; [exact Hpos|]. split; [exact Hinv|].
  exact (lru_keeps_recently_put_entries 2 (LRUCache.init 2) "a"%string 1%nat
           [LRUCache.Put "b"%string 2%nat; LRUCache.Get "a"%string] Hpos Hinv Hput Hfew).
Defined.

(** X11 on an empty cache: a miss leaves it as it is. *)
Lemma lru_evicts_the_least_recently_used_witness :
  0 < 2 ∧ lru_inv 2 (LRUCache.init (K:=string) (V:=nat) 2) ∧
  LRUCache.contains "a"%string (LRUCache.init (K:=string) (V:=nat) 2) = false ∧
  LRUCache.get "a"%string None (LRUCache.init (K:=string) (V:=nat) 2)
    = Return (None, LRUCache.init 2).
Proof.
  assert (Hpos : 0 < 2) by lia.
  assert (Hinv : lru_inv 2 (LRUCache.init (K:=string) (V:=nat) 2)).
  { split; [reflexivity|]. split; [apply NoDup_nil_2|]. vm_compute. discriminate. }
  split; [exact Hpos|]. split; [exact Hinv|]. split; [reflexivity|].
  exact (proj1 (lru_evicts_the_least_recently_used 2 (LRUCache.init 2) "a"%string 1%nat None
                  Hpos Hinv eq_refl)).
Defined.

(** X12 at [three_steps]: two tokens are granted. *)
Lemma limiter_never_grants_beyond_its_budget_witness :
  World.sane always_built ∧ bucket_ok full_bucket ∧
  (RateLimiter.last_refill full_bucket <= World.now (World.start 100))%Q ∧
  play always_built 5 three_steps full_bucket (World.start 100)
    = Some (2, bucket_after, world_after) ∧
  bucket_ok bucket_after.
Proof.
  assert (Hok : bucket_ok full_bucket).
  { split; [vm_compute; reflexivity|]. split; vm_compute; discriminate. }
  assert (Hlast : (RateLimiter.last_refill full_bucket <= World.now (World.start 100))%Q).
  { vm_compute. discriminate. }
  assert (Hp : ∀ d, Pause d ∈ three_steps → (0 <= d)%Q).
  { intros d [H|[H|[H|H%elem_of_nil]%elem_of_cons]%elem_of_cons]%elem_of_cons;
      [discriminate| |discriminate|done].
    injection H as ->. vm_compute. discriminate. }
  assert (Hrun : play always_built 5 three_steps full_bucket (World.start 100)
                 = Some (2, bucket_after, world_after)).
  { vm_compute. reflexivity. }
  split; [exact always_built_sane|]. split; [exact Hok|]. split; [exact Hlast|].
  split; [exact Hrun|].
  exact (proj1 (limiter_never_grants_beyond_its_budget always_built 5 three_steps full_bucket
                  bucket_after (World.start 100) world_after 2 always_built_sane Hok Hlast
                  Hp Hrun)).
Defined.


(** X14 on an empty cache of ten clients. *)
Lemma client_cache_serves_hits_without_a_call_witness :
  clients_ok (CachedDiscovery.init 10) ∧ 1 ≤ CachedDiscovery.max_size (CachedDiscovery.init 10) ∧
  clients_ok (CachedDiscovery.get no_hash always_built "youtube" "v3" key_a
                (CachedDiscovery.init 10) (World.start 100)).1.2.
Proof.
  assert (Hok : clients_ok (CachedDiscovery.init 10)).
  { split; [apply NoDup_nil_2|]. vm_compute. discriminate. }
  assert (Hcap : 1 ≤ CachedDiscovery.max_size (CachedDiscovery.init 10)).
  { vm_compute. discriminate. }
  split; [exact Hok|]. split; [exact Hcap|].
  exact (proj1 (client_cache_serves_hits_without_a_call no_hash always_built "youtube" "v3"
                  key_a (CachedDiscovery.init 10) (World.start 100) Hok Hcap)).
Defined.

(** X15 at [key_a] and [key_b]. *)
Lemma keys_with_one_mask_share_a_client_witness :
  Py.take 4 key_a = Py.take 4 key_b ∧ Py.last 4 key_a = Py.last 4 key_b ∧
  ∃ c1 w1,
    CachedDiscovery.get no_hash always_built "youtube" "v3" key_b c1 w1
      = (Return {| CachedDiscovery.developerKey := key_a |}, c1, w1).
Proof.
  split; [reflexivity|]. split; [reflexivity|].
  destruct (keys_with_one_mask_share_a_client no_hash always_built "youtube" "v3" key_a key_b
              (CachedDiscovery.init 10) (World.start 100) eq_refl eq_refl eq_refl eq_refl)
    as (c1 & w1 & _ & Hsecond).
  exists c1, w1. exact Hsecond.
Defined.

(** X16 at [one_key_db]. *)
Lemma daily_usage_adds_up_the_keys_witness :
  NoDup one_key_db.*1 ∧
  default 0 (Ledger.get_daily_quota_usage one_key_db !! World.today (World.start 100))
    = total ((λ x, Ledger.get_used_quota x.1 (World.start 100) one_key_db) <$> one_key_db).
Proof.
  assert (Hnd : NoDup one_key_db.*1).
  { apply NoDup_cons. split; [by intros ?%elem_of_nil|apply NoDup_nil_2]. }
  split; [exact Hnd|].
  exact (proj1 (daily_usage_adds_up_the_keys one_key_db Hnd) (World.start 100)).
Defined.

(** X18: a key over quota is still reported without quota a day
    later, after an answer without an estimate. *)
Lemma remaining_estimate_is_kept_until_replaced_witness :
  Ledger.estimated_remaining over_quota = Some 0 ∧
  Forall (λ q, Ledger.estimated_remaining q.1 = None) [(rejected, World.start 200)] ∧
  Ledger.get_estimated_remaining_quota key_a (World.start 86500)
    (record_all key_a [(rejected, World.start 200)]
       (Ledger.update_quota_info key_a over_quota (World.start 100) [])) = 0.
Proof.
  assert (Hlater : Forall (λ q : Ledger.fields * World.t, Ledger.estimated_remaining q.1 = None)
                     [(rejected, World.start 200)]).
  { apply Forall_cons. split; [reflexivity|apply Forall_nil_2]. }
  split; [reflexivity|]. split; [exact Hlater|].
  exact (remaining_estimate_is_kept_until_replaced key_a over_quota 0 (World.start 100) []
           [(rejected, World.start 200)] (World.start 86500) eq_refl Hlater).
Defined.

(** X19 at [one_key_db]. *)
Lemma history_keeps_the_last_fifty_outcomes_witness :
  (length (history_of key_a one_key_db) ≤ 50)%nat ∧
  count_of key_a (record_all key_a [(rejected, World.start 200)] one_key_db)
    = count_of key_a one_key_db + Z.of_nat (length [(rejected, World.start 200)]).
Proof.
  assert (Hlen : (length (history_of key_a one_key_db) ≤ 50)%nat).
  { vm_compute. lia. }
  split; [exact Hlen|].
  exact (proj1 (proj2 (proj2 (history_keeps_the_last_fifty_outcomes key_a
                                [(rejected, World.start 200)] one_key_db Hlen)))).
Defined.

Lemma always_built_settles n key : asks_to_retry (World.build always_built n key) = false.
Proof. reflexivity. Defined.

Lemma fresh_validator_ready text : ready (fresh_validator text) (World.start 100).
Proof.
  split; [reflexivity|]. split; [reflexivity|]. split; [vm_compute; discriminate|].
  split; [|split; vm_compute; discriminate].
  split; [vm_compute; reflexivity|]. split; vm_compute; discriminate.
Defined.

(** X21 at [one_key_file]. *)
Lemma sequential_validation_files_every_key_witness :
  World.sane always_built ∧
  (∀ n key, asks_to_retry (World.build always_built n key) = false) ∧
  ready (fresh_validator one_key_file) (World.start 100) ∧
  Checker.api_file (fresh_validator one_key_file) = Some one_key_file ∧
  Checker.key_lines one_key_file ≠ [] ∧
  ∃ s' w',
    Checker.validate_all_keys no_hash always_built some_date some_number
      (S (S (wait_bound (Checker.rate_limiter (fresh_validator one_key_file))) + 0))
      (fresh_validator one_key_file) (World.start 100)
      = Some (negb (bool_decide (Checker.valid_keys s' = [])), s', w') ∧
    filed s' ≡ₚ Checker.key_lines one_key_file.
Proof.
  assert (Hkeys : Checker.key_lines one_key_file ≠ []) by (vm_compute; discriminate).
  split; [exact always_built_sane|]. split; [exact always_built_settles|].
  split; [exact (fresh_validator_ready one_key_file)|]. split; [reflexivity|].
  split; [exact Hkeys|].
  destruct (sequential_validation_files_every_key no_hash always_built some_date some_number
              one_key_file (fresh_validator one_key_file) (World.start 100) 0
              always_built_sane always_built_settles (fresh_validator_ready one_key_file)
              eq_refl Hkeys) as (s' & w' & Hrun & _ & Hfiled & _).
  exists s', w'. split; [exact Hrun | exact Hfiled].
Defined.

(** X22 at [key_a] and [key_b]. *)
Lemma same_mask_key_is_judged_by_the_first_key_witness :
  World.sane always_built ∧ ready (fresh_validator one_key_file) (World.start 100) ∧
  Py.take 4 key_a = Py.take 4 key_b ∧ Py.last 4 key_a = Py.last 4 key_b ∧
  (∀ n, World.build always_built n key_a = World.Built) ∧
  ∃ qi1 s1 w1 qi2 s2 w2,
    Checker.validate_api_key no_hash always_built
      (S (S (wait_bound (Checker.rate_limiter (fresh_validator one_key_file))) + 0))
      key_a (fresh_validator one_key_file) (World.start 100)
      = Some (Return (true, "valid"%string, qi1), s1, w1) ∧
    Checker.validate_api_key no_hash always_built
      (S (S (wait_bound (Checker.rate_limiter (fresh_validator one_key_file))) + 0))
      key_b s1 w1
      = Some (Return (true, "valid"%string, qi2), s2, w2) ∧
    built_keys (World.log w2) = built_keys (World.log (World.start 100)) ++ [key_a; key_a; key_a].
Proof.
  assert (Hb : ∀ n, World.build always_built n key_a = World.Built) by reflexivity.
  split; [exact always_built_sane|]. split; [exact (fresh_validator_ready one_key_file)|].
  split; [reflexivity|]. split; [reflexivity|]. split; [exact Hb|].
  exact (same_mask_key_is_judged_by_the_first_key no_hash always_built key_a key_b
           (fresh_validator one_key_file) (World.start 100) 0 always_built_sane
           (fresh_validator_ready one_key_file) eq_refl eq_refl eq_refl Hb).
Defined.

(** X23 at [validated]. *)
Lemma saved_keys_are_read_back_witness :
  (∀ t, no_newline (some_date t)) ∧ (∀ n, no_newline (some_number n)) ∧
  Forall line_key (Checker.valid_keys validated) ∧
  APIKeyHandler._load_from_file
    (Checker.output_file
       (Checker.save_valid_keys some_date some_number validated (World.start 100)))
  ≡ₚ Checker.valid_keys validated.
Proof.
  assert (Hd : ∀ t, no_newline (some_date t)) by (intros t; split; reflexivity).
  assert (Hn : ∀ n, no_newline (some_number n)) by (intros n; split; reflexivity).
  assert (Hk : Forall line_key (Checker.valid_keys validated)).
  { apply Forall_cons. split; [|apply Forall_nil_2].
    split; [|split; reflexivity]. split; [discriminate|]. split; reflexivity. }
  split; [exact Hd|]. split; [exact Hn|]. split; [exact Hk|].
  exact (proj1 (proj2 (saved_keys_are_read_back some_date some_number validated
                         (World.start 100) Hd Hn Hk))).
Defined.

(** X24 at [one_key_file]. *)
Lemma stopped_validator_validates_nothing_witness :
  Checker.api_file (fresh_validator one_key_file) = Some one_key_file ∧
  Checker.key_lines one_key_file ≠ [] ∧
  ∃ s',
    Checker.validate_all_keys no_hash always_built some_date some_number 0
      (Checker.stop_validation (fresh_validator one_key_file)) (World.start 100)
      = Some (false, s', World.start 100) ∧
    filed s' = [].
Proof.
  assert (Hkeys : Checker.key_lines one_key_file ≠ []) by (vm_compute; discriminate).
  split; [reflexivity|]. split; [exact Hkeys|].
  destruct (stopped_validator_validates_nothing no_hash always_built some_date some_number 0
              one_key_file (fresh_validator one_key_file) (World.start 100) eq_refl Hkeys)
    as (s' & Hrun & _ & Hfiled & _).
  exists s'. split; [exact Hrun | exact Hfiled].
Defined.

(** X25 at [known_store]. *)
Lemma saved_addresses_survive_a_restart_witness :
  Forall email_line ["a@x.com"%string] ∧ Forall email_line ["b@y.com"; "a@x.com"]%string ∧
  default ""%string (Store.emails_txt known_store) = email_lines ["a@x.com"%string] ∧
  Store.parsed_emails known_store = list_to_set ["a@x.com"%string] ∧
  Store.parsed_emails
    (Store._load_existing_emails
       (restart (Store._save_emails ["b@y.com"; "a@x.com"]%string "t" "c" known_store)))
  = Store.parsed_emails (Store._save_emails ["b@y.com"; "a@x.com"]%string "t" "c" known_store).
Proof.
  assert (Ha : email_line "a@x.com").
  { split; [discriminate|]. split; [reflexivity|]. split; [reflexivity|]. split; reflexivity. }
  assert (Hb : email_line "b@y.com").
  { split; [discriminate|]. split; [reflexivity|]. split; [reflexivity|]. split; reflexivity. }
  assert (Hknown : Forall email_line ["a@x.com"%string]).
  { apply Forall_cons. split; [exact Ha|apply Forall_nil_2]. }
  assert (Hemails : Forall email_line ["b@y.com"; "a@x.com"]%string).
  { apply Forall_cons. split; [exact Hb|exact Hknown]. }
  split; [exact Hknown|]. split; [exact Hemails|]. split; [reflexivity|]. split; [reflexivity|].
  exact (proj1 (saved_addresses_survive_a_restart ["a@x.com"%string]
                  ["b@y.com"; "a@x.com"]%string "t" "c" known_store Hknown Hemails
                  eq_refl eq_refl)).
Defined.

(** X26 at [validated]. *)
Lemma validator_reads_its_own_output_with_the_comments_witness :
  (∀ t, no_newline (some_date t)) ∧ (∀ n, no_newline (some_number n)) ∧
  Forall loaded_key (Checker.valid_keys validated) ∧ Checker.valid_keys validated ≠ [] ∧
  ∃ comment : string → string,
    Checker.api_keys
      (Checker.load_api_keys
         (Checker.set_api_file
            (Checker.output_file
               (Checker.save_valid_keys some_date some_number validated (World.start 100)))
            (Checker.save_valid_keys some_date some_number validated (World.start 100)))).2
    = (λ k, k ++ "  #" ++ comment k)%string
        <$> Py.sorted_desc
              (λ k, Ledger.get_estimated_remaining_quota k (World.start 100)
                      (Checker.quota_database validated))
              (Checker.valid_keys validated).
Proof.
  assert (Hd : ∀ t, no_newline (some_date t)) by (intros t; split; reflexivity).
  assert (Hn : ∀ n, no_newline (some_number n)) by (intros n; split; reflexivity).
  assert (Hk : Forall loaded_key (Checker.valid_keys validated)).
  { apply Forall_cons. split; [|apply Forall_nil_2].
    split; [split; reflexivity|]. split; [vm_compute; lia|]. split; reflexivity. }
  assert (Hne : Checker.valid_keys validated ≠ []) by discriminate.
  split; [exact Hd|]. split; [exact Hn|]. split; [exact Hk|]. split; [exact Hne|].
  destruct (validator_reads_its_own_output_with_the_comments some_date some_number validated
              (World.start 100) Hd Hn Hk Hne) as (comment & _ & Hkeys).
  exists comment. exact Hkeys.
Defined.
